(** * ReportFormatter: the report post-processing of [AnalysisResult.tsx]

    A shallow embedding of the three pieces of logic of the component
    [components/AnalysisResult.tsx]:

    - the [useMemo] block that splits the raw report into [cleanText] and
      [sentimentData] (the spec's [extractSentiment]);
    - [renderFormattedText], the line classifier and inline-bold splitter
      (the spec's [formatBlocks]);
    - [getPieStyle], the conic-gradient segment computation (the spec's
      [pieStyleFromDistribution]).

    Around them the development covers what else the component computes:
    the names of the two downloads, the two search links built with
    [encodeURIComponent], and the two lists of grounding sources.

    JavaScript strings are sequences of UTF-16 code units, regular
    expressions are run by a backtracking matcher that follows the
    ECMAScript priority rules, [JSON.parse] is a recursive-descent parser
    of the JSON grammar and JavaScript numbers are binary64 floats. *)

From Stdlib Require Import Ascii String.
From Stdlib Require Import List NArith ZArith PArith Arith Bool Lia.
From Stdlib Require Import Floats.
From Stdlib Require DecimalString DecimalNat.
Import ListNotations.

Set Implicit Arguments.
Set Warnings "-register-all".

(** ** JavaScript strings *)

(** A code unit of a JavaScript string. *)
Definition char := N.

Definition jsstring := list char.

(** ASCII literals: every character below 128 is its own code unit. *)
Definition js (s : string) : jsstring :=
  map N_of_ascii (list_ascii_of_string s).

Definition char_eqb (a b : char) : bool := N.eqb a b.

Fixpoint jsstring_eqb (a b : jsstring) : bool :=
  match a, b with
  | [], [] => true
  | x :: a', y :: b' => char_eqb x y && jsstring_eqb a' b'
  | _, _ => false
  end.

(** Code units used by the component. *)
Definition LF : char := 10%N.
Definition CR : char := 13%N.
Definition SPACE : char := 32%N.
Definition QUOTE : char := 34%N.     (* the double quote *)
Definition HASH : char := 35%N.
Definition ASTERISK : char := 42%N.
Definition HYPHEN : char := 45%N.
Definition BACKTICK : char := 96%N.
Definition LBRACE : char := 123%N.
Definition RBRACE : char := 125%N.
Definition EM_DASH : char := 8212%N. (* U+2014 *)

(** ECMAScript [WhiteSpace] and [LineTerminator] code units: the set that
    [\s] matches and that [String.prototype.trim] strips. *)
Definition isLineTerminator (c : char) : bool :=
  (c =? 10)%N || (c =? 13)%N || (c =? 8232)%N || (c =? 8233)%N.

Definition isWhiteSpace (c : char) : bool :=
  (c =? 9)%N || (c =? 10)%N || (c =? 11)%N || (c =? 12)%N || (c =? 13)%N
  || (c =? 32)%N || (c =? 160)%N || (c =? 5760)%N
  || ((8192 <=? c)%N && (c <=? 8202)%N)
  || (c =? 8232)%N || (c =? 8233)%N || (c =? 8239)%N || (c =? 8287)%N
  || (c =? 12288)%N || (c =? 65279)%N.

(** [s.trim()] *)
Fixpoint trimStart (s : jsstring) : jsstring :=
  match s with
  | c :: t => if isWhiteSpace c then trimStart t else s
  | [] => []
  end.

Definition trimEnd (s : jsstring) : jsstring := rev (trimStart (rev s)).

Definition trim (s : jsstring) : jsstring := trimEnd (trimStart s).

(** [s.startsWith(p)] and [s.endsWith(p)] *)
Fixpoint startsWith (p s : jsstring) : bool :=
  match p, s with
  | [], _ => true
  | x :: p', y :: s' => char_eqb x y && startsWith p' s'
  | _ :: _, [] => false
  end.

Definition endsWith (p s : jsstring) : bool := startsWith (rev p) (rev s).

(** [s.slice(start, end)] with the relative-index rule for negative
    arguments. *)
Definition slice (s : jsstring) (start stop : Z) : jsstring :=
  let len := Z.of_nat (length s) in
  let from := if (start <? 0)%Z then Z.max (len + start) 0 else Z.min start len in
  let to := if (stop <? 0)%Z then Z.max (len + stop) 0 else Z.min stop len in
  firstn (Z.to_nat (Z.max (to - from) 0)) (skipn (Z.to_nat from) s).

(** [s.indexOf(p)]: the least index at which [p] occurs in [s]. *)
Fixpoint indexOf (p s : jsstring) : option nat :=
  if startsWith p s then Some 0
  else match s with
       | [] => None
       | _ :: t => option_map S (indexOf p t)
       end.

(** [s.replace(p, rep)] with a string pattern: only the first occurrence is
    replaced.  The component only passes the empty replacement, which has no
    [$] patterns to expand. *)
Definition replaceString (p rep s : jsstring) : jsstring :=
  match indexOf p s with
  | Some k => firstn k s ++ rep ++ skipn (k + length p) s
  | None => s
  end.

(** [s.split(sep)] for a separator of one code unit; the empty string
    gives one empty piece. *)
Fixpoint splitOn (sep : char) (s : jsstring) : list jsstring :=
  match s with
  | [] => [[]]
  | c :: t =>
      if char_eqb c sep then [] :: splitOn sep t
      else match splitOn sep t with
           | p :: ps => (c :: p) :: ps
           | [] => [[c]]
           end
  end.

(** ** Regular expressions *)

(** The fragment of the ECMAScript pattern language the component uses:
    literal code units, classes, the start anchor, concatenation, a
    quantified class (greedy [*] or lazy [*?]) and numbered capture
    groups. *)
Inductive regex : Type :=
| Chr (c : char)
| Class (p : char -> bool)
| Bol
| Eps
| Cat (r1 r2 : regex)
| Star (greedy : bool) (p : char -> bool)
| Group (n : nat) (r : regex).

(** Capture [n] is the pair of its start and end index. *)
Definition captures := nat -> option (nat * nat).

Definition noCaptures : captures := fun _ => None.

Definition setCapture (n : nat) (span : nat * nat) (caps : captures) : captures :=
  fun m => if Nat.eqb m n then Some span else caps m.

(** A continuation receives the index reached, the rest of the input and
    the captures so far; it answers with the end index of the whole match. *)
Definition cont := nat -> jsstring -> captures -> option (nat * captures).

Definition accept : cont := fun i _ caps => Some (i, caps).

(** A quantified class.  Greedy: take one more code unit first and fall
    back to the continuation; lazy: try the continuation first. *)
Fixpoint star (greedy : bool) (p : char -> bool) (i : nat) (s : jsstring)
         (caps : captures) (k : cont) {struct s} : option (nat * captures) :=
  if greedy then
    match s with
    | c :: t =>
        if p c then
          match star greedy p (S i) t caps k with
          | Some r => Some r
          | None => k i s caps
          end
        else k i s caps
    | [] => k i s caps
    end
  else
    match k i s caps with
    | Some r => Some r
    | None =>
        match s with
        | c :: t => if p c then star greedy p (S i) t caps k else None
        | [] => None
        end
    end.

(** The backtracking matcher: [rmatch r i s caps k] matches [r] at index
    [i], where [s] is the input from [i] on, and then runs [k]. *)
Fixpoint rmatch (r : regex) (i : nat) (s : jsstring) (caps : captures)
         (k : cont) : option (nat * captures) :=
  match r with
  | Chr c =>
      match s with
      | x :: t => if char_eqb x c then k (S i) t caps else None
      | [] => None
      end
  | Class p =>
      match s with
      | x :: t => if p x then k (S i) t caps else None
      | [] => None
      end
  | Bol => if Nat.eqb i 0 then k i s caps else None
  | Eps => k i s caps
  | Cat r1 r2 => rmatch r1 i s caps (fun i' s' caps' => rmatch r2 i' s' caps' k)
  | Star greedy p => star greedy p i s caps k
  | Group n r' =>
      rmatch r' i s caps (fun i' s' caps' => k i' s' (setCapture n (i, i') caps'))
  end.

(** One attempt at index [i]. *)
Definition matchAt (r : regex) (i : nat) (s : jsstring) : option (nat * captures) :=
  rmatch r i s noCaptures accept.

(** [RegExp.prototype.exec] for a pattern without the [g] flag: the first
    index, from [i] on, at which an attempt succeeds.  The result is the
    start index, the end index and the captures. *)
Fixpoint execFrom (r : regex) (i : nat) (s : jsstring)
  : option (nat * nat * captures) :=
  match matchAt r i s with
  | Some (e, caps) => Some (i, e, caps)
  | None =>
      match s with
      | [] => None
      | _ :: t => execFrom r (S i) t
      end
  end.

Definition exec (r : regex) (s : jsstring) : option (nat * nat * captures) :=
  execFrom r 0 s.

(** [s.substring(b, e)] for [b <= e]. *)
Definition substring (s : jsstring) (b e : nat) : jsstring :=
  firstn (e - b) (skipn b s).

Fixpoint groupCount (r : regex) : nat :=
  match r with
  | Cat r1 r2 => groupCount r1 + groupCount r2
  | Group _ r' => S (groupCount r')
  | _ => 0
  end.

(** The array [s.match(r)] returns for a pattern without the [g] flag:
    its [index], element 0 (the whole match) and the elements of the
    numbered groups, an unmatched group being [undefined]. *)
Record MatchResult : Type := mkMatch {
  m_index : nat;
  m_whole : jsstring;
  m_groups : list (option jsstring)
}.

(** [match[n]] *)
Definition m_group (m : MatchResult) (n : nat) : option jsstring :=
  match n with
  | 0 => Some (m_whole m)
  | S n' => nth n' (m_groups m) None
  end.

Definition String_match (s : jsstring) (r : regex) : option MatchResult :=
  match exec r s with
  | Some (b, e, caps) =>
      Some (mkMatch b (substring s b e)
              (map (fun n => option_map (fun be => substring s (fst be) (snd be)) (caps n))
                   (seq 1 (groupCount r))))
  | None => None
  end.

(** [s.replace(r, rep)] for a pattern without the [g] flag. *)
Definition replaceRegex (r : regex) (rep s : jsstring) : jsstring :=
  match exec r s with
  | Some (b, e, _) => firstn b s ++ rep ++ skipn e s
  | None => s
  end.

(** [s.replace(r, rep)] for a pattern with the [g] flag.  The scan goes
    through the input once: [skip] counts the code units still inside the
    last match, which are dropped; outside a match an attempt is made at
    the current index, and an empty match advances by one code unit. *)
Fixpoint replaceAllFrom (r : regex) (rep : jsstring) (i skip : nat)
         (s : jsstring) {struct s} : jsstring :=
  match skip with
  | S n =>
      match s with
      | [] => []
      | _ :: t => replaceAllFrom r rep (S i) n t
      end
  | 0 =>
      match matchAt r i s with
      | Some (e, _) =>
          rep ++
          match s with
          | [] => []
          | c :: t =>
              if Nat.leb e i then c :: replaceAllFrom r rep (S i) 0 t
              else replaceAllFrom r rep (S i) (e - S i) t
          end
      | None =>
          match s with
          | [] => []
          | c :: t => c :: replaceAllFrom r rep (S i) 0 t
          end
      end
  end.

Definition replaceAll (r : regex) (rep s : jsstring) : jsstring :=
  replaceAllFrom r rep 0 0 s.

(** The text of capture [n] of an attempt made at index [i] on [s];
    [undefined], which the patterns of the component never produce in a
    split, reads as the empty string. *)
Definition captureText (i : nat) (s : jsstring) (caps : captures) (n : nat) : jsstring :=
  match caps n with
  | Some (b, e) => firstn (e - b) (skipn (b - i) s)
  | None => []
  end.

(** [s.split(r)] for a pattern with [ngroups] capture groups: [p] is the
    start of the piece being collected, [cur] its code units so far, and
    [skip] the code units still inside the last separator.  A match that
    ends at [p] counts as a failure; after every other match the piece is
    closed and followed by the captures. *)
Fixpoint splitFrom (r : regex) (ngroups : nat) (i p skip : nat)
         (cur s : jsstring) {struct s} : list jsstring :=
  match s with
  | [] => [cur]
  | c :: t =>
      match skip with
      | S n => splitFrom r ngroups (S i) p n cur t
      | 0 =>
          match matchAt r i s with
          | Some (e, caps) =>
              if Nat.eqb e p then splitFrom r ngroups (S i) p 0 (cur ++ [c]) t
              else
                cur :: map (captureText i s caps) (seq 1 ngroups) ++
                (if Nat.leb e i then splitFrom r ngroups (S i) i 0 [c] t
                 else splitFrom r ngroups (S i) e (e - S i) [] t)
          | None => splitFrom r ngroups (S i) p 0 (cur ++ [c]) t
          end
      end
  end.

(** An empty input gives no piece when the pattern matches it and one
    empty piece otherwise. *)
Definition splitRegex (r : regex) (s : jsstring) : list jsstring :=
  match s with
  | [] => match matchAt r 0 [] with Some _ => [] | None => [[]] end
  | _ => splitFrom r (groupCount r) 0 0 0 [] s
  end.

(** *** The patterns of the component *)

Declare Scope regex_scope.
Delimit Scope regex_scope with re.
Bind Scope regex_scope with regex.
Notation "r1 >> r2" := (Cat r1 r2) (at level 61, right associativity) : regex_scope.

(** A literal run of code units. *)
Fixpoint lit (s : jsstring) : regex :=
  match s with
  | [] => Eps
  | c :: t => Cat (Chr c) (lit t)
  end.

(** [\s], [.] (no [s] flag) and [[\s\S]]. *)
Definition cls_s : char -> bool := isWhiteSpace.
Definition cls_dot : char -> bool := fun c => negb (isLineTerminator c).
Definition cls_any : char -> bool := fun c => isWhiteSpace c || negb (isWhiteSpace c).

(** [[-*—]] *)
Definition cls_marker : char -> bool :=
  fun c => char_eqb c HYPHEN || char_eqb c ASTERISK || char_eqb c EM_DASH.

(** ["sentiment_distribution"], quotes included. *)
Definition quotedKey : jsstring := QUOTE :: js "sentiment_distribution" ++ [QUOTE].

(** [/```json\s*({[\s\S]*?"sentiment_distribution"[\s\S]*?})\s*```/] *)
Definition jsonRegex : regex :=
  (lit (js "```json") >> Star true cls_s >>
   Group 1 (Chr LBRACE >> Star false cls_any >> lit quotedKey >>
            Star false cls_any >> Chr RBRACE) >>
   Star true cls_s >> lit (js "```"))%re.

(** [/--------------------------------------------------/g]: fifty hyphens. *)
Definition separatorLine : jsstring :=
  js "--------------------------------------------------".

Definition separatorRegex : regex := lit separatorLine.

(** [/^[-*—]\s+/], with [\s+] as [\s\s*]. *)
Definition bulletRegex : regex :=
  (Bol >> Class cls_marker >> Class cls_s >> Star true cls_s)%re.

(** The split pattern of the bold spans: one group around two asterisks,
    a lazy run of [.], and two asterisks; flag [g]. *)
Definition boldRegex : regex :=
  Group 1 (lit (js "**") >> Star false cls_dot >> lit (js "**"))%re.

(** ** JavaScript values and [JSON.parse] *)

Inductive JSValue : Type :=
| JSUndefined
| JSNull
| JSBool (b : bool)
| JSNumber (x : float)
| JSString (s : jsstring)
| JSArray (elems : list JSValue)
| JSObject (props : list (jsstring * JSValue)).

(** [ToBoolean] *)
Definition truthy (v : JSValue) : bool :=
  match v with
  | JSUndefined | JSNull => false
  | JSBool b => b
  | JSNumber x => negb (PrimFloat.is_zero x || PrimFloat.is_nan x)
  | JSString s => negb (jsstring_eqb s [])
  | JSArray _ | JSObject _ => true
  end.

Inductive Exception : Type :=
| SyntaxError
| TypeError.

(** An own data property: the last definition of a key wins and keeps the
    place of the first. *)
Fixpoint lookupProp (key : jsstring) (props : list (jsstring * JSValue)) : option JSValue :=
  match props with
  | [] => None
  | (k, v) :: rest => if jsstring_eqb k key then Some v else lookupProp key rest
  end.

Fixpoint setProp (key : jsstring) (v : JSValue) (props : list (jsstring * JSValue))
  : list (jsstring * JSValue) :=
  match props with
  | [] => [(key, v)]
  | (k, w) :: rest =>
      if jsstring_eqb k key then (k, v) :: rest else (k, w) :: setProp key v rest
  end.

(** [v.key] for a key that no prototype defines: a [TypeError] on
    [null] and [undefined], the own property of an object, [undefined]
    elsewhere. *)
Definition getProperty (v : JSValue) (key : jsstring) : Exception + JSValue :=
  match v with
  | JSUndefined | JSNull => inl TypeError
  | JSObject props =>
      match lookupProp key props with
      | Some w => inr w
      | None => inr JSUndefined
      end
  | _ => inr JSUndefined
  end.

(** *** Numbers *)

(** The binary64 value nearest to [n / d] (ties to even) for positive [n]
    and [d]: the quotient is taken with more than 64 significant bits, the
    inexact rest is folded into a last sticky bit, and the result is
    rounded once. *)
Definition roundQuotient (n d : positive) : float :=
  let k := Z.max 0 (66 + Z.log2 (Zpos d) - Z.log2 (Zpos n)) in
  let num := Z.shiftl (Zpos n) k in
  let q := Z.div num (Zpos d) in
  let sticky := if Z.eqb (Z.modulo num (Zpos d)) 0 then 0%Z else 1%Z in
  SF2Prim (binary_normalize prec emax (2 * q + sticky) (- (k + 1)) false).

Fixpoint digitsValue (ds : list N) (acc : N) : N :=
  match ds with
  | [] => acc
  | d :: t => digitsValue t (10 * acc + d)%N
  end.

Fixpoint dropZeros (ds : list N) : list N :=
  match ds with
  | 0%N :: t => dropZeros t
  | _ => ds
  end.

(** The value of the decimal numeral [ds]e[e10].  With [mag] the position
    of the leading significant digit, the value lies between [10^(mag-1)]
    and [10^mag]: numerals far outside the binary64 range are decided
    without computing the power of ten. *)
Definition decimalToFloat (neg : bool) (ds : list N) (e10 : Z) : float :=
  let signed (x : float) := if neg then PrimFloat.opp x else x in
  match digitsValue ds 0 with
  | N0 => signed PrimFloat.zero
  | Npos m =>
      let mag := (Z.of_nat (length (dropZeros ds)) + e10)%Z in
      if (400 <? mag)%Z then signed PrimFloat.infinity
      else if (mag <? -400)%Z then signed PrimFloat.zero
      else if (0 <=? e10)%Z
           then signed (roundQuotient (m * Z.to_pos (10 ^ e10))%positive 1)
           else signed (roundQuotient m (Z.to_pos (10 ^ (- e10))))
  end.

(** *** The JSON grammar *)

(** JSON white space: tab, line feed, carriage return, space. *)
Definition isJsonWs (c : char) : bool :=
  (c =? 9)%N || (c =? 10)%N || (c =? 13)%N || (c =? 32)%N.

Fixpoint skipWs (s : jsstring) : jsstring :=
  match s with
  | c :: t => if isJsonWs c then skipWs t else s
  | [] => []
  end.

Definition isDigit (c : char) : bool := (48 <=? c)%N && (c <=? 57)%N.

Definition hexValue (c : char) : option N :=
  if isDigit c then Some (c - 48)%N
  else if (97 <=? c)%N && (c <=? 102)%N then Some (c - 87)%N
  else if (65 <=? c)%N && (c <=? 70)%N then Some (c - 55)%N
  else None.

Definition hex4 (a b c d : char) : option char :=
  match hexValue a, hexValue b, hexValue c, hexValue d with
  | Some x, Some y, Some z, Some w => Some (((x * 16 + y) * 16 + z) * 16 + w)%N
  | _, _, _, _ => None
  end.

(** The single-character escapes. *)
Definition escapeChar (c : char) : option char :=
  if (c =? 34)%N then Some 34%N          (* quote *)
  else if (c =? 92)%N then Some 92%N     (* backslash *)
  else if (c =? 47)%N then Some 47%N     (* slash *)
  else if (c =? 98)%N then Some 8%N      (* b *)
  else if (c =? 102)%N then Some 12%N    (* f *)
  else if (c =? 110)%N then Some 10%N    (* n *)
  else if (c =? 114)%N then Some 13%N    (* r *)
  else if (c =? 116)%N then Some 9%N     (* t *)
  else None.

(** A string after its opening quote: the decoded text and the input
    after the closing quote. *)
Fixpoint parseStringBody (s : jsstring) : option (jsstring * jsstring) :=
  match s with
  | [] => None
  | c :: t =>
      if (c =? 34)%N then Some ([], t)
      else if (c =? 92)%N then
        match t with
        | [] => None
        | e :: t' =>
            if (e =? 117)%N then           (* u and four hex digits *)
              match t' with
              | h1 :: h2 :: h3 :: h4 :: t'' =>
                  match hex4 h1 h2 h3 h4 with
                  | Some u =>
                      match parseStringBody t'' with
                      | Some (str, rest) => Some (u :: str, rest)
                      | None => None
                      end
                  | None => None
                  end
              | _ => None
              end
            else
              match escapeChar e with
              | Some u =>
                  match parseStringBody t' with
                  | Some (str, rest) => Some (u :: str, rest)
                  | None => None
                  end
              | None => None
              end
        end
      else if (c <? 32)%N then None
      else
        match parseStringBody t with
        | Some (str, rest) => Some (c :: str, rest)
        | None => None
        end
  end.

(** The longest run of decimal digits, as digit values. *)
Fixpoint takeDigits (s : jsstring) : list N * jsstring :=
  match s with
  | c :: t =>
      if isDigit c then let (ds, rest) := takeDigits t in ((c - 48)%N :: ds, rest)
      else ([], s)
  | [] => ([], [])
  end.

(** The integer part: a single zero, or a run of digits that starts with
    a non-zero digit. *)
Definition parseInt (s : jsstring) : option (list N * jsstring) :=
  match s with
  | c :: t =>
      if (c =? 48)%N then Some ([0%N], t)
      else if isDigit c then Some (takeDigits s)
      else None
  | [] => None
  end.

(** The optional fraction: a dot and at least one digit. *)
Definition parseFrac (s : jsstring) : option (list N * jsstring) :=
  match s with
  | c :: t =>
      if (c =? 46)%N then
        match takeDigits t with
        | ([], _) => None
        | (ds, rest) => Some (ds, rest)
        end
      else Some ([], s)
  | [] => Some ([], [])
  end.

(** The optional exponent: [e] or [E], an optional sign, at least one
    digit. *)
Definition parseExp (s : jsstring) : option (Z * jsstring) :=
  match s with
  | c :: t =>
      if (c =? 101)%N || (c =? 69)%N then
        let (neg, t') :=
          match t with
          | sg :: u => if (sg =? 45)%N then (true, u)
                       else if (sg =? 43)%N then (false, u)
                       else (false, t)
          | [] => (false, t)
          end in
        match takeDigits t' with
        | ([], _) => None
        | (ds, rest) =>
            let e := Z.of_N (digitsValue ds 0) in
            Some (if neg then (- e)%Z else e, rest)
        end
      else Some (0%Z, s)
  | [] => Some (0%Z, [])
  end.

Definition parseNumber (s : jsstring) : option (float * jsstring) :=
  let (neg, s1) :=
    match s with
    | c :: t => if (c =? 45)%N then (true, t) else (false, s)
    | [] => (false, s)
    end in
  match parseInt s1 with
  | Some (ip, s2) =>
      match parseFrac s2 with
      | Some (fp, s3) =>
          match parseExp s3 with
          | Some (e, s4) =>
              Some (decimalToFloat neg (ip ++ fp) (e - Z.of_nat (length fp)), s4)
          | None => None
          end
      | None => None
      end
  | None => None
  end.

(** The outcome of a parser that runs on fuel. *)
Inductive parsed (A : Type) : Type :=
| Ok (a : A) (rest : jsstring)
| Invalid
| OutOfFuel.

Arguments Invalid {A}.
Arguments OutOfFuel {A}.

Definition expectLiteral (word : jsstring) (v : JSValue) (s : jsstring) : parsed JSValue :=
  if startsWith word s then Ok v (skipn (length word) s) else Invalid.

(** A value, the elements of an array after its bracket or a comma, and
    the members of an object after its brace or a comma.  Every call
    passes less fuel and a shorter input. *)
Fixpoint parseValue (fuel : nat) (s : jsstring) {struct fuel} : parsed JSValue :=
  match fuel with
  | 0 => OutOfFuel
  | S f =>
      match skipWs s with
      | [] => Invalid
      | c :: t =>
          if (c =? 123)%N then            (* left brace *)
            match skipWs t with
            | d :: t' => if (d =? 125)%N then Ok (JSObject []) t'
                         else parseMembers f t []
            | [] => Invalid
            end
          else if (c =? 91)%N then        (* left bracket *)
            match skipWs t with
            | d :: t' => if (d =? 93)%N then Ok (JSArray []) t'
                         else parseElements f t []
            | [] => Invalid
            end
          else if (c =? 34)%N then
            match parseStringBody t with
            | Some (str, rest) => Ok (JSString str) rest
            | None => Invalid
            end
          else if (c =? 116)%N then expectLiteral (js "true") (JSBool true) (c :: t)
          else if (c =? 102)%N then expectLiteral (js "false") (JSBool false) (c :: t)
          else if (c =? 110)%N then expectLiteral (js "null") JSNull (c :: t)
          else
            match parseNumber (c :: t) with
            | Some (x, rest) => Ok (JSNumber x) rest
            | None => Invalid
            end
      end
  end

with parseElements (fuel : nat) (s : jsstring) (acc : list JSValue)
       {struct fuel} : parsed JSValue :=
  match fuel with
  | 0 => OutOfFuel
  | S f =>
      match parseValue f s with
      | Ok v rest =>
          match skipWs rest with
          | c :: t =>
              if (c =? 44)%N then parseElements f t (acc ++ [v])
              else if (c =? 93)%N then Ok (JSArray (acc ++ [v])) t
              else Invalid
          | [] => Invalid
          end
      | Invalid => Invalid
      | OutOfFuel => OutOfFuel
      end
  end

with parseMembers (fuel : nat) (s : jsstring) (acc : list (jsstring * JSValue))
       {struct fuel} : parsed JSValue :=
  match fuel with
  | 0 => OutOfFuel
  | S f =>
      match skipWs s with
      | q :: t =>
          if (q =? 34)%N then
            match parseStringBody t with
            | Some (key, rest) =>
                match skipWs rest with
                | colon :: t' =>
                    if (colon =? 58)%N then
                      match parseValue f t' with
                      | Ok v rest' =>
                          match skipWs rest' with
                          | c :: t'' =>
                              if (c =? 44)%N then parseMembers f t'' (setProp key v acc)
                              else if (c =? 125)%N then Ok (JSObject (setProp key v acc)) t''
                              else Invalid
                          | [] => Invalid
                          end
                      | Invalid => Invalid
                      | OutOfFuel => OutOfFuel
                      end
                    else Invalid
                | [] => Invalid
                end
            | None => Invalid
            end
          else Invalid
      | [] => Invalid
      end
  end.

(** [JSON.parse(text)]: one value, white space around it, nothing else;
    anything else throws a [SyntaxError].  The fuel is twice the length
    of the text plus one, which no input exhausts. *)
Definition JSON_parse (text : jsstring) : Exception + JSValue :=
  match parseValue (S (2 * length text)) text with
  | Ok v rest =>
      match skipWs rest with
      | [] => inr v
      | _ :: _ => inl SyntaxError
      end
  | Invalid | OutOfFuel => inl SyntaxError
  end.

(** ** The [useMemo] block: [cleanText] and [sentimentData] *)

(** What [console.error] received. *)
Record Diagnostic : Type := mkDiagnostic {
  d_message : jsstring;
  d_error : Exception
}.

Record Extraction : Type := mkExtraction {
  cleanText : jsstring;
  sentimentData : JSValue;
  consoleErrors : list Diagnostic
}.

Definition sentimentKey : jsstring := js "sentiment_distribution".

(** The body of the [try]: both assignments, or the exception thrown
    before either was made. *)
Definition tryExtract (rawText : jsstring) (m : MatchResult) (capture : jsstring)
  : Exception + (jsstring * JSValue) :=
  match JSON_parse capture with
  | inl e => inl e
  | inr parsed =>
      match getProperty parsed sentimentKey with
      | inl e => inl e
      | inr field =>
          let sentimentData := if truthy field then field else JSNull in
          let cleanText := trim (replaceString (m_whole m) [] rawText) in
          let cleanText := trim (replaceAll separatorRegex [] cleanText) in
          inr (cleanText, sentimentData)
      end
  end.

(** The callback of [useMemo], on [result.rawText]. *)
Definition extractSentiment (rawText : jsstring) : Extraction :=
  let unchanged := mkExtraction rawText JSNull [] in
  match String_match rawText jsonRegex with
  | Some m =>
      match m_group m 1 with
      | Some capture =>
          if truthy (JSString capture) then
            match tryExtract rawText m capture with
            | inr (cleanText, sentimentData) => mkExtraction cleanText sentimentData []
            | inl e =>
                mkExtraction rawText JSNull
                  [mkDiagnostic (js "Failed to parse hidden sentiment JSON") e]
            end
          else unchanged
      | None => unchanged
      end
  | None => unchanged
  end.

(** ** [renderFormattedText] *)

(** A child of the paragraph element: a string or a [strong] element. *)
Inductive Span : Type :=
| PlainText (text : jsstring)
| Emphasized (text : jsstring).

(** The element a line is rendered to: [h1], [h2], [h3], the bullet row,
    the empty [div] and [p]; class names and keys are left out. *)
Inductive DisplayBlock : Type :=
| Heading (level : nat) (text : jsstring)
| BulletItem (spans : list Span)
| Spacer
| Paragraph (spans : list Span).

Definition boldMark : jsstring := js "**".

(** The callback of [parts.map]. *)
Definition renderPart (part : jsstring) : Span :=
  if startsWith boldMark part && endsWith boldMark part
  then Emphasized (slice part 2 (-2))
  else PlainText part.

Definition renderSpans (content : jsstring) : list Span :=
  map renderPart (splitRegex boldRegex content).

(** The callback of [lines.map]. *)
Definition renderLine (line : jsstring) : DisplayBlock :=
  let trimLine := trim line in
  if startsWith (js "# ") trimLine then
    Heading 1 (replaceString (js "# ") [] trimLine)
  else if startsWith (js "## ") trimLine then
    Heading 2 (replaceString (js "## ") [] trimLine)
  else if startsWith (js "### ") trimLine then
    Heading 3 (replaceString (js "### ") [] trimLine)
  else if startsWith (js "- ") trimLine || startsWith (js "* ") trimLine
          || startsWith [EM_DASH; SPACE] trimLine then
    let content := replaceRegex bulletRegex [] trimLine in
    BulletItem (renderSpans content)
  else if jsstring_eqb trimLine [] then Spacer
  else Paragraph (renderSpans trimLine).

Definition renderFormattedText (text : jsstring) : list DisplayBlock :=
  map renderLine (splitOn LF text).

(** ** [getPieStyle] *)

(** [Record<string, number>] *)
Definition NumberRecord := list (jsstring * float).

Fixpoint recordGet (data : NumberRecord) (key : jsstring) : option float :=
  match data with
  | [] => None
  | (k, x) :: rest => if jsstring_eqb k key then Some x else recordGet rest key
  end.

(** [data[star] || 0]: an absent key, zero and NaN all give [0]. *)
Definition valueOrZero (data : NumberRecord) (star : jsstring) : float :=
  match recordGet data star with
  | Some x => if PrimFloat.is_zero x || PrimFloat.is_nan x then PrimFloat.zero else x
  | None => PrimFloat.zero
  end.

Definition colors (star : jsstring) : jsstring :=
  if jsstring_eqb star (js "5") then js "#10b981"
  else if jsstring_eqb star (js "4") then js "#34d399"
  else if jsstring_eqb star (js "3") then js "#facc15"
  else if jsstring_eqb star (js "2") then js "#fb923c"
  else if jsstring_eqb star (js "1") then js "#f87171"
  else [].

(** One element of [parts]: the three values its template string
    interpolates. *)
Record Segment : Type := mkSegment {
  seg_color : jsstring;
  seg_start : float;
  seg_end : float
}.

Definition stars : list jsstring := [js "5"; js "4"; js "3"; js "2"; js "1"].

Definition hundred : float := 100%float.
Definition fullTurn : float := 360%float.

(** [(val / 100) * 360] *)
Definition sweep (val : float) : float :=
  PrimFloat.mul (PrimFloat.div val hundred) fullTurn.

(** The body of [forEach], on the pair of [currentDeg] and [parts]. *)
Definition pieStep (data : NumberRecord) (st : float * list Segment) (star : jsstring)
  : float * list Segment :=
  let (currentDeg, parts) := st in
  let val := valueOrZero data star in
  let deg := sweep val in
  (PrimFloat.add currentDeg deg,
   parts ++ [mkSegment (colors star) currentDeg (PrimFloat.add currentDeg deg)]).

Definition pieLoop (data : NumberRecord) : float * list Segment :=
  fold_left (pieStep data) stars (PrimFloat.zero, []).

Definition pieSegments (data : NumberRecord) : list Segment := snd (pieLoop data).

Section PieStyle.

(** [Number.prototype.toString], as the template strings call it. *)
Variable Number_toString : float -> jsstring.

Fixpoint join (sep : jsstring) (l : list jsstring) : jsstring :=
  match l with
  | [] => []
  | [x] => x
  | x :: rest => x ++ sep ++ join sep rest
  end.

Definition renderSegment (sg : Segment) : jsstring :=
  seg_color sg ++ js " " ++ Number_toString (seg_start sg) ++ js "deg " ++
  Number_toString (seg_end sg) ++ js "deg".

(** The [background] of the returned style. *)
Definition getPieStyle (data : NumberRecord) : jsstring :=
  js "conic-gradient(" ++ join (js ", ") (map renderSegment (pieSegments data)) ++ js ")".

End PieStyle.

(** ** The download names *)

Definition UNDERSCORE : char := 95%N.

(** [/\s+/g], with [\s+] as [\s\s*]. *)
Definition whitespaceRunRegex : regex := (Class cls_s >> Star true cls_s)%re.

(** [result.universityName.replace(/\s+/g, '_')] *)
Definition underscored (universityName : jsstring) : jsstring :=
  replaceAll whitespaceRunRegex [UNDERSCORE] universityName.

(** [link.download] in [downloadTxt] and in [downloadJson]. *)
Definition txtFileName (universityName : jsstring) : jsstring :=
  underscored universityName ++ js "_Analysis.txt".

Definition jsonFileName (universityName : jsstring) : jsstring :=
  underscored universityName ++ js "_Data.json".

(** ** [encodeURIComponent] and the two links *)

(** The code units [encodeURIComponent] leaves as they are: letters,
    digits and the marks [- _ . ! ~ * ' ( )]. *)
Definition isUnreserved (c : char) : bool :=
  ((65 <=? c)%N && (c <=? 90)%N) || ((97 <=? c)%N && (c <=? 122)%N)
  || ((48 <=? c)%N && (c <=? 57)%N)
  || (c =? 45)%N || (c =? 95)%N || (c =? 46)%N || (c =? 33)%N || (c =? 126)%N
  || (c =? 42)%N || (c =? 39)%N || (c =? 40)%N || (c =? 41)%N.

Definition isHighSurrogate (c : char) : bool := (55296 <=? c)%N && (c <=? 56319)%N.
Definition isLowSurrogate (c : char) : bool := (56320 <=? c)%N && (c <=? 57343)%N.

(** The code point of a surrogate pair. *)
Definition pairCodePoint (hi lo : char) : N :=
  ((hi - 55296) * 1024 + (lo - 56320) + 65536)%N.

(** The UTF-8 octets of a code point. *)
Definition utf8 (cp : N) : list N :=
  if (cp <? 128)%N then [cp]
  else if (cp <? 2048)%N then [192 + cp / 64; 128 + cp mod 64]%N
  else if (cp <? 65536)%N then
    [224 + cp / 4096; 128 + (cp / 64) mod 64; 128 + cp mod 64]%N
  else [240 + cp / 262144; 128 + (cp / 4096) mod 64;
        128 + (cp / 64) mod 64; 128 + cp mod 64]%N.

(** An upper-case hexadecimal digit. *)
Definition hexDigit (n : N) : char :=
  if (n <? 10)%N then (48 + n)%N else (55 + n)%N.

(** [%XX] *)
Definition percentEncode (octet : N) : jsstring :=
  [37%N; hexDigit (octet / 16); hexDigit (octet mod 16)].

Definition percentEncodeAll (octets : list N) : jsstring :=
  flat_map percentEncode octets.

(** [encodeURIComponent(s)]; [None] is the [URIError] thrown on a
    surrogate without its partner. *)
Fixpoint encodeURIComponent (s : jsstring) : option jsstring :=
  match s with
  | [] => Some []
  | c :: t =>
      if isUnreserved c then option_map (cons c) (encodeURIComponent t)
      else if isHighSurrogate c then
        match t with
        | d :: t' =>
            if isLowSurrogate d then
              option_map (app (percentEncodeAll (utf8 (pairCodePoint c d))))
                         (encodeURIComponent t')
            else None
        | [] => None
        end
      else if isLowSurrogate c then None
      else option_map (app (percentEncodeAll (utf8 c))) (encodeURIComponent t)
  end.

Definition imagesBase : jsstring := js "https://www.google.com/search?tbm=isch&q=".
Definition mapsBase : jsstring := js "https://www.google.com/maps/search/?api=1&query=".

(** [googleImagesLink] and [googleMapsLink], for [result.universityName]. *)
Definition googleImagesLink (universityName : jsstring) : option jsstring :=
  option_map (app imagesBase)
             (encodeURIComponent (universityName ++ js " campus photos")).

Definition googleMapsLink (universityName : jsstring) : option jsstring :=
  option_map (app mapsBase) (encodeURIComponent universityName).

(** ** The grounding sources *)

(** [s.includes(p)] *)
Definition includes (p s : jsstring) : bool :=
  match indexOf p s with Some _ => true | None => false end.

(** Modelled from the spec: a citation of a chunk is a record of a [uri]
    and a [title].  The component calls [uri.includes] without a guard
    and reads [title] under [||], so the address is a string and the
    title may be absent; the type itself is declared in [types.ts]. *)
Record Citation : Type := mkCitation {
  c_uri : jsstring;
  c_title : option jsstring
}.

(** Modelled from the spec: a chunk is optionally a web citation and
    optionally a map citation; the component tests [chunk.web] and
    [chunk.maps] before it reads them. *)
Record GroundingChunk : Type := mkChunk {
  web : option Citation;
  maps : option Citation
}.

(** [title || fallback]: an absent or empty title gives the fallback. *)
Definition titleOr (title : option jsstring) (fallback : jsstring) : jsstring :=
  match title with
  | Some (c :: t) => c :: t
  | _ => fallback
  end.

(** The decimal digits of an index, as a template string writes them. *)
Definition indexText (n : nat) : jsstring :=
  js (DecimalString.NilEmpty.string_of_uint (Nat.to_uint n)).

(** A rendered [li]: its key, the [href] and the text of its link, and
    whether the link is marked as a visual source. *)
Record LinkItem : Type := mkLinkItem {
  li_key : jsstring;
  li_href : jsstring;
  li_label : jsstring;
  li_visual : bool
}.

Fixpoint mapi_from (A B : Type) (f : A -> nat -> B) (i : nat) (l : list A) : list B :=
  match l with
  | [] => []
  | x :: t => f x i :: mapi_from f (S i) t
  end.

(** [l.map((x, index) => f(x, index))] *)
Definition mapi (A B : Type) (f : A -> nat -> B) (l : list A) : list B :=
  mapi_from f 0 l.

Section Sources.

(** [String.prototype.toLowerCase] *)
Variable toLowerCase : jsstring -> jsstring.

(** [isVisualSource(uri, title)] *)
Definition isVisualSource (uri title : jsstring) : bool :=
  let lower := toLowerCase (uri ++ title) in
  includes (js "gallery") lower || includes (js "photo") lower
  || includes (js "tour") lower || includes (js "instagram") lower
  || includes (js "pinterest") lower || includes (js "flickr") lower.

(** The children of the list of web sources: an item for a chunk with a
    web citation, [null] for any other. *)
Definition webItem (chunk : GroundingChunk) (index : nat) : option LinkItem :=
  match web chunk with
  | Some w =>
      let isVisual := isVisualSource (c_uri w) (titleOr (c_title w) []) in
      Some (mkLinkItem (js "web-" ++ indexText index) (c_uri w)
                       (titleOr (c_title w) (c_uri w)) isVisual)
  | None => None
  end.

Definition webItems (chunks : list GroundingChunk) : list (option LinkItem) :=
  mapi webItem chunks.

(** The children of the list of map sources: the chunks with a map
    citation, then the web citations whose [uri] names 2GIS or Google
    Maps. *)
Definition mapItem (chunk : GroundingChunk) (index : nat) : option LinkItem :=
  match maps chunk with
  | Some m =>
      Some (mkLinkItem (js "map-" ++ indexText index) (c_uri m)
                       (titleOr (c_title m) (js "Google Maps Location")) false)
  | None => None
  end.

Definition isMapLink (chunk : GroundingChunk) : bool :=
  match web chunk with
  | Some w => includes (js "2gis") (c_uri w) || includes (js "maps.google") (c_uri w)
  | None => false
  end.

Definition fallbackItem (chunk : GroundingChunk) (index : nat) : option LinkItem :=
  match web chunk with
  | Some w =>
      Some (mkLinkItem (js "map-fallback-" ++ indexText index) (c_uri w)
                       (titleOr (c_title w) (js "Location Link")) false)
  | None => None
  end.

Definition mapItems (chunks : list GroundingChunk) : list (option LinkItem) :=
  mapi mapItem chunks ++ mapi fallbackItem (filter isMapLink chunks).

(** The two lists, rendered when [groundingChunks] is there and not
    empty. *)
Definition sourcesSection (groundingChunks : option (list GroundingChunk))
  : option (list (option LinkItem) * list (option LinkItem)) :=
  match groundingChunks with
  | Some (c :: cs) => Some (webItems (c :: cs), mapItems (c :: cs))
  | _ => None
  end.

End Sources.

(** ** What the component shows of the extraction *)

(** [sentimentData && ...]: the chart section is rendered. *)
Definition chartShown (e : Extraction) : bool := truthy (sentimentData e).

(** The blocks of the report: [renderFormattedText(cleanText)]. *)
Definition reportBlocks (rawText : jsstring) : list DisplayBlock :=
  renderFormattedText (cleanText (extractSentiment rawText)).

(** * Vocabulary of the properties *)

(** The text a span shows, and the text of a run of spans. *)
Definition spanText (sp : Span) : jsstring :=
  match sp with
  | PlainText t => t
  | Emphasized t => t
  end.

Definition textContent (spans : list Span) : jsstring :=
  concat (map spanText spans).

(** The spans that show something. *)
Definition visibleSpans (spans : list Span) : list Span :=
  filter (fun sp => negb (jsstring_eqb (spanText sp) [])) spans.

(** Width of a segment: zero when it ends where it starts. *)
Definition zeroWidth (sg : Segment) : bool :=
  PrimFloat.eqb (seg_start sg) (seg_end sg).


(** The words a pattern matches when the attempt starts at index [i]. *)
Fixpoint lang (r : regex) (i : nat) (w : jsstring) : Prop :=
  match r with
  | Chr c => w = [c]
  | Class p => exists x, w = [x] /\ p x = true
  | Bol => w = [] /\ i = 0
  | Eps => w = []
  | Cat r1 r2 =>
      exists w1 w2, w = w1 ++ w2 /\ lang r1 i w1 /\ lang r2 (i + length w1) w2
  | Star _ p => forallb p w = true
  | Group _ r' => lang r' i w
  end.

(** The numbers of the groups of a pattern. *)
Fixpoint groupNumbers (r : regex) : list nat :=
  match r with
  | Cat r1 r2 => groupNumbers r1 ++ groupNumbers r2
  | Group n r' => n :: groupNumbers r'
  | _ => []
  end.

Fixpoint anchorFree (r : regex) : bool :=
  match r with
  | Bol => false
  | Cat r1 r2 => anchorFree r1 && anchorFree r2
  | Group _ r' => anchorFree r'
  | _ => true
  end.

(** The raw text without the code units of the match. *)
Definition removeBlock (raw : jsstring) (m : MatchResult) : jsstring :=
  firstn (m_index m) raw ++ skipn (m_index m + length (m_whole m)) raw.

(** The text the spec describes: the block removed, the separator lines
    removed, the result trimmed. *)
Definition cleanedText (raw : jsstring) (m : MatchResult) : jsstring :=
  trim (replaceAll separatorRegex [] (removeBlock raw m)).

(** The distribution of a parsed block: the field when it is truthy. *)
Definition distributionOf (parsed : JSValue) : JSValue :=
  match getProperty parsed sentimentKey with
  | inr field => if truthy field then field else JSNull
  | inl _ => JSNull
  end.

Definition notHyphen (c : char) : bool := negb (char_eqb c HYPHEN).

(** The number of leading hyphens. *)
Fixpoint leadingHyphens (s : jsstring) : nat :=
  match s with
  | c :: t => if char_eqb c HYPHEN then S (leadingHyphens t) else 0
  | [] => 0
  end.

(** The bold pattern can match at the start of [s]. *)
Definition boldAt (s : jsstring) : Prop :=
  exists x s', s = boldMark ++ x ++ boldMark ++ s' /\ forallb cls_dot x = true.

(** The split of a content on the bold pattern, as the spec words it:
    the content is cut at every match, the matches being taken from left
    to right, each at the first index at which the pattern can match and
    ending at the first closing pair of asterisks; the pieces of text and
    the matches alternate. *)
Inductive boldSplit : jsstring -> list jsstring -> Prop :=
| split_end (s : jsstring) :
    (forall n, n < length s -> ~ boldAt (skipn n s)) ->
    boldSplit s [s]
| split_sep (piece x rest : jsstring) (parts : list jsstring) :
    (forall n, n < length piece ->
               ~ boldAt (skipn n (piece ++ boldMark ++ x ++ boldMark ++ rest))) ->
    forallb cls_dot x = true ->
    indexOf boldMark (x ++ boldMark ++ rest) = Some (length x) ->
    boldSplit rest parts ->
    boldSplit (piece ++ boldMark ++ x ++ boldMark ++ rest)
              (piece :: (boldMark ++ x ++ boldMark) :: parts).

(** The text [t] is the text [x] without its separator lines: the text
    is read from left to right, a separator line that starts at the
    current code unit is left out, any other code unit is kept. *)
Inductive withoutSeparators : jsstring -> jsstring -> Prop :=
| strip_end : withoutSeparators [] []
| strip_line (x t : jsstring) :
    withoutSeparators x t -> withoutSeparators (separatorLine ++ x) t
| strip_keep (c : char) (x t : jsstring) :
    startsWith separatorLine (c :: x) = false ->
    withoutSeparators x t -> withoutSeparators (c :: x) (c :: t).

(** The text [t] is the text [x] without the white space at its two
    ends. *)
Definition trimmedFrom (x t : jsstring) : Prop :=
  (exists a b, x = a ++ t ++ b
               /\ forallb isWhiteSpace a = true /\ forallb isWhiteSpace b = true)
  /\ (forall c r, t = c :: r -> isWhiteSpace c = false)
  /\ (forall r c, t = r ++ [c] -> isWhiteSpace c = false).

(** The code units every fenced block holds: the backtick of the fences,
    the braces of the object and the quote of the key. *)
Definition blockMarks : list char := [BACKTICK; LBRACE; QUOTE; RBRACE].

(** The code unit [c] occurs in [s]. *)
Definition occurs (c : char) (s : jsstring) : bool := existsb (char_eqb c) s.


(** ** The names, the links and the sources *)

(** Runs of white space collapsed to one underscore each: [inRun] tells
    that the code unit before was white space. *)
Fixpoint collapse (inRun : bool) (s : jsstring) : jsstring :=
  match s with
  | [] => []
  | c :: t =>
      if isWhiteSpace c then
        if inRun then collapse true t else UNDERSCORE :: collapse true t
      else c :: collapse false t
  end.

(** Code units are below [2^16]. *)
Definition codeUnits (s : jsstring) : bool := forallb (fun c => (c <? 65536)%N) s.

(** Every surrogate is half of a pair. *)
Fixpoint wellFormed (s : jsstring) : bool :=
  match s with
  | [] => true
  | c :: t =>
      if isHighSurrogate c then
        match t with
        | d :: t' => isLowSurrogate d && wellFormed t'
        | [] => false
        end
      else negb (isLowSurrogate c) && wellFormed t
  end.

(** What an encoded component is made of: unreserved code units and the
    percent sign. *)
Definition uriSafe (c : char) : bool := isUnreserved c || (c =? 37)%N.

(** The inverse of the encoding: the octets behind the escapes, and the
    code units behind the octets. *)
Definition unhex (c : char) : option N :=
  if (48 <=? c)%N && (c <=? 57)%N then Some (c - 48)%N
  else if (65 <=? c)%N && (c <=? 70)%N then Some (c - 55)%N
  else None.

Fixpoint percentDecode (s : jsstring) : option (list N) :=
  match s with
  | [] => Some []
  | c :: t =>
      if (c =? 37)%N then
        match t with
        | h1 :: h2 :: t' =>
            match unhex h1, unhex h2 with
            | Some a, Some b => option_map (cons (a * 16 + b)%N) (percentDecode t')
            | _, _ => None
            end
        | _ => None
        end
      else option_map (cons c) (percentDecode t)
  end.

Fixpoint utf8Decode (octets : list N) : option jsstring :=
  match octets with
  | [] => Some []
  | b :: t =>
      if (b <? 128)%N then option_map (cons b) (utf8Decode t)
      else if (b <? 224)%N then
        match t with
        | b2 :: t' =>
            option_map (cons ((b - 192) * 64 + (b2 - 128))%N) (utf8Decode t')
        | _ => None
        end
      else if (b <? 240)%N then
        match t with
        | b2 :: b3 :: t' =>
            option_map (cons ((b - 224) * 4096 + (b2 - 128) * 64 + (b3 - 128))%N)
                       (utf8Decode t')
        | _ => None
        end
      else
        match t with
        | b2 :: b3 :: b4 :: t' =>
            let cp := ((b - 240) * 262144 + (b2 - 128) * 4096
                       + (b3 - 128) * 64 + (b4 - 128))%N in
            option_map (fun r => (55296 + (cp - 65536) / 1024)%N
                                 :: (56320 + (cp - 65536) mod 1024)%N :: r)
                       (utf8Decode t')
        | _ => None
        end
  end.

Definition decodeComponent (s : jsstring) : option jsstring :=
  match percentDecode s with
  | Some octets => utf8Decode octets
  | None => None
  end.

(** The octets of a string: the code units [encodeURIComponent] keeps
    stand for themselves. *)
Fixpoint octetsOf (s : jsstring) : option (list N) :=
  match s with
  | [] => Some []
  | c :: t =>
      if isUnreserved c then option_map (cons c) (octetsOf t)
      else if isHighSurrogate c then
        match t with
        | d :: t' =>
            if isLowSurrogate d then
              option_map (app (utf8 (pairCodePoint c d))) (octetsOf t')
            else None
        | [] => None
        end
      else if isLowSurrogate c then None
      else option_map (app (utf8 c)) (octetsOf t)
  end.

(** The text appended to the name in the images link, encoded. *)
Definition campusPhotosQuery : jsstring := js "%20campus%20photos".

(** No code unit of the string is white space. *)
Definition noWhiteSpace (s : jsstring) : bool :=
  forallb (fun c => negb (isWhiteSpace c)) s.

(** The items of a list of children: [null] renders nothing. *)
Definition shown (children : list (option LinkItem)) : list LinkItem :=
  flat_map (fun child => match child with Some item => [item] | None => [] end)
           children.

(** The web citations and the map citations of the chunks, in order. *)
Definition webCitations (chunks : list GroundingChunk) : list Citation :=
  flat_map (fun chunk => match web chunk with Some w => [w] | None => [] end)
           chunks.

Definition mapCitations (chunks : list GroundingChunk) : list Citation :=
  flat_map (fun chunk => match maps chunk with Some m => [m] | None => [] end)
           chunks.

(** The address names 2GIS or Google Maps. *)
Definition namesMap (w : Citation) : bool :=
  includes (js "2gis") (c_uri w) || includes (js "maps.google") (c_uri w).

(** The keys of the items of a list of children. *)
Definition keysOf (children : list (option LinkItem)) : list jsstring :=
  map li_key (shown children).

(** The number of line feeds of a text. *)
Definition lineFeeds (s : jsstring) : nat :=
  length (filter (fun c => char_eqb c LF) s).

(** ** Example reports *)

Definition quoted (s : string) : jsstring := QUOTE :: js s ++ [QUOTE].

(** A block between the opening and the closing fence. *)
Definition fenced (body : jsstring) : jsstring :=
  js "```json" ++ [LF] ++ body ++ [LF] ++ js "```".

Definition sentimentBlock (value : jsstring) : jsstring :=
  js "{" ++ quotedKey ++ js ": " ++ value ++ js "}".

(** The distribution of the spec's example, as text and as a value. *)
Definition exampleDistributionText : jsstring :=
  js "{" ++ quoted "5" ++ js ": 80, " ++ quoted "4" ++ js ": 10, " ++
  quoted "3" ++ js ": 5, " ++ quoted "2" ++ js ": 3, " ++ quoted "1" ++ js ": 2}".

Definition exampleDistribution : JSValue :=
  JSObject [ (js "5", JSNumber 80); (js "4", JSNumber 10); (js "3", JSNumber 5);
             (js "2", JSNumber 3); (js "1", JSNumber 2) ].

Definition exampleBlock : jsstring := sentimentBlock exampleDistributionText.

Definition exampleReport : jsstring :=
  js "# Report" ++ [LF] ++ js "Fine." ++ [LF] ++ separatorLine ++ [LF] ++
  fenced exampleBlock.

(** A block with a trailing comma, a report whose field is the given JSON
    text, and a report with two blocks. *)
Definition trailingCommaBlock : jsstring :=
  sentimentBlock (js "{" ++ quoted "5" ++ js ": 80,}").

Definition falsyReport (value : string) : jsstring :=
  js " Text " ++ fenced (sentimentBlock (js value)).

Definition twoBlockReport : jsstring :=
  fenced (sentimentBlock (js "1")) ++ js " and " ++ fenced (sentimentBlock (js "2")).

(** A text with a line of each kind. *)
Definition sixKindsText : jsstring :=
  js "# Title" ++ [LF] ++ js "  ## Part" ++ [LF] ++ js "### Point" ++ [LF] ++
  js "- one" ++ [LF] ++ js "*   two" ++ [LF] ++ [EM_DASH] ++ js " three " ++ [LF] ++
  js "   " ++ [LF] ++ js "plain # text".

(** The match of [jsonRegex] in a text that has one. *)
Definition matchOf (raw : jsstring) : MatchResult :=
  match String_match raw jsonRegex with
  | Some m => m
  | None => mkMatch 0 [] []
  end.



(** The chunks of the witnesses: a map citation, a web citation of 2GIS
    without title and a web citation of a gallery. *)
Definition exampleChunks : list GroundingChunk :=
  [ mkChunk None (Some (mkCitation (js "https://maps.app/x") (Some (js "Campus"))));
    mkChunk (Some (mkCitation (js "https://2gis.ru/tomsk") None)) None;
    mkChunk (Some (mkCitation (js "https://tsu.ru/gallery") (Some [])) ) None ].

(** * Properties *)

(** Closed facts are settled by evaluation. *)
Ltac by_computation := vm_compute; reflexivity.

(** ** Strings *)

Lemma char_eqb_eq (a b : char) : char_eqb a b = true <-> a = b.
Proof. apply N.eqb_eq. Qed.

Lemma char_eqb_refl (a : char) : char_eqb a a = true.
Proof. apply N.eqb_refl. Qed.

Lemma jsstring_eqb_eq (a b : jsstring) : jsstring_eqb a b = true <-> a = b.
Proof.
  revert b; induction a as [|x a IH]; intros [|y b]; cbn; split; try easy.
  - rewrite andb_true_iff, char_eqb_eq, IH. now intros [-> ->].
  - intros [= -> ->]. rewrite char_eqb_refl. now apply IH.
Qed.

Lemma jsstring_eqb_nil (a : jsstring) : jsstring_eqb a [] = true <-> a = [].
Proof. apply jsstring_eqb_eq. Qed.

Lemma startsWith_iff (p s : jsstring) :
  startsWith p s = true <-> exists t, s = p ++ t.
Proof.
  revert s; induction p as [|x p IH]; intros s; cbn.
  - split; [now exists s | easy].
  - destruct s as [|y s]; [split; [easy | now intros [t Ht]]|].
    rewrite andb_true_iff, char_eqb_eq, IH. split.
    + intros [-> [t ->]]. now exists t.
    + intros [t [= -> ->]]. split; [easy | now exists t].
Qed.

Lemma startsWith_app (p t : jsstring) : startsWith p (p ++ t) = true.
Proof. apply startsWith_iff. now exists t. Qed.

Lemma startsWith_skipn (p s : jsstring) :
  startsWith p s = true -> s = p ++ skipn (length p) s.
Proof.
  intros H. apply startsWith_iff in H as [t ->].
  now rewrite skipn_app, skipn_all, Nat.sub_diag.
Qed.

(** [indexOf] returns the first index at which the pattern starts. *)
Lemma indexOf_Some (p s : jsstring) (k : nat) :
  indexOf p s = Some k <->
  k <= length s /\ startsWith p (skipn k s) = true
  /\ forall n, n < k -> startsWith p (skipn n s) = false.
Proof.
  revert k; induction s as [|c s IH]; intros k.
  - cbn [indexOf]. destruct (startsWith p []) eqn:E.
    + split.
      * intros [= <-]. cbn. repeat split; solve [easy | lia].
      * intros (Hk & _ & _). cbn in Hk. f_equal. lia.
    + split; [easy|]. intros (Hk & H & _). cbn in Hk.
      assert (k = 0) as -> by lia. cbn in H. congruence.
  - cbn [indexOf]. destruct (startsWith p (c :: s)) eqn:E.
    + split.
      * intros [= <-]. cbn [skipn]. repeat split; solve [easy | cbn; lia].
      * intros (_ & _ & Hmin). destruct k as [|k]; [easy|].
        specialize (Hmin 0 ltac:(lia)). cbn in Hmin. congruence.
    + destruct (indexOf p s) as [j|]; cbn [option_map].
      * split.
        -- intros [= <-]. destruct (proj1 (IH j) eq_refl) as (Hj & Hs & Hmin).
           cbn [skipn length]. repeat split; [lia | easy |].
           intros [|n] Hn; [easy|]. cbn. apply Hmin. lia.
        -- intros (Hk & Hs & Hmin). destruct k as [|k]; [cbn in Hs; congruence|].
           f_equal. assert (Some j = Some k) as [= ->]; [|easy].
           apply IH. cbn in Hk. repeat split; [lia | easy |].
           intros n Hn. apply (Hmin (S n)). lia.
      * split; [easy|]. intros (Hk & Hs & Hmin).
        destruct k as [|k]; [cbn in Hs; congruence|].
        assert (@None nat = Some k); [|congruence].
        apply IH. cbn in Hk. repeat split; [lia | easy |].
        intros n Hn. apply (Hmin (S n)). lia.
Qed.

(** Removing a block that first occurs after [pre]. *)
Lemma replaceString_first (w pre post : jsstring) :
  (forall n, n < length pre -> startsWith w (skipn n (pre ++ w ++ post)) = false) ->
  replaceString w [] (pre ++ w ++ post) = pre ++ post.
Proof.
  intros Hmin. unfold replaceString.
  assert (indexOf w (pre ++ w ++ post) = Some (length pre)) as ->.
  { apply indexOf_Some. repeat split.
    - rewrite length_app. lia.
    - rewrite skipn_app, skipn_all, Nat.sub_diag. cbn. apply startsWith_app.
    - easy. }
  rewrite firstn_app, firstn_all, Nat.sub_diag. cbn [firstn].
  rewrite app_nil_r. cbn [app]. f_equal.
  rewrite skipn_app, skipn_all2 by lia. cbn [app].
  replace (length pre + length w - length pre) with (length w) by lia.
  now rewrite skipn_app, skipn_all, Nat.sub_diag.
Qed.

(** ** The matcher *)

Section Matcher.

Implicit Types (r : regex) (i : nat) (s w : jsstring) (caps : captures) (k : cont).

Lemma star_sound greedy p s : forall i caps k res,
  star greedy p i s caps k = Some res ->
  exists w s', s = w ++ s' /\ forallb p w = true
               /\ k (i + length w) s' caps = Some res.
Proof.
  induction s as [|c t IH]; intros i caps k res H.
  - exists [], []. cbn. rewrite Nat.add_0_r.
    destruct greedy; cbn in H; [easy|].
    destruct (k i [] caps); [easy | discriminate].
  - assert (Hhere : k i (c :: t) caps = Some res ->
                    exists w s', c :: t = w ++ s' /\ forallb p w = true
                                 /\ k (i + length w) s' caps = Some res).
    { intros Hk. exists [], (c :: t). cbn. now rewrite Nat.add_0_r. }
    assert (Hnext : star greedy p (S i) t caps k = Some res -> p c = true ->
                    exists w s', c :: t = w ++ s' /\ forallb p w = true
                                 /\ k (i + length w) s' caps = Some res).
    { intros Hs Hp. apply IH in Hs as (w & s' & -> & Hw & Hk).
      exists (c :: w), s'. cbn. rewrite Hp, Hw.
      now rewrite Nat.add_succ_r. }
    destruct greedy; cbn in H.
    + destruct (p c) eqn:Hp; [|now apply Hhere].
      destruct (star true p (S i) t caps k) eqn:Hs.
      * injection H as <-. now apply Hnext.
      * now apply Hhere.
    + destruct (k i (c :: t) caps) eqn:Hk.
      * injection H as <-. now apply Hhere.
      * destruct (p c) eqn:Hp; [now apply Hnext | discriminate].
Qed.

Lemma star_complete greedy p w : forall i s' caps k,
  forallb p w = true ->
  k (i + length w) s' caps <> None ->
  star greedy p i (w ++ s') caps k <> None.
Proof.
  induction w as [|c w IH]; intros i s' caps k Hw Hk.
  - cbn in Hk. rewrite Nat.add_0_r in Hk. cbn [app].
    destruct s' as [|c t]; destruct greedy; cbn; try easy.
    + now destruct (k i [] caps).
    + destruct (p c); [|easy]. now destruct (star true p (S i) t caps k).
    + now destruct (k i (c :: t) caps).
  - cbn in Hw. apply andb_true_iff in Hw as [Hc Hw].
    cbn [length] in Hk. rewrite Nat.add_succ_r in Hk.
    specialize (IH (S i) s' caps k Hw Hk).
    destruct greedy; cbn; rewrite ?Hc.
    + now destruct (star true p (S i) (w ++ s') caps k).
    + now destruct (k i (c :: w ++ s') caps).
Qed.

(** Soundness: a successful run consumed a word of the pattern, left
    every capture outside the pattern alone, and the continuation
    succeeded on the rest. *)
Lemma rmatch_sound r : forall i s caps k res,
  rmatch r i s caps k = Some res ->
  exists w s' caps',
    s = w ++ s' /\ lang r i w
    /\ (forall n, ~ In n (groupNumbers r) -> caps' n = caps n)
    /\ k (i + length w) s' caps' = Some res.
Proof.
  induction r as [c|p| | |r1 IH1 r2 IH2|greedy p|n r' IH];
    intros i s caps k res H; cbn in H.
  - destruct s as [|x t]; [discriminate|].
    destruct (char_eqb x c) eqn:E; [|discriminate].
    apply char_eqb_eq in E as ->.
    exists [c], t, caps. cbn. now rewrite Nat.add_1_r.
  - destruct s as [|x t]; [discriminate|].
    destruct (p x) eqn:E; [|discriminate].
    exists [x], t, caps. cbn. rewrite Nat.add_1_r. repeat split; eauto.
  - destruct (Nat.eqb i 0) eqn:E; [|discriminate].
    apply Nat.eqb_eq in E. exists [], s, caps. cbn. now rewrite Nat.add_0_r.
  - exists [], s, caps. cbn. now rewrite Nat.add_0_r.
  - apply IH1 in H as (w1 & s1 & caps1 & -> & L1 & C1 & H).
    apply IH2 in H as (w2 & s2 & caps2 & -> & L2 & C2 & H).
    exists (w1 ++ w2), s2, caps2. rewrite <- app_assoc.
    repeat split.
    + cbn. now exists w1, w2.
    + intros n Hn. cbn in Hn. rewrite in_app_iff in Hn.
      rewrite C2, C1; tauto.
    + now rewrite length_app, Nat.add_assoc.
  - apply star_sound in H as (w & s' & -> & Hw & H).
    now exists w, s', caps.
  - apply IH in H as (w & s' & caps' & -> & L & C & H).
    exists w, s', (setCapture n (i, i + length w) caps').
    repeat split; try easy.
    intros m Hm. cbn in Hm. unfold setCapture.
    destruct (Nat.eqb m n) eqn:E.
    + apply Nat.eqb_eq in E. subst m. exfalso. apply Hm. now left.
    + apply C. intros Hin. apply Hm. now right.
Qed.

(** Completeness: if some word of the pattern is a prefix of the input
    and the continuation succeeds after it, so does the run. *)
Lemma rmatch_complete r : forall i w s' caps k,
  lang r i w ->
  (forall caps', k (i + length w) s' caps' <> None) ->
  rmatch r i (w ++ s') caps k <> None.
Proof.
  induction r as [c|p| | |r1 IH1 r2 IH2|greedy p|n r' IH];
    intros i w s' caps k L Hk; cbn in L; cbn [rmatch].
  - subst w. cbn. rewrite char_eqb_refl.
    specialize (Hk caps). cbn in Hk. now rewrite Nat.add_1_r in Hk.
  - destruct L as (x & -> & Hx). cbn. rewrite Hx.
    specialize (Hk caps). cbn in Hk. now rewrite Nat.add_1_r in Hk.
  - destruct L as [-> ->]. cbn. apply Hk.
  - subst w. cbn. specialize (Hk caps). cbn in Hk.
    now rewrite Nat.add_0_r in Hk.
  - destruct L as (w1 & w2 & -> & L1 & L2). rewrite <- app_assoc.
    apply IH1; [easy|]. intros caps1. apply IH2; [easy|].
    intros caps2. rewrite <- Nat.add_assoc, <- length_app. apply Hk.
  - apply star_complete; [easy | apply Hk].
  - apply IH; [easy|]. intros caps'. apply Hk.
Qed.

Lemma lang_anchorFree r : forall i j w,
  anchorFree r = true -> lang r i w -> lang r j w.
Proof.
  induction r as [c|p| | |r1 IH1 r2 IH2|greedy p|n r' IH];
    intros i j w A L; cbn in *; try easy.
  - apply andb_true_iff in A as [A1 A2].
    destruct L as (w1 & w2 & -> & L1 & L2).
    exists w1, w2. repeat split; eauto.
  - eauto.
Qed.

Lemma lang_lit p : forall i w, lang (lit p) i w <-> w = p.
Proof.
  induction p as [|c p IH]; intros i w; cbn; [easy|].
  split.
  - intros (w1 & w2 & -> & -> & L). apply IH in L as ->. easy.
  - intros ->. exists [c], p. repeat split. now apply IH.
Qed.

(** One attempt. *)
Lemma matchAt_sound r i s e caps :
  matchAt r i s = Some (e, caps) ->
  exists w s', s = w ++ s' /\ lang r i w /\ e = i + length w
               /\ (forall n, ~ In n (groupNumbers r) -> caps n = None).
Proof.
  intros H. apply rmatch_sound in H as (w & s' & caps' & -> & L & C & H).
  injection H as <- <-. now exists w, s'.
Qed.

Lemma matchAt_complete r i w s' :
  lang r i w -> matchAt r i (w ++ s') <> None.
Proof. intros L. apply rmatch_complete; [easy|]. intros caps'. easy. Qed.

(** The first successful attempt: the input splits into what precedes
    the match, the match and the rest, and no earlier attempt succeeds. *)
Lemma execFrom_Some r : forall s i b e caps,
  execFrom r i s = Some (b, e, caps) ->
  exists pre w post,
    s = pre ++ w ++ post /\ b = i + length pre /\ e = b + length w
    /\ lang r b w
    /\ matchAt r b (w ++ post) = Some (e, caps)
    /\ forall n, n < length pre -> matchAt r (i + n) (skipn n s) = None.
Proof.
  induction s as [|c t IH]; intros i b e caps H; cbn in H.
  - destruct (matchAt r i []) as [[e' caps']|] eqn:E; [|discriminate].
    injection H as <- <- <-.
    destruct (matchAt_sound _ _ _ E) as (w & s' & Hs & L & -> & _).
    symmetry in Hs. apply app_eq_nil in Hs as [-> ->].
    exists [], [], []. cbn [app length] in *. rewrite Nat.add_0_r in *.
    repeat split; easy.
  - destruct (matchAt r i (c :: t)) as [[e' caps']|] eqn:E.
    + injection H as <- <- <-.
      destruct (matchAt_sound _ _ _ E) as (w & s' & Hs & L & -> & _).
      exists [], w, s'. cbn [app length]. rewrite Nat.add_0_r.
      repeat split; try easy. now rewrite <- Hs.
    + apply IH in H as (pre & w & post & -> & -> & -> & L & M & Hmin).
      exists (c :: pre), w, post. cbn [app length].
      rewrite Nat.add_succ_r. repeat split; try easy.
      intros [|n] Hn.
      * now rewrite Nat.add_0_r.
      * rewrite Nat.add_succ_r. cbn [skipn]. apply Hmin. lia.
Qed.

Lemma execFrom_None r : forall s i,
  execFrom r i s = None ->
  forall n, n <= length s -> matchAt r (i + n) (skipn n s) = None.
Proof.
  induction s as [|c t IH]; intros i H n Hn; cbn in H.
  - cbn in Hn. assert (n = 0) as -> by lia. rewrite Nat.add_0_r. cbn.
    now destruct (matchAt r i []) as [[? ?]|].
  - destruct (matchAt r i (c :: t)) as [[e' caps']|] eqn:E; [discriminate|].
    destruct n as [|n]; [now rewrite Nat.add_0_r|].
    rewrite Nat.add_succ_r. cbn [skipn]. apply (IH (S i)); [easy|].
    cbn in Hn. lia.
Qed.

End Matcher.

(** ** The fuel of [JSON.parse] *)

Lemma skipWs_length (s : jsstring) : length (skipWs s) <= length s.
Proof.
  induction s as [|c s IH]; cbn; [lia|]. destruct (isJsonWs c); cbn; lia.
Qed.

Lemma skipWs_cons (s : jsstring) (c : char) (t : jsstring) :
  skipWs s = c :: t -> length t < length s.
Proof.
  intros H. assert (X := skipWs_length s). rewrite H in X. cbn in X. lia.
Qed.

Lemma parseStringBody_length_upto (n : nat) : forall s str rest,
  length s <= n ->
  parseStringBody s = Some (str, rest) -> length rest < length s.
Proof.
  induction n as [|n IH]; intros s str rest Hn H.
  - destruct s; [discriminate | cbn in Hn; lia].
  - destruct s as [|c t]; [discriminate|].
    cbn [parseStringBody] in H. cbn [length] in *.
    destruct (c =? 34)%N; [injection H as _ <-; lia|].
    destruct (c =? 92)%N.
    + destruct t as [|e t']; [discriminate|].
      destruct (e =? 117)%N.
      * destruct t' as [|h1 [|h2 [|h3 [|h4 t'']]]]; try discriminate.
        destruct (hex4 h1 h2 h3 h4); [|discriminate].
        destruct (parseStringBody t'') as [[str' rest']|] eqn:E; [|discriminate].
        injection H as _ <-. apply IH in E; cbn [length] in *; lia.
      * destruct (escapeChar e); [|discriminate].
        destruct (parseStringBody t') as [[str' rest']|] eqn:E; [|discriminate].
        injection H as _ <-. apply IH in E; cbn [length] in *; lia.
    + destruct (c <? 32)%N; [discriminate|].
      destruct (parseStringBody t) as [[str' rest']|] eqn:E; [|discriminate].
      injection H as _ <-. apply IH in E; lia.
Qed.

Lemma parseStringBody_length (s str rest : jsstring) :
  parseStringBody s = Some (str, rest) -> length rest < length s.
Proof. now apply (@parseStringBody_length_upto (length s)). Qed.

Lemma takeDigits_length (s : jsstring) : forall ds rest,
  takeDigits s = (ds, rest) -> length rest + length ds = length s.
Proof.
  induction s as [|c t IH]; intros ds rest H; cbn [takeDigits] in H.
  - now injection H as <- <-.
  - destruct (isDigit c).
    + destruct (takeDigits t) as [ds' rest'] eqn:E. injection H as <- <-.
      specialize (IH _ _ eq_refl). cbn. lia.
    + injection H as <- <-. cbn. lia.
Qed.

Lemma parseInt_length (s : jsstring) (ds : list N) (rest : jsstring) :
  parseInt s = Some (ds, rest) -> length rest < length s.
Proof.
  unfold parseInt. destruct s as [|c t]; [discriminate|].
  destruct (c =? 48)%N; [intros [= _ <-]; cbn; lia|].
  destruct (isDigit c) eqn:D; [|discriminate].
  intros [= H]. cbn [takeDigits] in H. rewrite D in H.
  destruct (takeDigits t) as [ds' rest'] eqn:E. injection H as _ <-.
  apply takeDigits_length in E. cbn. lia.
Qed.

Lemma parseFrac_length (s : jsstring) (ds : list N) (rest : jsstring) :
  parseFrac s = Some (ds, rest) -> length rest <= length s.
Proof.
  unfold parseFrac. destruct s as [|c t]; [intros [= _ <-]; cbn; lia|].
  destruct (c =? 46)%N; [|intros [= _ <-]; cbn; lia].
  destruct (takeDigits t) as [[|d ds'] rest'] eqn:E; [discriminate|].
  intros [= _ <-]. apply takeDigits_length in E. cbn in *. lia.
Qed.

Lemma parseExp_length (s : jsstring) (e : Z) (rest : jsstring) :
  parseExp s = Some (e, rest) -> length rest <= length s.
Proof.
  unfold parseExp. destruct s as [|c t]; [intros [= _ <-]; cbn; lia|].
  destruct ((c =? 101)%N || (c =? 69)%N); [|intros [= _ <-]; cbn; lia].
  destruct t as [|sg u].
  - cbn. discriminate.
  - destruct (sg =? 45)%N; [|destruct (sg =? 43)%N].
    + destruct (takeDigits u) as [[|d ds'] rest'] eqn:E; [discriminate|].
      intros [= _ <-]. apply takeDigits_length in E. cbn in *. lia.
    + destruct (takeDigits u) as [[|d ds'] rest'] eqn:E; [discriminate|].
      intros [= _ <-]. apply takeDigits_length in E. cbn in *. lia.
    + destruct (takeDigits (sg :: u)) as [[|d ds'] rest'] eqn:E; [discriminate|].
      intros [= _ <-]. apply takeDigits_length in E. cbn in *. lia.
Qed.

Lemma parseNumber_length (s : jsstring) (x : float) (rest : jsstring) :
  parseNumber s = Some (x, rest) -> length rest < length s.
Proof.
  unfold parseNumber.
  set (p := match s with
            | c :: t => if (c =? 45)%N then (true, t) else (false, s)
            | [] => (false, s)
            end).
  assert (Hp : length (snd p) <= length s).
  { unfold p. destruct s as [|c t]; [cbn; lia|].
    destruct (c =? 45)%N; cbn; lia. }
  destruct p as [neg s1]. cbn [snd] in Hp.
  destruct (parseInt s1) as [[ip s2]|] eqn:E1; [|discriminate].
  destruct (parseFrac s2) as [[fp s3]|] eqn:E2; [|discriminate].
  destruct (parseExp s3) as [[e s4]|] eqn:E3; [|discriminate].
  intros [= _ <-].
  apply parseInt_length in E1. apply parseFrac_length in E2.
  apply parseExp_length in E3. lia.
Qed.

Lemma expectLiteral_length (word : jsstring) (v w : JSValue) (s rest : jsstring) :
  expectLiteral word v s = Ok w rest -> length rest + length word = length s.
Proof.
  unfold expectLiteral. destruct (startsWith word s) eqn:E; [|discriminate].
  intros [= _ <-]. apply startsWith_iff in E as [t ->].
  rewrite skipn_app, skipn_all, Nat.sub_diag. cbn [skipn app].
  rewrite length_app. lia.
Qed.

(** Every parser leaves less input than it received. *)
Lemma parse_progress (fuel : nat) :
  (forall s v rest, parseValue fuel s = Ok v rest -> length rest < length s)
  /\ (forall s acc v rest,
        parseElements fuel s acc = Ok v rest -> length rest < length s)
  /\ (forall s acc v rest,
        parseMembers fuel s acc = Ok v rest -> length rest < length s).
Proof.
  induction fuel as [|f (IHv & IHe & IHm)]; [repeat split; discriminate|].
  split; [|split].
  - intros s v rest H. cbn [parseValue] in H.
    destruct (skipWs s) as [|c t] eqn:Es; [discriminate|].
    apply skipWs_cons in Es.
    destruct (c =? 123)%N.
    { destruct (skipWs t) as [|d t'] eqn:Et; [discriminate|].
      apply skipWs_cons in Et.
      destruct (d =? 125)%N; [injection H as _ <-; lia|].
      apply IHm in H. lia. }
    destruct (c =? 91)%N.
    { destruct (skipWs t) as [|d t'] eqn:Et; [discriminate|].
      apply skipWs_cons in Et.
      destruct (d =? 93)%N; [injection H as _ <-; lia|].
      apply IHe in H. lia. }
    destruct (c =? 34)%N.
    { destruct (parseStringBody t) as [[str r]|] eqn:E; [|discriminate].
      injection H as _ <-. apply parseStringBody_length in E. lia. }
    destruct (c =? 116)%N.
    { apply expectLiteral_length in H. cbn in H. lia. }
    destruct (c =? 102)%N.
    { apply expectLiteral_length in H. cbn in H. lia. }
    destruct (c =? 110)%N.
    { apply expectLiteral_length in H. cbn in H. lia. }
    destruct (parseNumber (c :: t)) as [[x r]|] eqn:E; [|discriminate].
    injection H as _ <-. apply parseNumber_length in E. cbn in E. lia.
  - intros s acc v rest H. cbn [parseElements] in H.
    destruct (parseValue f s) as [w r| |] eqn:E; try discriminate.
    apply IHv in E.
    destruct (skipWs r) as [|c t] eqn:Er; [discriminate|].
    apply skipWs_cons in Er.
    destruct (c =? 44)%N; [apply IHe in H; lia|].
    destruct (c =? 93)%N; [|discriminate]. injection H as _ <-. lia.
  - intros s acc v rest H. cbn [parseMembers] in H.
    destruct (skipWs s) as [|q t] eqn:Es; [discriminate|].
    apply skipWs_cons in Es.
    destruct (q =? 34)%N; [|discriminate].
    destruct (parseStringBody t) as [[key r1]|] eqn:E1; [|discriminate].
    apply parseStringBody_length in E1.
    destruct (skipWs r1) as [|colon t'] eqn:E2; [discriminate|].
    apply skipWs_cons in E2.
    destruct (colon =? 58)%N; [|discriminate].
    destruct (parseValue f t') as [w r2| |] eqn:E3; try discriminate.
    apply IHv in E3.
    destruct (skipWs r2) as [|c t''] eqn:E4; [discriminate|].
    apply skipWs_cons in E4.
    destruct (c =? 44)%N; [apply IHm in H; lia|].
    destruct (c =? 125)%N; [|discriminate]. injection H as _ <-. lia.
Qed.

(** Fuel above twice the length of the input is never used up. *)
Lemma parse_fuel (fuel : nat) :
  (forall s, 2 * length s < fuel -> parseValue fuel s <> OutOfFuel)
  /\ (forall s acc, 2 * length s + 1 < fuel -> parseElements fuel s acc <> OutOfFuel)
  /\ (forall s acc, 2 * length s + 1 < fuel -> parseMembers fuel s acc <> OutOfFuel).
Proof.
  induction fuel as [|f (IHv & IHe & IHm)]; [repeat split; intros; lia|].
  destruct (parse_progress f) as (Pv & Pe & Pm).
  split; [|split].
  - intros s Hf. cbn [parseValue].
    destruct (skipWs s) as [|c t] eqn:Es; [discriminate|].
    apply skipWs_cons in Es.
    destruct (c =? 123)%N.
    { destruct (skipWs t) as [|d t'] eqn:Et; [discriminate|].
      destruct (d =? 125)%N; [discriminate|]. apply IHm. lia. }
    destruct (c =? 91)%N.
    { destruct (skipWs t) as [|d t'] eqn:Et; [discriminate|].
      destruct (d =? 93)%N; [discriminate|]. apply IHe. lia. }
    destruct (c =? 34)%N.
    { now destruct (parseStringBody t) as [[str r]|]. }
    unfold expectLiteral.
    destruct (c =? 116)%N; [now destruct (startsWith _ _)|].
    destruct (c =? 102)%N; [now destruct (startsWith _ _)|].
    destruct (c =? 110)%N; [now destruct (startsWith _ _)|].
    now destruct (parseNumber (c :: t)) as [[x r]|].
  - intros s acc Hf. cbn [parseElements].
    destruct (parseValue f s) as [w r| |] eqn:E; try discriminate.
    + apply Pv in E.
      destruct (skipWs r) as [|c t] eqn:Er; [discriminate|].
      apply skipWs_cons in Er.
      destruct (c =? 44)%N; [apply IHe; lia|].
      now destruct (c =? 93)%N.
    + exfalso. revert E. apply IHv. lia.
  - intros s acc Hf. cbn [parseMembers].
    destruct (skipWs s) as [|q t] eqn:Es; [discriminate|].
    apply skipWs_cons in Es.
    destruct (q =? 34)%N; [|discriminate].
    destruct (parseStringBody t) as [[key r1]|] eqn:E1; [|discriminate].
    apply parseStringBody_length in E1.
    destruct (skipWs r1) as [|colon t'] eqn:E2; [discriminate|].
    apply skipWs_cons in E2.
    destruct (colon =? 58)%N; [|discriminate].
    destruct (parseValue f t') as [w r2| |] eqn:E3; try discriminate.
    + apply Pv in E3.
      destruct (skipWs r2) as [|c t''] eqn:E4; [discriminate|].
      apply skipWs_cons in E4.
      destruct (c =? 44)%N; [apply IHm; lia|].
      now destruct (c =? 125)%N.
    + exfalso. revert E3. apply IHv. lia.
Qed.

(** [JSON.parse] never stops for lack of fuel: a [SyntaxError] is a
    verdict on the text. *)
Lemma JSON_parse_fuel (text : jsstring) :
  parseValue (S (2 * length text)) text <> OutOfFuel.
Proof. apply parse_fuel. lia. Qed.

(** ** The fenced block *)

Lemma substring_app (a w c : jsstring) :
  substring (a ++ w ++ c) (length a) (length a + length w) = w.
Proof.
  unfold substring.
  rewrite skipn_app, skipn_all, Nat.sub_diag. cbn [app skipn].
  replace (length a + length w - length a) with (length w) by lia.
  now rewrite firstn_app, firstn_all, Nat.sub_diag, app_nil_r.
Qed.

Lemma app_eq_length (A : Type) (a b c d : list A) :
  a ++ b = c ++ d -> length a = length c -> a = c /\ b = d.
Proof.
  revert c; induction a as [|x a IH]; intros [|y c] H Hl; cbn in *; try easy.
  injection H as -> H. destruct (IH c H) as [-> ->]; [lia | easy].
Qed.

(** What a match of [jsonRegex] looks like: the opening fence, white
    space, the captured braces around the quoted key, white space, the
    closing fence; and the whole match occurs nowhere earlier in the
    text. *)
Lemma jsonRegex_match (raw : jsstring) (m : MatchResult) :
  String_match raw jsonRegex = Some m ->
  exists pre post ws1 body1 body2 ws2,
    let capture := LBRACE :: body1 ++ quotedKey ++ body2 ++ [RBRACE] in
    raw = pre ++ m_whole m ++ post
    /\ m_index m = length pre
    /\ m_whole m = js "```json" ++ ws1 ++ capture ++ ws2 ++ js "```"
    /\ m_group m 1 = Some capture
    /\ forallb isWhiteSpace ws1 = true
    /\ forallb isWhiteSpace ws2 = true
    /\ forall n, n < length pre -> startsWith (m_whole m) (skipn n raw) = false.
Proof.
  unfold String_match, exec.
  destruct (execFrom jsonRegex 0 raw) as [[[b e] caps]|] eqn:E; [|discriminate].
  intros [= <-]. unfold m_group. cbn [m_index m_whole m_groups].
  change (groupCount jsonRegex) with 1. cbn [seq map nth].
  apply execFrom_Some in E as (pre & w & post & -> & -> & -> & L & M & Hmin).
  cbn [Nat.add] in *.
  (* the shape of the match and its capture *)
  unfold matchAt, jsonRegex in M. cbn [rmatch] in M.
  change (rmatch (lit (js "```json")) (length pre) (w ++ post) noCaptures
            (fun i1 s1 c1 =>
               star true cls_s i1 s1 c1
                 (fun i2 s2 c2 =>
                    rmatch (Chr LBRACE >> Star false cls_any >> lit quotedKey >>
                            Star false cls_any >> Chr RBRACE)%re i2 s2 c2
                      (fun i3 s3 c3 =>
                         rmatch (Star true cls_s >> lit (js "```"))%re i3 s3
                                (setCapture 1 (i2, i3) c3) accept)))
          = Some (length pre + length w, caps)) in M.
  apply rmatch_sound in M as (w1 & s1 & c1 & Hs1 & L1 & C1 & M).
  apply lang_lit in L1. subst w1.
  apply star_sound in M as (ws1 & s2 & -> & Hws1 & M).
  apply rmatch_sound in M as (w3 & s3 & c3 & -> & L3 & C3 & M).
  apply rmatch_sound in M as (w4 & s4 & c4 & -> & L4 & C4 & M).
  injection M as He <-.
  cbn [lang] in L3.
  destruct L3 as (x1 & y1 & -> & -> & x2 & y2 & -> & _ & x3 & y3 & -> & L3 & x4 & y4 & -> & _ & ->).
  apply lang_lit in L3. subst x3.
  cbn [lang] in L4. destruct L4 as (ws2 & y5 & -> & Hws2 & L4).
  apply lang_lit in L4. subst y5.
  (* the match is the concatenation of the five parts *)
  set (capture := LBRACE :: x2 ++ quotedKey ++ x4 ++ [RBRACE]) in *.
  change ([LBRACE] ++ x2 ++ quotedKey ++ x4 ++ [RBRACE]) with capture in *.
  assert (Hw : w = js "```json" ++ ws1 ++ capture ++ ws2 ++ js "```" /\ post = s4).
  { apply app_eq_length.
    - rewrite Hs1. now repeat rewrite <- app_assoc.
    - repeat rewrite length_app in *. cbn [length js map list_ascii_of_string] in *. lia. }
  destruct Hw as [Hw <-]. clear Hs1 He.
  rewrite substring_app.
  exists pre, post, ws1, x2, x4, ws2. cbn zeta. fold capture.
  repeat split; try easy.
  - rewrite C4 by (cbn; tauto). unfold setCapture. cbn [Nat.eqb option_map fst snd].
    f_equal. rewrite Hw.
    replace (pre ++ (js "```json" ++ ws1 ++ capture ++ ws2 ++ js "```") ++ post)
      with ((pre ++ js "```json" ++ ws1) ++ capture ++ (ws2 ++ js "```" ++ post))
      by (now repeat rewrite <- app_assoc).
    replace (length pre + length (js "```json") + length ws1)
      with (length (pre ++ js "```json" ++ ws1))
      by (repeat rewrite length_app; lia).
    now rewrite substring_app.
  - intros n Hn. destruct (startsWith w (skipn n (pre ++ w ++ post))) eqn:E; [|easy].
    exfalso. apply startsWith_iff in E as [t Ht].
    specialize (Hmin n Hn). rewrite Ht in Hmin.
    revert Hmin. apply matchAt_complete.
    now apply (lang_anchorFree jsonRegex (length pre)).
Qed.

(** ** Trimming *)

Lemma trimStart_ws (a s : jsstring) :
  forallb isWhiteSpace a = true -> trimStart (a ++ s) = trimStart s.
Proof.
  induction a as [|c a IH]; cbn; [easy|].
  intros H. apply andb_true_iff in H as [-> H]. now apply IH.
Qed.

Lemma trimStart_all_ws (a : jsstring) :
  forallb isWhiteSpace a = true -> trimStart a = [].
Proof.
  intros H. rewrite <- (app_nil_r a). now rewrite trimStart_ws.
Qed.

Lemma trimStart_app (s b : jsstring) :
  trimStart (s ++ b) =
  if forallb isWhiteSpace s then trimStart b else trimStart s ++ b.
Proof.
  induction s as [|c s IH]; cbn; [easy|].
  now destruct (isWhiteSpace c).
Qed.

Lemma trimStart_split (s : jsstring) :
  exists a, s = a ++ trimStart s /\ forallb isWhiteSpace a = true.
Proof.
  induction s as [|c s (a & Hs & Ha)]; [now exists []|]. cbn.
  destruct (isWhiteSpace c) eqn:E.
  - exists (c :: a). cbn. rewrite E, Ha. split; [now f_equal | easy].
  - now exists [].
Qed.

Lemma forallb_rev (A : Type) (p : A -> bool) (l : list A) :
  forallb p (rev l) = forallb p l.
Proof.
  induction l as [|x l IH]; cbn; [easy|].
  rewrite forallb_app, IH. cbn. rewrite andb_true_r. apply andb_comm.
Qed.

Lemma trimEnd_ws (s b : jsstring) :
  forallb isWhiteSpace b = true -> trimEnd (s ++ b) = trimEnd s.
Proof.
  intros H. unfold trimEnd. rewrite rev_app_distr, trimStart_ws; [easy|].
  now rewrite forallb_rev.
Qed.

Lemma trimEnd_split (s : jsstring) :
  exists b, s = trimEnd s ++ b /\ forallb isWhiteSpace b = true.
Proof.
  destruct (trimStart_split (rev s)) as (a & Hs & Ha).
  exists (rev a). unfold trimEnd. rewrite forallb_rev. split; [|easy].
  rewrite <- rev_app_distr, <- Hs. now rewrite rev_involutive.
Qed.

(** The trimmed text sits between two runs of white space. *)
Lemma trim_split (s : jsstring) :
  exists a b, s = a ++ trim s ++ b
              /\ forallb isWhiteSpace a = true /\ forallb isWhiteSpace b = true.
Proof.
  destruct (trimStart_split s) as (a & Hs & Ha).
  destruct (trimEnd_split (trimStart s)) as (b & Ht & Hb).
  exists a, b. unfold trim. now rewrite <- Ht.
Qed.

(** White space around a text does not change what [trim] returns. *)
Lemma trim_ws_around (a s b : jsstring) :
  forallb isWhiteSpace a = true -> forallb isWhiteSpace b = true ->
  trim (a ++ s ++ b) = trim s.
Proof.
  intros Ha Hb. unfold trim. rewrite trimStart_ws by easy.
  rewrite trimStart_app. destruct (forallb isWhiteSpace s) eqn:E.
  - now rewrite (trimStart_all_ws b), (trimStart_all_ws s).
  - now apply trimEnd_ws.
Qed.

Lemma trim_no_ws_start (s : jsstring) (c : char) (t : jsstring) :
  trimStart s = c :: t -> isWhiteSpace c = false.
Proof.
  induction s as [|x s IH]; cbn; [easy|].
  destruct (isWhiteSpace x) eqn:E; [easy|]. now intros [= <- _].
Qed.

(** A trimmed text neither starts nor ends with white space. *)
Lemma trim_first (s : jsstring) (c : char) (t : jsstring) :
  trim s = c :: t -> isWhiteSpace c = false.
Proof.
  intros H. destruct (trimEnd_split (trimStart s)) as (b & Hb & _).
  fold (trim s) in Hb. rewrite H in Hb. cbn [app] in Hb.
  exact (@trim_no_ws_start _ _ _ Hb).
Qed.

Lemma trim_last (s x : jsstring) (c : char) :
  trim s = x ++ [c] -> isWhiteSpace c = false.
Proof.
  unfold trim, trimEnd. intros H. apply (f_equal (@rev char)) in H.
  rewrite rev_involutive, rev_app_distr in H. cbn [rev app] in H.
  exact (@trim_no_ws_start _ _ _ H).
Qed.

(** ** Separator lines *)

Lemma rmatch_lit (p : jsstring) : forall i s caps k,
  rmatch (lit p) i s caps k =
  if startsWith p s then k (i + length p) (skipn (length p) s) caps else None.
Proof.
  induction p as [|c p IH]; intros i s caps k; cbn.
  - now rewrite Nat.add_0_r.
  - destruct s as [|x s]; [easy|].
    replace (char_eqb c x) with (char_eqb x c) by apply N.eqb_sym.
    destruct (char_eqb x c); cbn [andb]; [|easy].
    rewrite IH. now rewrite Nat.add_succ_r.
Qed.

Lemma matchAt_separator (i : nat) (s : jsstring) :
  matchAt separatorRegex i s =
  if startsWith separatorLine s then Some (i + 50, noCaptures) else None.
Proof. unfold matchAt, separatorRegex. now rewrite rmatch_lit. Qed.

Lemma isWhiteSpace_notHyphen (l : jsstring) :
  forallb isWhiteSpace l = true -> forallb notHyphen l = true.
Proof.
  induction l as [|c l IH]; cbn; [easy|].
  intros H. apply andb_true_iff in H as [Hc H]. rewrite IH by easy.
  rewrite andb_true_r. unfold notHyphen, char_eqb, HYPHEN.
  destruct (N.eqb_spec c 45) as [->|]; [discriminate | easy].
Qed.

Lemma startsWith_hyphen_head (p b : jsstring) (y : char) :
  notHyphen y = true -> startsWith (HYPHEN :: p) (y :: b) = false.
Proof.
  unfold notHyphen. intros H. apply negb_true_iff in H. cbn [startsWith].
  replace (char_eqb HYPHEN y) with (char_eqb y HYPHEN) by apply N.eqb_sym.
  now rewrite H.
Qed.

(** A run of hyphens cannot end inside a text without hyphens. *)
Lemma startsWith_hyphens_app (n : nat) : forall s b,
  forallb notHyphen b = true ->
  startsWith (repeat HYPHEN (S n)) (s ++ b) = startsWith (repeat HYPHEN (S n)) s.
Proof.
  induction n as [|n IH]; intros s b Hb.
  - destruct s as [|c s]; cbn [app]; [|cbn; now rewrite !andb_true_r].
    destruct b as [|y b]; [easy|]. cbn in Hb. apply andb_true_iff in Hb as [Hy _].
    cbn [repeat]. now rewrite startsWith_hyphen_head.
  - destruct s as [|c s].
    + cbn [app]. destruct b as [|y b]; [easy|].
      cbn in Hb. apply andb_true_iff in Hb as [Hy _].
      cbn [repeat]. now rewrite startsWith_hyphen_head.
    + change (repeat HYPHEN (S (S n))) with (HYPHEN :: repeat HYPHEN (S n)).
      cbn [app startsWith]. now rewrite IH.
Qed.

Lemma separatorLine_repeat : separatorLine = repeat HYPHEN 50.
Proof. reflexivity. Qed.

Lemma startsWith_separator_app (s b : jsstring) :
  forallb notHyphen b = true ->
  startsWith separatorLine (s ++ b) = startsWith separatorLine s.
Proof. rewrite separatorLine_repeat. apply startsWith_hyphens_app. Qed.

Lemma startsWith_length (p s : jsstring) :
  startsWith p s = true -> length p <= length s.
Proof.
  intros H. apply startsWith_iff in H as [t ->]. rewrite length_app. lia.
Qed.

(** A text without hyphens has no separator line to remove. *)
Lemma removeSeparators_none (b : jsstring) : forall i,
  forallb notHyphen b = true ->
  replaceAllFrom separatorRegex [] i 0 b = b.
Proof.
  induction b as [|c b IH]; intros i H; cbn [replaceAllFrom];
    rewrite matchAt_separator.
  - reflexivity.
  - cbn in H. apply andb_true_iff in H as [Hc H].
    assert (startsWith separatorLine (c :: b) = false) as ->.
    { rewrite separatorLine_repeat. now apply startsWith_hyphen_head. }
    now rewrite IH.
Qed.

Lemma removeSeparators_app_r (b : jsstring) :
  forallb notHyphen b = true ->
  forall s i skip, skip <= length s ->
    replaceAllFrom separatorRegex [] i skip (s ++ b)
    = replaceAllFrom separatorRegex [] i skip s ++ b.
Proof.
  intros Hb. induction s as [|c s IH]; intros i skip Hskip.
  - cbn in Hskip. assert (skip = 0) as -> by lia. cbn [app].
    now rewrite removeSeparators_none.
  - destruct skip as [|n].
    + cbn [app replaceAllFrom]. rewrite !matchAt_separator.
      change (c :: s ++ b) with ((c :: s) ++ b).
      rewrite startsWith_separator_app by easy.
      destruct (startsWith separatorLine (c :: s)) eqn:E.
      * apply startsWith_length in E. cbn in E.
        assert (Nat.leb (i + 50) i = false) as -> by (apply Nat.leb_gt; lia).
        cbn [app]. apply IH. lia.
      * cbn [app]. f_equal. apply IH. lia.
    + cbn [app replaceAllFrom]. apply IH. cbn in Hskip. lia.
Qed.

Lemma removeSeparators_app_l (a : jsstring) :
  forallb notHyphen a = true ->
  forall s i,
    replaceAllFrom separatorRegex [] i 0 (a ++ s)
    = a ++ replaceAllFrom separatorRegex [] (i + length a) 0 s.
Proof.
  induction a as [|c a IH]; intros H s i.
  - cbn. now rewrite Nat.add_0_r.
  - cbn in H. apply andb_true_iff in H as [Hc H].
    cbn [app replaceAllFrom]. rewrite matchAt_separator.
    assert (startsWith separatorLine (c :: a ++ s) = false) as ->.
    { rewrite separatorLine_repeat. now apply startsWith_hyphen_head. }
    rewrite IH by easy. cbn [length]. now rewrite Nat.add_succ_r.
Qed.

(** The scan for separator lines does not depend on the index. *)
Lemma removeSeparators_index (s : jsstring) : forall i j skip,
  replaceAllFrom separatorRegex [] i skip s
  = replaceAllFrom separatorRegex [] j skip s.
Proof.
  induction s as [|c s IH]; intros i j skip; destruct skip as [|n];
    cbn [replaceAllFrom]; rewrite ?matchAt_separator.
  - reflexivity.
  - reflexivity.
  - destruct (startsWith separatorLine (c :: s)).
    + assert (Nat.leb (i + 50) i = false) as -> by (apply Nat.leb_gt; lia).
      assert (Nat.leb (j + 50) j = false) as -> by (apply Nat.leb_gt; lia).
      replace (i + 50 - S i) with 49 by lia.
      replace (j + 50 - S j) with 49 by lia. cbn [app]. apply IH.
    + f_equal. apply IH.
  - apply IH.
Qed.

(** The first [trim] of the source changes nothing in the end. *)
Lemma trim_removeSeparators_trim (x : jsstring) :
  trim (replaceAll separatorRegex [] (trim x))
  = trim (replaceAll separatorRegex [] x).
Proof.
  destruct (trim_split x) as (a & b & Hx & Ha & Hb).
  rewrite Hx at 2. unfold replaceAll.
  rewrite removeSeparators_app_l by now apply isWhiteSpace_notHyphen.
  rewrite removeSeparators_app_r by (now apply isWhiteSpace_notHyphen || lia).
  rewrite trim_ws_around by easy.
  f_equal. apply removeSeparators_index.
Qed.

(** *** No separator line survives *)

Lemma startsWith_hyphens_lead (n : nat) : forall s,
  startsWith (repeat HYPHEN n) s = Nat.leb n (leadingHyphens s).
Proof.
  induction n as [|n IH]; intros s; [easy|].
  destruct s as [|c s]; [easy|]. cbn [repeat startsWith leadingHyphens].
  replace (char_eqb HYPHEN c) with (char_eqb c HYPHEN) by apply N.eqb_sym.
  destruct (char_eqb c HYPHEN); cbn [andb]; [apply IH | easy].
Qed.

Lemma leadingHyphens_skipn (n : nat) : forall s,
  n <= leadingHyphens s -> leadingHyphens (skipn n s) = leadingHyphens s - n.
Proof.
  induction n as [|n IH]; intros s H; [cbn; lia|].
  destruct s as [|c s]; [cbn in H; lia|]. cbn [leadingHyphens skipn] in *.
  destruct (char_eqb c HYPHEN); [|lia]. rewrite IH by lia. lia.
Qed.

Lemma replaceAllFrom_skip (s : jsstring) : forall i n,
  n <= length s ->
  replaceAllFrom separatorRegex [] i n s
  = replaceAllFrom separatorRegex [] i 0 (skipn n s).
Proof.
  induction s as [|c s IH]; intros i n H.
  - cbn in H. now assert (n = 0) as -> by lia.
  - destruct n as [|n]; [easy|]. cbn [replaceAllFrom skipn].
    rewrite IH by (cbn in H; lia). apply removeSeparators_index.
Qed.

(** The scan, one separator line or one code unit at a time. *)
Lemma removeSeparators_step (s : jsstring) :
  replaceAll separatorRegex [] s =
  if startsWith separatorLine s then replaceAll separatorRegex [] (skipn 50 s)
  else match s with
       | [] => []
       | c :: t => c :: replaceAll separatorRegex [] t
       end.
Proof.
  unfold replaceAll. destruct s as [|c s]; [easy|].
  cbn [replaceAllFrom]. rewrite matchAt_separator.
  destruct (startsWith separatorLine (c :: s)) eqn:E.
  - apply startsWith_length in E. cbn [length] in E.
    change (length separatorLine) with 50 in E.
    change (Nat.leb (0 + 50) 0) with false. cbn [app Nat.add Nat.sub].
    rewrite replaceAllFrom_skip by lia. apply removeSeparators_index.
  - f_equal. apply removeSeparators_index.
Qed.

(** The replacement removes the separator lines, from left to right. *)
Lemma withoutSeparators_replaceAll (n : nat) : forall s,
  length s <= n -> withoutSeparators s (replaceAll separatorRegex [] s).
Proof.
  induction n as [|n IH]; intros s Hn.
  - destruct s; [constructor | cbn in Hn; lia].
  - rewrite removeSeparators_step.
    destruct (startsWith separatorLine s) eqn:E.
    + pose proof (startsWith_length _ _ E) as L.
      change (length separatorLine) with 50 in L.
      rewrite (startsWith_skipn _ _ E) at 1.
      change (length separatorLine) with 50.
      apply strip_line, IH. rewrite length_skipn. lia.
    + destruct s as [|c t]; [constructor|].
      apply strip_keep; [exact E|]. apply IH. cbn in Hn. lia.
Qed.

Lemma leadingHyphens_removeSeparators (n : nat) : forall s,
  length s <= n ->
  leadingHyphens (replaceAll separatorRegex [] s) = leadingHyphens s mod 50.
Proof.
  induction n as [|n IH]; intros s Hn.
  - destruct s; [easy | cbn in Hn; lia].
  - rewrite removeSeparators_step, separatorLine_repeat, startsWith_hyphens_lead.
    destruct (Nat.leb_spec 50 (leadingHyphens s)) as [H|H].
    + assert (Hl : 50 <= length s).
      { assert (E : startsWith (repeat HYPHEN 50) s = true)
          by (rewrite startsWith_hyphens_lead; now apply Nat.leb_le).
        apply startsWith_length in E. now rewrite repeat_length in E. }
      rewrite IH by (rewrite length_skipn; lia).
      rewrite leadingHyphens_skipn by easy.
      replace (leadingHyphens s) with (leadingHyphens s - 50 + 1 * 50) at 2 by lia.
      now rewrite Nat.Div0.mod_add.
    + destruct s as [|c s]; [easy|]. cbn [leadingHyphens] in *.
      destruct (char_eqb c HYPHEN); [|easy].
      rewrite IH by (cbn in Hn; lia).
      rewrite (Nat.mod_small (leadingHyphens s)) by lia.
      now rewrite Nat.mod_small by lia.
Qed.

Lemma indexOf_None (p s : jsstring) :
  indexOf p s = None <->
  forall k, k <= length s -> startsWith p (skipn k s) = false.
Proof.
  induction s as [|c s IH]; cbn [indexOf].
  - destruct (startsWith p []) eqn:E; split; try easy.
    + intros H. specialize (H 0 (Nat.le_refl _)). cbn in H. congruence.
    + intros _ k Hk. cbn in Hk. assert (k = 0) as -> by lia. easy.
  - destruct (startsWith p (c :: s)) eqn:E.
    + split; [easy|]. intros H. specialize (H 0 ltac:(lia)). cbn in H. congruence.
    + destruct (indexOf p s) as [j|]; cbn [option_map].
      * split; [easy|]. intros H.
        assert (Some j = None) as X; [|discriminate].
        apply IH. intros k Hk. apply (H (S k)). cbn. lia.
      * split; [|easy]. intros _ [|k] Hk; [easy|].
        cbn [skipn]. apply IH; [easy|]. cbn in Hk. lia.
Qed.

(** After the global replacement no separator line is left. *)
Lemma removeSeparators_clean (n : nat) : forall s,
  length s <= n ->
  indexOf separatorLine (replaceAll separatorRegex [] s) = None.
Proof.
  induction n as [|n IH]; intros s Hn.
  - destruct s; [easy | cbn in Hn; lia].
  - apply indexOf_None. intros k Hk.
    destruct k as [|k].
    + cbn [skipn]. rewrite separatorLine_repeat, startsWith_hyphens_lead.
      rewrite (leadingHyphens_removeSeparators (n := S n)) by easy.
      apply Nat.leb_gt. apply Nat.mod_upper_bound. lia.
    + revert Hk. rewrite removeSeparators_step.
      destruct (startsWith separatorLine s) eqn:E.
      * intros Hk. apply startsWith_length in E.
        change (length separatorLine) with 50 in E.
        assert (X := IH (skipn 50 s)). rewrite indexOf_None in X.
        apply X; [rewrite length_skipn; lia | easy].
      * destruct s as [|c s]; [cbn; lia|]. intros Hk. cbn [skipn].
        assert (X := IH s). rewrite indexOf_None in X.
        cbn [length] in Hn, Hk. apply X; lia.
Qed.

Lemma indexOf_None_inside (p a y b : jsstring) :
  indexOf p (a ++ y ++ b) = None -> indexOf p y = None.
Proof.
  rewrite !indexOf_None. intros H k Hk.
  destruct (startsWith p (skipn k y)) eqn:E; [|easy].
  apply startsWith_iff in E as [t Ht].
  rewrite <- (H (length a + k)).
  - symmetry. apply startsWith_iff. exists (t ++ b).
    rewrite skipn_app, skipn_all2 by lia. cbn [app].
    replace (length a + k - length a) with k by lia.
    rewrite skipn_app, Ht, <- app_assoc. f_equal.
    assert (k - length y = 0) as -> by lia. easy.
  - rewrite !length_app. lia.
Qed.

Lemma indexOf_None_trim (p y : jsstring) :
  indexOf p y = None -> indexOf p (trim y) = None.
Proof.
  destruct (trim_split y) as (a & b & Hy & _ & _).
  rewrite Hy at 1. apply indexOf_None_inside.
Qed.

(** ** [JSON.parse] on a text that starts with a brace *)

Lemma parseMembers_object (fuel : nat) : forall s acc v rest,
  parseMembers fuel s acc = Ok v rest -> exists props, v = JSObject props.
Proof.
  induction fuel as [|f IH]; intros s acc v rest H; [discriminate|].
  cbn [parseMembers] in H.
  destruct (skipWs s) as [|q t]; [discriminate|].
  destruct (q =? 34)%N; [|discriminate].
  destruct (parseStringBody t) as [[key r1]|]; [|discriminate].
  destruct (skipWs r1) as [|colon t']; [discriminate|].
  destruct (colon =? 58)%N; [|discriminate].
  destruct (parseValue f t') as [w r2| |]; try discriminate.
  destruct (skipWs r2) as [|c t'']; [discriminate|].
  destruct (c =? 44)%N; [now apply IH in H|].
  destruct (c =? 125)%N; [|discriminate].
  injection H as <- _. now eexists.
Qed.

Lemma JSON_parse_object (t : jsstring) (parsed : JSValue) :
  JSON_parse (LBRACE :: t) = inr parsed -> exists props, parsed = JSObject props.
Proof.
  unfold JSON_parse. cbn [parseValue skipWs].
  change (isJsonWs LBRACE) with false. cbn iota.
  change (LBRACE =? 123)%N with true. cbn iota.
  destruct (skipWs t) as [|d t'] eqn:E; [discriminate|].
  destruct (d =? 125)%N.
  - destruct (skipWs t'); [|discriminate]. intros [= <-]. now eexists.
  - destruct (parseMembers _ t []) as [v rest| |] eqn:P; try discriminate.
    apply parseMembers_object in P as [props ->].
    destruct (skipWs rest); [|discriminate]. intros [= <-]. now eexists.
Qed.

(** ** The extraction *)

Lemma replaceString_match (raw : jsstring) (m : MatchResult) :
  String_match raw jsonRegex = Some m ->
  replaceString (m_whole m) [] raw = removeBlock raw m.
Proof.
  intros H. apply jsonRegex_match in H
    as (pre & post & _ & _ & _ & _ & Hraw & Hidx & _ & _ & _ & _ & Hmin).
  unfold removeBlock. rewrite Hidx. clear Hidx.
  generalize dependent (m_whole m). intros w -> Hmin.
  rewrite replaceString_first by easy.
  rewrite firstn_app, firstn_all, Nat.sub_diag. cbn [firstn].
  rewrite app_nil_r. f_equal.
  rewrite app_assoc, <- length_app.
  now rewrite skipn_app, skipn_all, Nat.sub_diag.
Qed.

Lemma capture_truthy (raw : jsstring) (m : MatchResult) (capture : jsstring) :
  String_match raw jsonRegex = Some m -> m_group m 1 = Some capture ->
  exists t, capture = LBRACE :: t.
Proof.
  intros H G. apply jsonRegex_match in H
    as (_ & _ & _ & b1 & b2 & _ & _ & _ & _ & Hg & _).
  cbn zeta in Hg. rewrite Hg in G. injection G as <-. now eexists.
Qed.

(** A match whose capture parses. *)
Lemma extract_parsed (raw : jsstring) (m : MatchResult) (capture : jsstring)
      (parsed : JSValue) :
  String_match raw jsonRegex = Some m ->
  m_group m 1 = Some capture ->
  JSON_parse capture = inr parsed ->
  extractSentiment raw
  = mkExtraction (cleanedText raw m) (distributionOf parsed) [].
Proof.
  intros Hm Hg Hp.
  destruct (@capture_truthy raw m capture Hm Hg) as [t ->].
  destruct (@JSON_parse_object t parsed Hp) as [props ->].
  unfold extractSentiment, tryExtract, distributionOf. rewrite Hm, Hg, Hp.
  cbn [truthy jsstring_eqb negb getProperty].
  rewrite trim_removeSeparators_trim, replaceString_match by exact Hm.
  now destruct (lookupProp sentimentKey props).
Qed.

(** A match whose capture does not parse. *)
Lemma extract_unparsed (raw : jsstring) (m : MatchResult) (capture : jsstring)
      (e : Exception) :
  String_match raw jsonRegex = Some m ->
  m_group m 1 = Some capture ->
  JSON_parse capture = inl e ->
  extractSentiment raw
  = mkExtraction raw JSNull
      [mkDiagnostic (js "Failed to parse hidden sentiment JSON") e].
Proof.
  intros Hm Hg Hp.
  destruct (@capture_truthy raw m capture Hm Hg) as [t ->].
  unfold extractSentiment, tryExtract. rewrite Hm, Hg, Hp.
  reflexivity.
Qed.

(** No match. *)
Lemma extract_unmatched (raw : jsstring) :
  String_match raw jsonRegex = None ->
  extractSentiment raw = mkExtraction raw JSNull [].
Proof. intros H. unfold extractSentiment. now rewrite H. Qed.

Lemma cleanedText_no_separator (raw : jsstring) (m : MatchResult) :
  indexOf separatorLine (cleanedText raw m) = None.
Proof.
  apply indexOf_None_trim. now apply (removeSeparators_clean (n := length (removeBlock raw m))).
Qed.

Lemma trimmedFrom_trim (x : jsstring) : trimmedFrom x (trim x).
Proof.
  split; [apply trim_split|]. split.
  - intros c r. apply trim_first.
  - intros r c. apply trim_last.
Qed.

(** The cleaned text, told without the replacement and the trimming:
    the separator lines are left out of the text around the block, and
    the white space at the two ends of the result is left out. *)
Lemma cleanedText_shape (raw : jsstring) (m : MatchResult) :
  exists stripped,
    withoutSeparators (removeBlock raw m) stripped
    /\ trimmedFrom stripped (cleanedText raw m).
Proof.
  exists (replaceAll separatorRegex [] (removeBlock raw m)). split.
  - now apply (@withoutSeparators_replaceAll (length (removeBlock raw m))).
  - apply trimmedFrom_trim.
Qed.

(** ** The claims on the extraction *)

(** C1.  When the pattern matches and the capture parses, [cleanText] is
    the raw text with the first match removed, the separator lines removed
    and the result trimmed (the separator lines left out from left to
    right, then the white space at the two ends, so that the text neither
    starts nor ends with white space); it holds no separator line; nothing
    is logged;
    and the distribution is the [sentiment_distribution] field of the
    parsed object whenever that field is truthy, whatever its shape.  On
    the example block the distribution is the example object. *)
Theorem C1_extract_parsed_block :
  forall (raw : jsstring) (m : MatchResult) (capture : jsstring)
         (parsed field : JSValue),
    String_match raw jsonRegex = Some m ->
    m_group m 1 = Some capture ->
    JSON_parse capture = inr parsed ->
    getProperty parsed sentimentKey = inr field ->
    truthy field = true ->
    extractSentiment raw = mkExtraction (cleanedText raw m) field []
    /\ (exists pre post,
          raw = pre ++ m_whole m ++ post
          /\ length pre = m_index m
          /\ (forall n, n < length pre -> matchAt jsonRegex n (skipn n raw) = None)
          /\ cleanedText raw m = trim (replaceAll separatorRegex [] (pre ++ post)))
    /\ indexOf separatorLine (cleanedText raw m) = None
    /\ (exists stripped,
          withoutSeparators (removeBlock raw m) stripped
          /\ trimmedFrom stripped (cleanedText raw m))
    /\ extractSentiment exampleReport
       = mkExtraction (js "# Report" ++ [LF] ++ js "Fine.") exampleDistribution [].
Proof.
  intros raw m capture parsed field Hm Hg Hp Hf Ht.
  split.
  { rewrite (@extract_parsed raw m capture parsed Hm Hg Hp).
    unfold distributionOf. now rewrite Hf, Ht. }
  split.
  { unfold String_match, exec in Hm.
    destruct (execFrom jsonRegex 0 raw) as [[[b e] caps]|] eqn:E; [|discriminate].
    injection Hm as <-. cbn [m_index m_whole] in *.
    apply execFrom_Some in E as (pre & w & post & -> & -> & -> & _ & _ & Hmin).
    cbn [Nat.add] in *. rewrite substring_app in *.
    exists pre, post. repeat split; try easy.
    unfold cleanedText, removeBlock. cbn [m_index m_whole].
    do 2 f_equal.
    rewrite firstn_app, firstn_all, Nat.sub_diag. cbn [firstn].
    rewrite app_nil_r. f_equal.
    rewrite app_assoc, <- length_app.
    now rewrite skipn_app, skipn_all, Nat.sub_diag. }
  split; [apply cleanedText_no_separator|].
  split; [apply cleanedText_shape|].
  by_computation.
Qed.

Lemma C1_extract_parsed_block_witness :
  extractSentiment exampleReport
  = mkExtraction (cleanedText exampleReport (matchOf exampleReport))
                 exampleDistribution []
  /\ cleanedText exampleReport (matchOf exampleReport)
     = js "# Report" ++ [LF] ++ js "Fine.".
Proof.
  split.
  - apply (@C1_extract_parsed_block exampleReport (matchOf exampleReport)
             exampleBlock (JSObject [(sentimentKey, exampleDistribution)])
             exampleDistribution);
      by_computation.
  - by_computation.
Defined.

(** The claim as written fails when the field is present and falsy: for
    the block whose field is [0] the pattern matches, the capture parses,
    the field of the parsed object is the number 0, and the distribution
    returned is [null]. *)
Lemma C1_falsy_field_counterexample :
  String_match (falsyReport "0") jsonRegex = Some (matchOf (falsyReport "0"))
  /\ m_group (matchOf (falsyReport "0")) 1 = Some (sentimentBlock (js "0"))
  /\ JSON_parse (sentimentBlock (js "0")) = inr (JSObject [(sentimentKey, JSNumber 0)])
  /\ getProperty (JSObject [(sentimentKey, JSNumber 0)]) sentimentKey
     = inr (JSNumber 0)
  /\ sentimentData (extractSentiment (falsyReport "0")) = JSNull
  /\ sentimentData (extractSentiment (falsyReport "0")) <> JSNumber 0.
Proof.
  repeat split; try (by_computation).
  vm_compute. discriminate.
Qed.

(** C2.  When the pattern matches and the capture is not valid JSON, the
    exception stays inside: the result is the raw text, unchanged and
    still holding the matched block, an absent distribution, and one
    logged diagnostic that carries the syntax error. *)
Theorem C2_malformed_json_is_caught :
  forall (raw : jsstring) (m : MatchResult) (capture : jsstring) (e : Exception),
    String_match raw jsonRegex = Some m ->
    m_group m 1 = Some capture ->
    JSON_parse capture = inl e ->
    extractSentiment raw
    = mkExtraction raw JSNull
        [mkDiagnostic (js "Failed to parse hidden sentiment JSON") SyntaxError]
    /\ e = SyntaxError
    /\ indexOf (m_whole m) (cleanText (extractSentiment raw)) = Some (m_index m).
Proof.
  intros raw m capture e Hm Hg Hp.
  assert (He : e = SyntaxError).
  { unfold JSON_parse in Hp.
    destruct (parseValue _ capture) as [v rest| |]; try congruence.
    destruct (skipWs rest); congruence. }
  subst e. rewrite (@extract_unparsed raw m capture SyntaxError Hm Hg Hp).
  repeat split. cbn [cleanText].
  apply jsonRegex_match in Hm
    as (pre & post & _ & _ & _ & _ & Hraw & Hidx & _ & _ & _ & _ & Hmin).
  rewrite Hidx. clear Hidx. generalize dependent (m_whole m). intros w -> Hmin.
  apply indexOf_Some. repeat split; try easy.
  - rewrite length_app. lia.
  - rewrite skipn_app, skipn_all, Nat.sub_diag. cbn [skipn app].
    apply startsWith_app.
Qed.

Lemma C2_malformed_json_is_caught_witness :
  extractSentiment (fenced trailingCommaBlock)
  = mkExtraction (fenced trailingCommaBlock) JSNull
      [mkDiagnostic (js "Failed to parse hidden sentiment JSON") SyntaxError]
  /\ SyntaxError = SyntaxError
  /\ indexOf (m_whole (matchOf (fenced trailingCommaBlock)))
             (cleanText (extractSentiment (fenced trailingCommaBlock)))
     = Some (m_index (matchOf (fenced trailingCommaBlock))).
Proof.
  apply (@C2_malformed_json_is_caught (fenced trailingCommaBlock)
           (matchOf (fenced trailingCommaBlock)) trailingCommaBlock SyntaxError);
    by_computation.
Defined.

(** C10.  When the pattern matches and the capture parses but the field
    is falsy, the distribution is absent and the block is removed all the
    same: [cleanText] is the cleaned text, which depends on the match
    alone: the raw text without the match, its separator lines left out
    and the white space at its two ends left out. *)
Theorem C10_falsy_field_still_removes_block :
  forall (raw : jsstring) (m : MatchResult) (capture : jsstring)
         (parsed field : JSValue),
    String_match raw jsonRegex = Some m ->
    m_group m 1 = Some capture ->
    JSON_parse capture = inr parsed ->
    getProperty parsed sentimentKey = inr field ->
    truthy field = false ->
    extractSentiment raw = mkExtraction (cleanedText raw m) JSNull []
    /\ cleanedText raw m
       = trim (replaceAll separatorRegex []
                 (firstn (m_index m) raw ++ skipn (m_index m + length (m_whole m)) raw))
    /\ indexOf separatorLine (cleanedText raw m) = None
    /\ (exists stripped,
          withoutSeparators (removeBlock raw m) stripped
          /\ trimmedFrom stripped (cleanedText raw m)).
Proof.
  intros raw m capture parsed field Hm Hg Hp Hf Ht.
  rewrite (@extract_parsed raw m capture parsed Hm Hg Hp).
  unfold distributionOf. rewrite Hf, Ht.
  split; [reflexivity|]. split; [reflexivity|].
  split; [apply cleanedText_no_separator | apply cleanedText_shape].
Qed.

Lemma C10_falsy_field_still_removes_block_witness :
  (extractSentiment (falsyReport "null") = mkExtraction (js "Text") JSNull []
   /\ extractSentiment (falsyReport "0") = mkExtraction (js "Text") JSNull []
   /\ extractSentiment (falsyReport "false") = mkExtraction (js "Text") JSNull []
   /\ extractSentiment (js " Text " ++ fenced (sentimentBlock [QUOTE; QUOTE]))
      = mkExtraction (js "Text") JSNull []).
Proof.
  split; [|split; [|split]].
  - apply (@C10_falsy_field_still_removes_block (falsyReport "null")
             (matchOf (falsyReport "null")) (sentimentBlock (js "null"))
             (JSObject [(sentimentKey, JSNull)]) JSNull); by_computation.
  - apply (@C10_falsy_field_still_removes_block (falsyReport "0")
             (matchOf (falsyReport "0")) (sentimentBlock (js "0"))
             (JSObject [(sentimentKey, JSNumber 0)]) (JSNumber 0));
      by_computation.
  - apply (@C10_falsy_field_still_removes_block (falsyReport "false")
             (matchOf (falsyReport "false")) (sentimentBlock (js "false"))
             (JSObject [(sentimentKey, JSBool false)]) (JSBool false));
      by_computation.
  - apply (@C10_falsy_field_still_removes_block
             (js " Text " ++ fenced (sentimentBlock [QUOTE; QUOTE]))
             (matchOf (js " Text " ++ fenced (sentimentBlock [QUOTE; QUOTE])))
             (sentimentBlock [QUOTE; QUOTE])
             (JSObject [(sentimentKey, JSString [])]) (JSString []));
      by_computation.
Defined.

(** A text without the opening fence, or without the quoted key, has no
    match. *)
Lemma indexOf_occurrence (p a b : jsstring) : indexOf p (a ++ p ++ b) <> None.
Proof.
  intros H. rewrite indexOf_None in H.
  specialize (H (length a)). rewrite length_app in H.
  rewrite skipn_app, skipn_all, Nat.sub_diag in H. cbn [skipn app] in H.
  rewrite startsWith_app in H. discriminate H. lia.
Qed.

Lemma unmatched_without_fence_or_key (raw : jsstring) :
  indexOf (js "```json") raw = None \/ indexOf quotedKey raw = None ->
  String_match raw jsonRegex = None.
Proof.
  intros H. destruct (String_match raw jsonRegex) as [m|] eqn:M; [|reflexivity].
  exfalso. apply jsonRegex_match in M
    as (pre & post & ws1 & b1 & b2 & ws2 & Hraw & _ & Hw & _).
  cbn zeta in Hw. rewrite Hw in Hraw. destruct H as [H|H]; revert H; rewrite Hraw.
  - rewrite <- !app_assoc. apply indexOf_occurrence.
  - replace (pre ++ (js "```json" ++ ws1 ++
                     (LBRACE :: b1 ++ quotedKey ++ b2 ++ [RBRACE]) ++ ws2 ++ js "```")
             ++ post)
      with ((pre ++ js "```json" ++ ws1 ++ LBRACE :: b1) ++ quotedKey ++
            (b2 ++ [RBRACE] ++ ws2 ++ js "```" ++ post)).
    + apply indexOf_occurrence.
    + repeat (rewrite <- ?app_assoc; cbn [app]). reflexivity.
Qed.

(** C4.  When the pattern has no match in the raw text, the result is the
    raw text itself, not trimmed, with an absent distribution and nothing
    logged; so it equals the raw text once both are trimmed. *)
Theorem C4_no_block_returns_raw :
  forall raw : jsstring,
    String_match raw jsonRegex = None ->
    extractSentiment raw = mkExtraction raw JSNull []
    /\ trim (cleanText (extractSentiment raw)) = trim raw.
Proof.
  intros raw H. rewrite (extract_unmatched raw H). now split.
Qed.

Lemma C4_no_block_returns_raw_witness :
  extractSentiment (js " plain text ") = mkExtraction (js " plain text ") JSNull []
  /\ trim (cleanText (extractSentiment (js " plain text "))) = trim (js " plain text ").
Proof.
  apply (C4_no_block_returns_raw (js " plain text ")).
  by_computation.
Defined.

(** The claim as written fails on a text with white space around it: no
    block is found, and the text comes back with its white space. *)
Lemma C4_not_trimmed_counterexample :
  String_match (js " plain text ") jsonRegex = None
  /\ cleanText (extractSentiment (js " plain text ")) = js " plain text "
  /\ trim (js " plain text ") = js "plain text"
  /\ cleanText (extractSentiment (js " plain text ")) <> trim (js " plain text ").
Proof.
  split; [by_computation|].
  split; [by_computation|].
  split; [by_computation|].
  vm_compute. discriminate.
Qed.

(** What the cleaned text is made of comes from the text around the
    block, and every match of the pattern holds the marks of a block. *)
Lemma occurs_In (c : char) (s : jsstring) : occurs c s = true <-> In c s.
Proof.
  unfold occurs. rewrite existsb_exists. split.
  - intros (x & Hx & E). apply char_eqb_eq in E. now subst x.
  - intros H. exists c. split; [exact H | apply char_eqb_refl].
Qed.

Lemma replaceAllFrom_In (r : regex) (c : char) (s : jsstring) : forall i skip,
  In c (replaceAllFrom r [] i skip s) -> In c s.
Proof.
  induction s as [|x t IH]; intros i skip; destruct skip as [|n];
    cbn [replaceAllFrom].
  - now destruct (matchAt r i []) as [[e caps]|].
  - easy.
  - destruct (matchAt r i (x :: t)) as [[e caps]|]; cbn [app].
    + destruct (Nat.leb e i).
      * intros [-> | H]; [now left | right; now apply IH in H].
      * intros H. right. now apply IH in H.
    + intros [-> | H]; [now left | right; now apply IH in H].
  - intros H. right. now apply IH in H.
Qed.

Lemma trim_In (c : char) (s : jsstring) : In c (trim s) -> In c s.
Proof.
  intros H. destruct (trim_split s) as (a & b & Hs & _). rewrite Hs.
  apply in_or_app. right. apply in_or_app. now left.
Qed.

Lemma cleanedText_In (raw : jsstring) (m : MatchResult) (c : char) :
  In c (cleanedText raw m) -> In c (removeBlock raw m).
Proof.
  unfold cleanedText, replaceAll. intros H.
  apply trim_In in H. now apply replaceAllFrom_In in H.
Qed.

Lemma match_blockMarks (s : jsstring) (m : MatchResult) (c : char) :
  String_match s jsonRegex = Some m -> In c blockMarks -> In c s.
Proof.
  intros M Hc.
  destruct (@jsonRegex_match s m M) as (pre & post & ws1 & b1 & b2 & ws2 & H).
  cbv zeta in H. destruct H as (Hs & _ & Hw & _).
  rewrite Hs, Hw. apply in_or_app. right. apply in_or_app. left.
  unfold blockMarks in Hc. cbn [In] in Hc.
  destruct Hc as [<- | [<- | [<- | [<- | []]]]].
  - apply in_or_app. left. now left.
  - apply in_or_app. right. apply in_or_app. right. apply in_or_app. left.
    now left.
  - apply in_or_app. right. apply in_or_app. right. apply in_or_app. left.
    right. apply in_or_app. right. apply in_or_app. left. now left.
  - apply in_or_app. right. apply in_or_app. right. apply in_or_app. left.
    right. apply in_or_app. right. apply in_or_app. right.
    apply in_or_app. right. now left.
Qed.

(** C3.  A second run on the [cleanText] of a first run changes nothing
    for a raw text with one block at most: a text in which the pattern
    has no match, or a text that lacks, outside its first match, one of
    the marks every block holds (the backtick, the braces, the double
    quote).  The text stays and the distribution is absent; when the
    first run logged nothing the pattern has no match in its [cleanText],
    and when it logged a parse error the second run gives what the first
    gave. *)
Theorem C3_second_run_on_single_block :
  forall raw : jsstring,
    (String_match raw jsonRegex = None
     \/ exists m c, String_match raw jsonRegex = Some m
                    /\ In c blockMarks
                    /\ occurs c (removeBlock raw m) = false) ->
    let first := extractSentiment raw in
    let second := extractSentiment (cleanText first) in
    cleanText second = cleanText first
    /\ sentimentData second = JSNull
    /\ (consoleErrors first = [] ->
        String_match (cleanText first) jsonRegex = None
        /\ consoleErrors second = [])
    /\ (consoleErrors first <> [] -> second = first).
Proof.
  intros raw H first second. subst first second.
  destruct (String_match raw jsonRegex) as [m|] eqn:M.
  2:{ rewrite (extract_unmatched raw M). cbn [cleanText consoleErrors].
      rewrite (extract_unmatched raw M). cbn [cleanText sentimentData consoleErrors].
      repeat split; easy. }
  destruct H as [H | (m' & c & Hm & Hc & Ho)]; [discriminate|].
  injection Hm as <-.
  destruct (@jsonRegex_match raw m M) as (pre & post & ws1 & b1 & b2 & ws2 & J).
  cbv zeta in J. destruct J as (_ & _ & _ & Hg & _).
  destruct (JSON_parse (LBRACE :: b1 ++ quotedKey ++ b2 ++ [RBRACE]))
    as [e|parsed] eqn:P.
  - rewrite (@extract_unparsed raw m _ e M Hg P). cbn [cleanText consoleErrors].
    rewrite (@extract_unparsed raw m _ e M Hg P).
    cbn [cleanText sentimentData consoleErrors]. repeat split; easy.
  - rewrite (@extract_parsed raw m _ parsed M Hg P). cbn [cleanText consoleErrors].
    assert (N : String_match (cleanedText raw m) jsonRegex = None).
    { destruct (String_match (cleanedText raw m) jsonRegex) as [m2|] eqn:M2;
        [|reflexivity].
      pose proof (@match_blockMarks _ m2 c M2 Hc) as Hin.
      apply cleanedText_In, occurs_In in Hin. congruence. }
    rewrite (extract_unmatched _ N). cbn [cleanText sentimentData consoleErrors].
    repeat split; easy.
Qed.

Lemma C3_second_run_on_single_block_witness :
  (String_match exampleReport jsonRegex = Some (matchOf exampleReport)
   /\ In BACKTICK blockMarks
   /\ occurs BACKTICK (removeBlock exampleReport (matchOf exampleReport)) = false)
  /\ cleanText (extractSentiment (cleanText (extractSentiment exampleReport)))
     = cleanText (extractSentiment exampleReport)
  /\ sentimentData (extractSentiment (cleanText (extractSentiment exampleReport)))
     = JSNull
  /\ (consoleErrors (extractSentiment exampleReport) = [] ->
      String_match (cleanText (extractSentiment exampleReport)) jsonRegex = None
      /\ consoleErrors (extractSentiment (cleanText (extractSentiment exampleReport)))
         = [])
  /\ (consoleErrors (extractSentiment exampleReport) <> [] ->
      extractSentiment (cleanText (extractSentiment exampleReport))
      = extractSentiment exampleReport).
Proof.
  assert (H : String_match exampleReport jsonRegex = Some (matchOf exampleReport)
              /\ In BACKTICK blockMarks
              /\ occurs BACKTICK (removeBlock exampleReport (matchOf exampleReport))
                 = false).
  { split; [by_computation|]. split; [now left | by_computation]. }
  split; [exact H|].
  apply (@C3_second_run_on_single_block exampleReport).
  right. exists (matchOf exampleReport), BACKTICK. exact H.
Defined.

(** The claim as written fails on a report with two blocks: the first run
    removes the first block only, the pattern still matches in its
    [cleanText], and the second run removes the second block and returns
    its distribution.  All the marks of a block occur outside the first
    match of this report. *)
Lemma C3_two_blocks_counterexample :
  cleanText (extractSentiment twoBlockReport)
  = js "and " ++ fenced (sentimentBlock (js "2"))
  /\ String_match (cleanText (extractSentiment twoBlockReport)) jsonRegex
     = Some (mkMatch 4 (fenced (sentimentBlock (js "2")))
                     [Some (sentimentBlock (js "2"))])
  /\ extractSentiment (cleanText (extractSentiment twoBlockReport))
     = mkExtraction (js "and") (JSNumber 2) []
  /\ cleanText (extractSentiment (cleanText (extractSentiment twoBlockReport)))
     <> cleanText (extractSentiment twoBlockReport)
  /\ sentimentData (extractSentiment (cleanText (extractSentiment twoBlockReport)))
     <> JSNull
  /\ forallb (fun c => occurs c (removeBlock twoBlockReport (matchOf twoBlockReport)))
             blockMarks = true.
Proof.
  split; [by_computation|].
  split; [by_computation|].
  split; [by_computation|].
  split; [vm_compute; discriminate|].
  split; [vm_compute; discriminate | by_computation].
Qed.

(** ** Lines *)

Lemma replaceString_prefix (p l : jsstring) :
  startsWith p l = true -> replaceString p [] l = skipn (length p) l.
Proof.
  intros H. unfold replaceString.
  assert (indexOf p l = Some 0) as -> by (destruct l; cbn [indexOf]; now rewrite H).
  reflexivity.
Qed.

(** A greedy run of white space before the end of the pattern takes all
    the white space there is. *)
Lemma star_greedy_accept (s : jsstring) : forall i caps,
  exists n, star true cls_s i s caps accept = Some (i + n, caps)
            /\ skipn n s = trimStart s.
Proof.
  induction s as [|c t IH]; intros i caps.
  - exists 0. cbn. now rewrite Nat.add_0_r.
  - cbn [star trimStart]. unfold cls_s at 1.
    destruct (isWhiteSpace c).
    + destruct (IH (S i) caps) as (n & -> & Hn).
      exists (S n). now rewrite Nat.add_succ_r.
    + exists 0. cbn. now rewrite Nat.add_0_r.
Qed.

(** The bullet pattern strips the marker and the white space after it. *)
Lemma replaceRegex_bullet (mk : char) (rest : jsstring) :
  cls_marker mk = true ->
  replaceRegex bulletRegex [] (mk :: SPACE :: rest) = trimStart rest.
Proof.
  intros Hmk. unfold replaceRegex, exec. cbn [execFrom].
  unfold matchAt, bulletRegex. cbn [rmatch Nat.eqb]. rewrite Hmk.
  change (cls_s SPACE) with true. cbn iota.
  destruct (star_greedy_accept rest 2 noCaptures) as (n & -> & Hn).
  cbn [firstn app]. now rewrite <- Hn.
Qed.

Lemma bullet_prefix (l : jsstring) :
  startsWith (js "- ") l || startsWith (js "* ") l || startsWith [EM_DASH; SPACE] l
  = match l with
    | mk :: sp :: _ => cls_marker mk && char_eqb sp SPACE
    | _ => false
    end.
Proof.
  destruct l as [|mk [|sp rest]]; cbn [startsWith js map list_ascii_of_string].
  - reflexivity.
  - now rewrite !andb_false_r.
  - rewrite !andb_true_r. unfold cls_marker.
    change (N_of_ascii "-") with HYPHEN. change (N_of_ascii "*") with ASTERISK.
    change (N_of_ascii " ") with SPACE.
    rewrite (N.eqb_sym HYPHEN mk : char_eqb HYPHEN mk = char_eqb mk HYPHEN).
    rewrite (N.eqb_sym ASTERISK mk : char_eqb ASTERISK mk = char_eqb mk ASTERISK).
    rewrite (N.eqb_sym EM_DASH mk : char_eqb EM_DASH mk = char_eqb mk EM_DASH).
    rewrite (N.eqb_sym SPACE sp : char_eqb SPACE sp = char_eqb sp SPACE).
    destruct (char_eqb mk HYPHEN), (char_eqb mk ASTERISK), (char_eqb mk EM_DASH),
      (char_eqb sp SPACE); reflexivity.
Qed.

Lemma splitOn_nonempty (sep : char) (s : jsstring) : splitOn sep s <> [].
Proof.
  destruct s as [|c s]; cbn [splitOn]; [easy|].
  destruct (char_eqb c sep); [easy|]. now destruct (splitOn sep s).
Qed.

Lemma splitOn_join (sep : char) (s : jsstring) :
  join [sep] (splitOn sep s) = s.
Proof.
  induction s as [|c s IH]; [reflexivity|]. cbn [splitOn].
  assert (Hne := splitOn_nonempty sep s).
  destruct (splitOn sep s) as [|p ps]; [easy|].
  destruct (char_eqb c sep) eqn:E.
  - apply char_eqb_eq in E as ->.
    change (join [sep] ([] :: p :: ps)) with (sep :: join [sep] (p :: ps)).
    now rewrite IH.
  - rewrite <- IH. now destruct ps.
Qed.

Lemma splitOn_no_sep (sep : char) (s : jsstring) :
  Forall (fun piece => ~ In sep piece) (splitOn sep s).
Proof.
  induction s as [|c s IH]; cbn [splitOn].
  - constructor; [easy | constructor].
  - destruct (char_eqb c sep) eqn:E.
    + constructor; easy.
    + destruct (splitOn sep s) as [|p ps]; [repeat constructor; cbn|].
      * intros [-> | []]. now rewrite char_eqb_refl in E.
      * inversion IH; subst. constructor; [|easy].
        intros [-> | H]; [now rewrite char_eqb_refl in E | easy].
Qed.

Lemma marker_not_hash (mk : char) :
  cls_marker mk = true -> char_eqb HASH mk = false.
Proof.
  unfold cls_marker. intros H.
  apply orb_true_iff in H as [H|H]; [apply orb_true_iff in H as [H|H]|];
    apply char_eqb_eq in H; now subst mk.
Qed.

(** C5.  [renderFormattedText] renders the pieces between line feeds, one
    block a piece, each classified on its trimmed text: a heading of level
    1, 2 or 3 for the prefixes of one, two or three hashes and a space,
    its text being what follows the prefix; a bullet item for a marker
    (hyphen, asterisk or em dash) and a space, its spans being those of
    the text after the marker and the white space that follows it; a
    spacer for the empty text; a paragraph with the spans of the trimmed
    text otherwise. *)
Theorem C5_line_classification :
  forall text : jsstring,
    renderFormattedText text = map renderLine (splitOn LF text)
    /\ join [LF] (splitOn LF text) = text
    /\ Forall (fun piece => ~ In LF piece) (splitOn LF text)
    /\ (forall line rest,
          trim line = js "# " ++ rest -> renderLine line = Heading 1 rest)
    /\ (forall line rest,
          trim line = js "## " ++ rest -> renderLine line = Heading 2 rest)
    /\ (forall line rest,
          trim line = js "### " ++ rest -> renderLine line = Heading 3 rest)
    /\ (forall line mk rest,
          trim line = mk :: SPACE :: rest -> cls_marker mk = true ->
          replaceRegex bulletRegex [] (trim line) = trimStart rest
          /\ renderLine line = BulletItem (renderSpans (trimStart rest)))
    /\ (forall line, trim line = [] -> renderLine line = Spacer)
    /\ (forall line,
          trim line <> [] ->
          startsWith (js "# ") (trim line) = false ->
          startsWith (js "## ") (trim line) = false ->
          startsWith (js "### ") (trim line) = false ->
          startsWith (js "- ") (trim line) = false ->
          startsWith (js "* ") (trim line) = false ->
          startsWith [EM_DASH; SPACE] (trim line) = false ->
          renderLine line = Paragraph (renderSpans (trim line)))
    /\ renderFormattedText sixKindsText
       = [ Heading 1 (js "Title"); Heading 2 (js "Part"); Heading 3 (js "Point");
           BulletItem [PlainText (js "one")]; BulletItem [PlainText (js "two")];
           BulletItem [PlainText (js "three")]; Spacer;
           Paragraph [PlainText (js "plain # text")] ].
Proof.
  intros text.
  split; [reflexivity|].
  split; [apply splitOn_join|].
  split; [apply splitOn_no_sep|].
  split.
  { intros line rest H. unfold renderLine. rewrite H.
    rewrite startsWith_app, replaceString_prefix by apply startsWith_app.
    reflexivity. }
  split.
  { intros line rest H. unfold renderLine. rewrite H.
    change (startsWith (js "# ") (js "## " ++ rest)) with false. cbn iota.
    rewrite startsWith_app, replaceString_prefix by apply startsWith_app.
    reflexivity. }
  split.
  { intros line rest H. unfold renderLine. rewrite H.
    change (startsWith (js "# ") (js "### " ++ rest)) with false.
    change (startsWith (js "## ") (js "### " ++ rest)) with false. cbn iota.
    rewrite startsWith_app, replaceString_prefix by apply startsWith_app.
    reflexivity. }
  split.
  { intros line mk rest H Hmk.
    rewrite H. split; [now apply replaceRegex_bullet|].
    unfold renderLine. rewrite H.
    assert (Hh : startsWith (js "# ") (mk :: SPACE :: rest) = false).
    { cbn [startsWith js map list_ascii_of_string].
      change (N_of_ascii "#") with HASH. now rewrite marker_not_hash. }
    assert (Hh2 : startsWith (js "## ") (mk :: SPACE :: rest) = false).
    { cbn [startsWith js map list_ascii_of_string].
      change (N_of_ascii "#") with HASH. now rewrite marker_not_hash. }
    assert (Hh3 : startsWith (js "### ") (mk :: SPACE :: rest) = false).
    { cbn [startsWith js map list_ascii_of_string].
      change (N_of_ascii "#") with HASH. now rewrite marker_not_hash. }
    rewrite Hh, Hh2, Hh3, bullet_prefix, Hmk.
    change (char_eqb SPACE SPACE) with true. cbn [andb].
    now rewrite replaceRegex_bullet. }
  split.
  { intros line H. unfold renderLine. now rewrite H. }
  split; [|by_computation].
  intros line Hne H1 H2 H3 H4 H5 H6. unfold renderLine.
  rewrite H1, H2, H3, H4, H5, H6. cbn [orb].
  destruct (jsstring_eqb (trim line) []) eqn:E; [|reflexivity].
  now apply jsstring_eqb_eq in E.
Qed.

(** ** Bold spans *)

(** A lazy run stops at the first index at which the continuation
    succeeds. *)
Lemma star_lazy_sound (p : char -> bool) (s : jsstring) : forall i caps k res,
  star false p i s caps k = Some res ->
  exists w s', s = w ++ s' /\ forallb p w = true
               /\ k (i + length w) s' caps = Some res
               /\ forall n, n < length w -> k (i + n) (skipn n s) caps = None.
Proof.
  induction s as [|c t IH]; intros i caps k res H; cbn [star] in H.
  - destruct (k i [] caps) eqn:Hk; [|discriminate]. injection H as <-.
    exists [], []. cbn. rewrite Nat.add_0_r. repeat split; first [easy | intros; lia].
  - destruct (k i (c :: t) caps) eqn:Hk.
    + injection H as <-. exists [], (c :: t). cbn. rewrite Nat.add_0_r.
      repeat split; first [easy | intros; lia].
    + destruct (p c) eqn:Hp; [|discriminate].
      apply IH in H as (w & s' & -> & Hw & Hres & Hmin).
      exists (c :: w), s'. cbn [app forallb length]. rewrite Hp, Hw.
      rewrite Nat.add_succ_r. repeat split; try easy.
      intros [|n] Hn; [now rewrite Nat.add_0_r|].
      rewrite Nat.add_succ_r. apply Hmin. cbn in Hn. lia.
Qed.

(** A match of the bold pattern: two asterisks, a run without line
    terminators that ends at the first pair of asterisks after the opening
    one, and that pair; group 1 spans the whole match. *)
Lemma matchAt_bold (i : nat) (s : jsstring) (e : nat) (caps : captures) :
  matchAt boldRegex i s = Some (e, caps) ->
  exists x s',
    s = boldMark ++ x ++ boldMark ++ s'
    /\ forallb cls_dot x = true
    /\ e = i + length (boldMark ++ x ++ boldMark)
    /\ caps 1 = Some (i, e)
    /\ indexOf boldMark (x ++ boldMark ++ s') = Some (length x).
Proof.
  unfold matchAt, boldRegex. cbn [rmatch]. rewrite rmatch_lit.
  destruct (startsWith (js "**") s) eqn:E1; [|discriminate].
  apply startsWith_skipn in E1. change (length (js "**")) with 2 in *.
  intros H. apply star_lazy_sound in H as (x & s2 & Hs & Hx & H & Hmin).
  rewrite rmatch_lit in H.
  destruct (startsWith (js "**") s2) eqn:E2; [|discriminate].
  apply startsWith_skipn in E2. change (length (js "**")) with 2 in *.
  injection H as <- <-.
  exists x, (skipn 2 s2). unfold boldMark.
  rewrite <- E2, <- Hs. repeat split; try easy.
  - rewrite !length_app. cbn [length js map list_ascii_of_string]. lia.
  - apply indexOf_Some. repeat split.
    + rewrite Hs, length_app. lia.
    + rewrite Hs, skipn_app, skipn_all, Nat.sub_diag. cbn [skipn app].
      rewrite E2. apply startsWith_app.
    + intros n Hn. specialize (Hmin n Hn). rewrite rmatch_lit in Hmin.
      now destruct (startsWith (js "**") (skipn n (skipn 2 s))).
Qed.

Lemma skipn_tail_of_app (A : Type) (c : A) (t w s' : list A) :
  c :: t = w ++ s' -> 1 <= length w ->
  skipn (length w - 1) t = s' /\ length w - 1 <= length t.
Proof.
  destruct w as [|c' w']; cbn [length app]; [lia|].
  intros [= -> ->] _. replace (S (length w') - 1) with (length w') by lia.
  rewrite skipn_app, skipn_all, Nat.sub_diag, length_app. cbn. split; [easy | lia].
Qed.

Lemma lang_bold (i : nat) (w : jsstring) :
  lang boldRegex i w <->
  exists x, w = boldMark ++ x ++ boldMark /\ forallb cls_dot x = true.
Proof.
  unfold boldRegex. cbn [lang]. split.
  - intros (w1 & w2 & -> & L1 & x & w3 & -> & Hx & L3).
    apply lang_lit in L1, L3. subst. now exists x.
  - intros (x & -> & Hx). exists boldMark, (x ++ boldMark).
    repeat split; [now apply lang_lit|].
    exists x, boldMark. repeat split; [easy | now apply lang_lit].
Qed.

Lemma matchAt_bold_None (i : nat) (s : jsstring) :
  matchAt boldRegex i s = None <-> ~ boldAt s.
Proof.
  split.
  - intros H (x & s' & -> & Hx). revert H.
    rewrite 2 app_assoc, <- (app_assoc boldMark).
    apply matchAt_complete, lang_bold. now exists x.
  - intros H. destruct (matchAt boldRegex i s) as [[e caps]|] eqn:M; [|easy].
    exfalso. apply H. apply matchAt_bold in M as (x & s' & -> & Hx & _).
    now exists x, s'.
Qed.

Lemma splitFrom_skip (r : regex) (g : nat) (s : jsstring) : forall i p skip cur,
  skip <= length s ->
  splitFrom r g i p skip cur s = splitFrom r g (i + skip) p 0 cur (skipn skip s).
Proof.
  induction s as [|c t IH]; intros i p skip cur H.
  - cbn in H. assert (skip = 0) as -> by lia. now rewrite Nat.add_0_r.
  - destruct skip as [|n]; [now rewrite Nat.add_0_r|].
    cbn [splitFrom skipn]. rewrite IH by (cbn in H; lia).
    now rewrite Nat.add_succ_r.
Qed.

Lemma boldSplit_cons (c : char) (t piece : jsstring) (parts : list jsstring) :
  ~ boldAt (c :: t) ->
  boldSplit t (piece :: parts) -> boldSplit (c :: t) ((c :: piece) :: parts).
Proof.
  intros Hc H. inversion H as [s Hs | piece' x rest parts' Hp Hx Hl Hr]; subst.
  - apply split_end. intros [|n] Hn; [easy|]. apply Hs. cbn in Hn. lia.
  - change (c :: piece ++ boldMark ++ x ++ boldMark ++ rest)
      with ((c :: piece) ++ boldMark ++ x ++ boldMark ++ rest).
    apply split_sep; try easy.
    intros [|n] Hn; [easy|]. apply Hp. cbn in Hn. lia.
Qed.

(** The scan and the split of the spec agree, whatever the piece under
    way. *)
Lemma splitFrom_boldSplit (n : nat) : forall s i p cur,
  length s <= n -> p <= i ->
  exists piece parts,
    boldSplit s (piece :: parts)
    /\ splitFrom boldRegex 1 i p 0 cur s = (cur ++ piece) :: parts.
Proof.
  induction n as [|n IH]; intros s i p cur Hn Hp.
  - destruct s; [|cbn in Hn; lia]. exists [], []. cbn. rewrite app_nil_r.
    split; [|reflexivity]. apply split_end. cbn. lia.
  - destruct s as [|c t].
    + exists [], []. cbn. rewrite app_nil_r.
      split; [|reflexivity]. apply split_end. cbn. lia.
    + cbn [splitFrom]. cbn [length] in Hn.
      destruct (matchAt boldRegex i (c :: t)) as [[e caps]|] eqn:M.
      * apply matchAt_bold in M as (x & s' & Hs & Hx & -> & Hcap & Hlazy).
        set (w := boldMark ++ x ++ boldMark) in *.
        assert (Hlen : 4 <= length w)
          by (unfold w; rewrite !length_app; cbn; lia).
        assert (Nat.eqb (i + length w) p = false) as -> by (apply Nat.eqb_neq; lia).
        assert (Nat.leb (i + length w) i = false) as -> by (apply Nat.leb_gt; lia).
        assert (Hcs : c :: t = w ++ s')
          by (unfold w; now rewrite <- !app_assoc).
        assert (Hcapture : captureText i (c :: t) caps 1 = w).
        { unfold captureText. rewrite Hcap, Nat.sub_diag. cbn [skipn].
          replace (i + length w - i) with (length w) by lia.
          now rewrite Hcs, firstn_app, firstn_all, Nat.sub_diag, app_nil_r. }
        cbn [seq map app]. rewrite Hcapture.
        destruct (@skipn_tail_of_app _ c t w s' Hcs ltac:(lia)) as [Hrest Hle].
        replace (length w - 1) with (i + length w - S i) in Hrest, Hle by lia.
        rewrite splitFrom_skip, Hrest by easy.
        assert (Hs' : length s' <= n).
        { apply (f_equal (@length _)) in Hcs. rewrite length_app in Hcs.
          cbn [length] in Hcs. lia. }
        destruct (IH s' (S i + (i + length w - S i)) (i + length w) [] Hs')
          as (piece' & parts' & Hsplit & ->); [lia|].
        exists [], (w :: piece' :: parts'). rewrite app_nil_r. cbn [app].
        split; [|reflexivity]. rewrite Hs.
        apply (@split_sep [] x s' (piece' :: parts')); first [easy | cbn; lia].
      * apply matchAt_bold_None in M.
        destruct (IH t (S i) p (cur ++ [c])) as (piece' & parts' & Hsplit & ->);
          [lia | lia |].
        exists (c :: piece'), parts'. rewrite <- app_assoc.
        split; [now apply boldSplit_cons | reflexivity].
Qed.

Lemma splitRegex_boldSplit (content : jsstring) :
  boldSplit content (splitRegex boldRegex content).
Proof.
  unfold splitRegex. destruct content as [|c t].
  - cbn. apply split_end. cbn. lia.
  - change (groupCount boldRegex) with 1.
    destruct (@splitFrom_boldSplit (length (c :: t)) (c :: t) 0 0 [])
      as (piece & parts & H & ->); [lia | lia |].
    exact H.
Qed.

Lemma boldSplit_concat (s : jsstring) (parts : list jsstring) :
  boldSplit s parts -> concat parts = s.
Proof.
  induction 1 as [s _ | piece x rest parts _ _ _ _ IH]; cbn [concat].
  - apply app_nil_r.
  - rewrite IH. now rewrite <- !app_assoc.
Qed.

Lemma endsWith_iff (p s : jsstring) :
  endsWith p s = true <-> exists t, s = t ++ p.
Proof.
  unfold endsWith. rewrite startsWith_iff. split.
  - intros [t Ht]. exists (rev t).
    rewrite <- (rev_involutive s), Ht, rev_app_distr. now rewrite rev_involutive.
  - intros [t ->]. exists (rev t). apply rev_app_distr.
Qed.

Lemma slice_2_2 (s : jsstring) :
  slice s 2 (-2) = firstn (length s - 4) (skipn 2 s).
Proof.
  unfold slice. cbn [Z.ltb Z.compare].
  destruct (Nat.le_gt_cases 4 (length s)) as [H|H].
  - rewrite Z.min_l, Z.max_l by lia. f_equal. lia.
  - replace (length s - 4) with 0 by lia.
    replace (Z.to_nat _) with 0; [reflexivity|]. lia.
Qed.

(** The text between the delimiters. *)
Lemma slice_bold (x : jsstring) : slice (boldMark ++ x ++ boldMark) 2 (-2) = x.
Proof.
  rewrite slice_2_2, !length_app. cbn [length boldMark js map list_ascii_of_string app skipn].
  replace (2 + (length x + 2) - 4) with (length x) by lia.
  now rewrite firstn_app, firstn_all, Nat.sub_diag, app_nil_r.
Qed.

Lemma renderPart_bold (x : jsstring) :
  renderPart (boldMark ++ x ++ boldMark) = Emphasized x.
Proof.
  unfold renderPart. rewrite startsWith_app.
  assert (endsWith boldMark (boldMark ++ x ++ boldMark) = true) as ->.
  { apply endsWith_iff. exists (boldMark ++ x). now rewrite <- app_assoc. }
  cbn [andb]. now rewrite slice_bold.
Qed.

(** A fragment of four code units or more between two delimiters. *)
Lemma bold_fragment (part : jsstring) :
  startsWith boldMark part = true -> endsWith boldMark part = true ->
  4 <= length part ->
  part = boldMark ++ slice part 2 (-2) ++ boldMark.
Proof.
  intros Hs He Hl. apply startsWith_iff in Hs as [r Hr].
  apply endsWith_iff in He as [q Hq].
  assert (Hlr : 2 <= length r).
  { subst part. rewrite length_app in Hl. cbn in Hl. lia. }
  assert (Hrq : r = firstn (length r - 2) r ++ boldMark).
  { rewrite <- (firstn_skipn (length r - 2) r) at 1. f_equal.
    assert (H : skipn (length part - 2) part = boldMark).
    { rewrite Hq, length_app. cbn [length boldMark js map list_ascii_of_string].
      replace (length q + 2 - 2) with (length q) by lia.
      now rewrite skipn_app, skipn_all, Nat.sub_diag. }
    rewrite Hr in H. rewrite length_app in H.
    cbn [length boldMark js map list_ascii_of_string] in H.
    rewrite skipn_app in H. cbn [length] in H.
    replace (2 + length r - 2 - 2) with (length r - 2) in H by lia.
    rewrite skipn_all2 in H by (cbn; lia). exact H. }
  rewrite slice_2_2. clear Hq. subst part. f_equal.
  change (skipn 2 (boldMark ++ r)) with r.
  rewrite length_app. change (length boldMark) with 2.
  replace (2 + length r - 4) with (length r - 2) by lia.
  exact Hrq.
Qed.

Lemma slice_short (part : jsstring) :
  length part < 4 -> slice part 2 (-2) = [].
Proof.
  intros H. rewrite slice_2_2. now replace (length part - 4) with 0 by lia.
Qed.

(** C6.  The spans of a content are the parts of its split on the bold
    pattern, rendered one by one.  The split is the one of the spec: the
    content is cut at every match, from left to right, a match being two
    asterisks, a run without line terminators that stops at the first
    following pair of asterisks, and that pair; pieces of text alternate
    with matches and put together they are the content.  A part is emphasized
    exactly when it starts and ends with two asterisks, its text being
    the part without its first and last two code units, and plain with
    its text unchanged otherwise; every separator is emphasized; and an
    empty part is a plain span that shows nothing. *)
Theorem C6_bold_spans :
  forall content : jsstring,
    renderSpans content = map renderPart (splitRegex boldRegex content)
    /\ boldSplit content (splitRegex boldRegex content)
    /\ concat (splitRegex boldRegex content) = content
    /\ (forall part text,
          renderPart part = Emphasized text <->
          startsWith boldMark part = true /\ endsWith boldMark part = true
          /\ text = slice part 2 (-2))
    /\ (forall part text,
          renderPart part = PlainText text <->
          startsWith boldMark part && endsWith boldMark part = false
          /\ text = part)
    /\ (forall part,
          startsWith boldMark part = true -> endsWith boldMark part = true ->
          (4 <= length part -> part = boldMark ++ slice part 2 (-2) ++ boldMark)
          /\ (length part < 4 -> slice part 2 (-2) = []))
    /\ (forall x, renderPart (boldMark ++ x ++ boldMark) = Emphasized x)
    /\ renderPart [] = PlainText []
    /\ (forall spans, textContent (PlainText [] :: spans) = textContent spans)
    /\ (forall spans, visibleSpans (PlainText [] :: spans) = visibleSpans spans)
    /\ renderSpans (js "Some **bold** text")
       = [PlainText (js "Some "); Emphasized (js "bold"); PlainText (js " text")].
Proof.
  intros content.
  split; [reflexivity|].
  split; [apply splitRegex_boldSplit|].
  split; [apply boldSplit_concat, splitRegex_boldSplit|].
  split.
  { intros part text. unfold renderPart.
    destruct (startsWith boldMark part), (endsWith boldMark part); cbn [andb];
      split; try easy.
    - now intros [= <-].
    - now intros (_ & _ & ->). }
  split.
  { intros part text. unfold renderPart.
    destruct (startsWith boldMark part), (endsWith boldMark part); cbn [andb];
      split; try easy; try (now intros [= <-]); now intros (_ & ->). }
  split.
  { intros part Hs He. split; [now apply bold_fragment | apply slice_short]. }
  split.
  { apply renderPart_bold. }
  split; [reflexivity|].
  split; [reflexivity|].
  split; [reflexivity|].
  by_computation.
Qed.

(** C9.  The two lines give two bullet items.  The second has three
    spans: the split puts an empty piece before a separator that opens the
    content, so an empty plain span comes first; the spans that show
    something are the emphasized [item] and the plain [ two]. *)
Theorem C9_bullet_example :
  renderFormattedText (js "- item one" ++ [LF] ++ js "- **item** two")
  = [ BulletItem [PlainText (js "item one")];
      BulletItem [PlainText []; Emphasized (js "item"); PlainText (js " two")] ]
  /\ visibleSpans [PlainText []; Emphasized (js "item"); PlainText (js " two")]
     = [Emphasized (js "item"); PlainText (js " two")]
  /\ splitRegex boldRegex (js "**item** two") = [[]; js "**item**"; js " two"].
Proof.
  repeat split; by_computation.
Qed.

(** The claim as written fails: the spans of the second item are not the
    two spans it lists, an empty plain span precedes them. *)
Lemma C9_leading_empty_span_counterexample :
  nth 1 (renderFormattedText (js "- item one" ++ [LF] ++ js "- **item** two")) Spacer
  = BulletItem [PlainText []; Emphasized (js "item"); PlainText (js " two")]
  /\ nth 1 (renderFormattedText (js "- item one" ++ [LF] ++ js "- **item** two")) Spacer
     <> BulletItem [Emphasized (js "item"); PlainText (js " two")].
Proof.
  split; [by_computation|]. vm_compute. discriminate.
Qed.

(** ** The pie chart *)

(** The loop unrolled: the segments in source order and the running
    angle. *)
Lemma pieLoop_unrolled (data : NumberRecord) :
  let d5 := sweep (valueOrZero data (js "5")) in
  let d4 := sweep (valueOrZero data (js "4")) in
  let d3 := sweep (valueOrZero data (js "3")) in
  let d2 := sweep (valueOrZero data (js "2")) in
  let d1 := sweep (valueOrZero data (js "1")) in
  (pieLoop data =
   (0 + d5 + d4 + d3 + d2 + d1,
    [ mkSegment (colors (js "5")) 0 (0 + d5);
      mkSegment (colors (js "4")) (0 + d5) (0 + d5 + d4);
      mkSegment (colors (js "3")) (0 + d5 + d4) (0 + d5 + d4 + d3);
      mkSegment (colors (js "2")) (0 + d5 + d4 + d3) (0 + d5 + d4 + d3 + d2);
      mkSegment (colors (js "1")) (0 + d5 + d4 + d3 + d2)
                                  (0 + d5 + d4 + d3 + d2 + d1) ]))%float.
Proof. reflexivity. Qed.


(** C8.  For the distribution with the single entry 5 -> 100 there are
    five segments: the one of the star-5 colour, from 0 to 360 degrees,
    which is the only one of non-zero width, and four empty ones at 360;
    for the empty distribution all five segments are empty, at 0. *)
Theorem C8_pie_examples :
  pieSegments [(js "5", 100%float)]
  = [ mkSegment (js "#10b981") 0 360;
      mkSegment (js "#34d399") 360 360;
      mkSegment (js "#facc15") 360 360;
      mkSegment (js "#fb923c") 360 360;
      mkSegment (js "#f87171") 360 360 ]
  /\ filter (fun sg => negb (zeroWidth sg)) (pieSegments [(js "5", 100%float)])
     = [ mkSegment (colors (js "5")) 0 360 ]
  /\ pieSegments []
     = [ mkSegment (js "#10b981") 0 0;
         mkSegment (js "#34d399") 0 0;
         mkSegment (js "#facc15") 0 0;
         mkSegment (js "#fb923c") 0 0;
         mkSegment (js "#f87171") 0 0 ]
  /\ length (pieSegments [(js "5", 100%float)]) = 5
  /\ length (pieSegments []) = 5
  /\ forallb zeroWidth (pieSegments []) = true.
Proof.
  repeat split; by_computation.
Qed.

(** The claim as written fails on the number of segments: the loop pushes
    a part for each of the five keys, so the entry 5 -> 100 gives five
    segments, four of them of zero width, and not the single segment from
    0 to 360. *)
Lemma C8_single_segment_counterexample :
  length (pieSegments [(js "5", 100%float)]) = 5
  /\ length (pieSegments [(js "5", 100%float)]) <> 1
  /\ pieSegments [(js "5", 100%float)] <> [mkSegment (colors (js "5")) 0 360]
  /\ map zeroWidth (pieSegments [(js "5", 100%float)])
     = [false; true; true; true; true].
Proof.
  split; [by_computation|]. split; [vm_compute; discriminate|].
  split; [|by_computation].
  intros H. apply (f_equal (@length Segment)) in H. vm_compute in H. discriminate.
Qed.


(** * Further properties *)

(** ** The download names *)

Lemma replaceAllFrom_skipn (r : regex) (rep s : jsstring) : forall i n,
  n <= length s ->
  replaceAllFrom r rep i n s = replaceAllFrom r rep (i + n) 0 (skipn n s).
Proof.
  induction s as [|c s IH]; intros i n H.
  - cbn in H. assert (n = 0) as -> by lia. now rewrite Nat.add_0_r.
  - destruct n as [|n]; [now rewrite Nat.add_0_r|].
    cbn [replaceAllFrom skipn]. rewrite IH by (cbn in H; lia).
    now rewrite Nat.add_succ_r.
Qed.

Lemma star_greedy_run (s : jsstring) : forall i caps,
  exists n, star true cls_s i s caps accept = Some (i + n, caps)
            /\ n <= length s /\ skipn n s = trimStart s.
Proof.
  induction s as [|c t IH]; intros i caps.
  - exists 0. cbn. now rewrite Nat.add_0_r.
  - cbn [star trimStart]. change (cls_s c) with (isWhiteSpace c).
    destruct (isWhiteSpace c).
    + destruct (IH (S i) caps) as (n & -> & Hl & Hn).
      exists (S n). rewrite Nat.add_succ_r. cbn [length skipn].
      repeat split; [lia | easy].
    + exists 0. cbn [accept skipn]. rewrite Nat.add_0_r.
      repeat split. lia.
Qed.

(** An attempt of the white-space pattern: it fails on a code unit that is
    not white space and takes the whole run otherwise. *)
Lemma matchAt_whitespaceRun (i : nat) (s : jsstring) :
  match s with
  | c :: t =>
      if isWhiteSpace c then
        exists n, matchAt whitespaceRunRegex i s = Some (S i + n, noCaptures)
                  /\ n <= length t /\ skipn n t = trimStart t
      else matchAt whitespaceRunRegex i s = None
  | [] => matchAt whitespaceRunRegex i s = None
  end.
Proof.
  destruct s as [|c t]; [reflexivity|].
  unfold matchAt, whitespaceRunRegex. cbn [rmatch].
  change (cls_s c) with (isWhiteSpace c).
  destruct (isWhiteSpace c); [|reflexivity].
  destruct (star_greedy_run t (S i) noCaptures) as (n & -> & Hl & Hn).
  now exists n.
Qed.

Lemma collapse_trimStart (t : jsstring) :
  collapse true t = collapse false (trimStart t).
Proof.
  induction t as [|c t IH]; [reflexivity|]. cbn [collapse trimStart].
  destruct (isWhiteSpace c) eqn:E; [exact IH|].
  cbn [collapse]. now rewrite E.
Qed.

Lemma underscored_from (n : nat) : forall s i,
  length s <= n ->
  replaceAllFrom whitespaceRunRegex [UNDERSCORE] i 0 s = collapse false s.
Proof.
  induction n as [|n IH]; intros s i Hn.
  - destruct s; [reflexivity | cbn in Hn; lia].
  - destruct s as [|c t]; [reflexivity|].
    assert (M := matchAt_whitespaceRun i (c :: t)). cbn iota in M.
    cbn [replaceAllFrom collapse]. cbn [length] in Hn.
    destruct (isWhiteSpace c).
    + destruct M as (k & -> & Hk & Ht).
      assert (Nat.leb (S i + k) i = false) as -> by (apply Nat.leb_gt; lia).
      replace (S i + k - S i) with k by lia. cbn [app]. f_equal.
      rewrite replaceAllFrom_skipn, Ht by easy.
      rewrite collapse_trimStart. apply IH.
      rewrite <- Ht, length_skipn. lia.
    + rewrite M. f_equal. apply IH. lia.
Qed.

(** The replacement of the source is the collapse of the runs. *)
Lemma underscored_collapse (name : jsstring) :
  underscored name = collapse false name.
Proof. apply (@underscored_from (length name)). lia. Qed.

Lemma collapse_no_whitespace (s : jsstring) : forall inRun,
  noWhiteSpace (collapse inRun s) = true.
Proof.
  unfold noWhiteSpace.
  induction s as [|c t IH]; intros inRun; [reflexivity|]. cbn [collapse].
  destruct (isWhiteSpace c) eqn:E.
  - destruct inRun; [apply IH|]. cbn [forallb]. now rewrite IH.
  - cbn [forallb]. now rewrite E, IH.
Qed.

Lemma collapse_unchanged (s : jsstring) :
  noWhiteSpace s = true -> collapse false s = s.
Proof.
  unfold noWhiteSpace.
  induction s as [|c t IH]; [reflexivity|]. cbn [forallb collapse].
  intros H. apply andb_true_iff in H as [Hc H].
  apply negb_true_iff in Hc. rewrite Hc. now rewrite IH.
Qed.

Lemma collapse_length (s : jsstring) : forall inRun,
  length (collapse inRun s) <= length s.
Proof.
  induction s as [|c t IH]; intros inRun; [reflexivity|]. cbn [collapse].
  destruct (isWhiteSpace c); [destruct inRun|]; cbn [length];
    specialize (IH true) as H1; specialize (IH false) as H2; lia.
Qed.

(** ** [encodeURIComponent] *)

Ltac Zify.zify_post_hook ::= Z.to_euclidean_division_equations.

Ltac bool_to_prop :=
  repeat match goal with
    | H : _ && _ = true |- _ => apply andb_true_iff in H as [? ?]
    | H : _ || _ = true |- _ => apply orb_true_iff in H
    | H : _ || _ = false |- _ => apply orb_false_iff in H as [? ?]
    | H : negb _ = true |- _ => apply negb_true_iff in H
    | H : (_ <=? _)%N = true |- _ => apply N.leb_le in H
    | H : (_ <=? _)%N = false |- _ => apply N.leb_gt in H
    | H : (_ <? _)%N = true |- _ => apply N.ltb_lt in H
    | H : (_ <? _)%N = false |- _ => apply N.ltb_ge in H
    | H : (_ =? _)%N = true |- _ => apply N.eqb_eq in H
    | H : (_ =? _)%N = false |- _ => apply N.eqb_neq in H
    end.

Lemma unreserved_bounds (c : char) :
  isUnreserved c = true -> (33 <= c <= 126)%N /\ c <> 37%N.
Proof.
  unfold isUnreserved. intros H.
  repeat (apply orb_true_iff in H as [H|H]); bool_to_prop; lia.
Qed.

Lemma unreserved_not_surrogate (c : char) :
  isUnreserved c = true -> isHighSurrogate c = false /\ isLowSurrogate c = false.
Proof.
  intros H. apply unreserved_bounds in H as [H _].
  unfold isHighSurrogate, isLowSurrogate. split; apply andb_false_iff; left;
    apply N.leb_gt; lia.
Qed.

Lemma hexDigit_safe (n : N) : (n < 16)%N -> isUnreserved (hexDigit n) = true.
Proof.
  intros H. unfold hexDigit, isUnreserved.
  destruct (N.ltb_spec n 10).
  - assert ((48 <=? 48 + n)%N && (48 + n <=? 57)%N = true) as ->; [|now rewrite !orb_true_r].
    apply andb_true_iff. split; apply N.leb_le; lia.
  - assert ((65 <=? 55 + n)%N && (55 + n <=? 90)%N = true) as ->; [|reflexivity].
    apply andb_true_iff. split; apply N.leb_le; lia.
Qed.

Lemma unhex_hexDigit (n : N) : (n < 16)%N -> unhex (hexDigit n) = Some n.
Proof.
  intros H. unfold hexDigit, unhex. destruct (N.ltb_spec n 10).
  - assert ((48 <=? 48 + n)%N && (48 + n <=? 57)%N = true) as ->.
    { apply andb_true_iff. split; apply N.leb_le; lia. }
    f_equal. lia.
  - assert ((48 <=? 55 + n)%N && (55 + n <=? 57)%N = false) as ->.
    { apply andb_false_iff. right. apply N.leb_gt. lia. }
    assert ((65 <=? 55 + n)%N && (55 + n <=? 70)%N = true) as ->.
    { apply andb_true_iff. split; apply N.leb_le; lia. }
    f_equal. lia.
Qed.

(** The octets of a code point below [0x110000] are octets. *)
Lemma utf8_octets (cp : N) :
  (cp < 1114112)%N -> Forall (fun b => (b < 256)%N) (utf8 cp).
Proof.
  intros H. unfold utf8.
  destruct (N.ltb_spec cp 128); [repeat constructor; lia|].
  destruct (N.ltb_spec cp 2048); [repeat constructor; lia|].
  destruct (N.ltb_spec cp 65536); repeat constructor; lia.
Qed.

Lemma pairCodePoint_range (hi lo : char) :
  isHighSurrogate hi = true -> isLowSurrogate lo = true ->
  (65536 <= pairCodePoint hi lo < 1114112)%N.
Proof.
  unfold isHighSurrogate, isLowSurrogate, pairCodePoint. intros H1 H2.
  bool_to_prop. lia.
Qed.

Lemma percentEncodeAll_safe (octets : list N) :
  Forall (fun b => (b < 256)%N) octets ->
  forallb uriSafe (percentEncodeAll octets) = true.
Proof.
  induction 1 as [|b bs Hb _ IH]; [reflexivity|].
  unfold percentEncodeAll in *.
  cbn [flat_map percentEncode app forallb].
  unfold uriSafe at 1 2 3. rewrite !hexDigit_safe by lia. now rewrite IH.
Qed.

(** Induction on strings two code units at a time. *)
Lemma jsstring_ind2 (P : jsstring -> Prop) :
  P [] -> (forall c, P [c]) ->
  (forall c d t, P t -> P (d :: t) -> P (c :: d :: t)) ->
  forall s, P s.
Proof.
  intros H0 H1 H2 s. enough (P s /\ forall c, P (c :: s)) by tauto.
  induction s as [|d t [IH1 IH2]]; split; auto.
Qed.

Lemma encodeURIComponent_cons (c : char) (t : jsstring) :
  encodeURIComponent (c :: t) =
  if isUnreserved c then option_map (cons c) (encodeURIComponent t)
  else if isHighSurrogate c then
    match t with
    | d :: t' =>
        if isLowSurrogate d then
          option_map (app (percentEncodeAll (utf8 (pairCodePoint c d))))
                     (encodeURIComponent t')
        else None
    | [] => None
    end
  else if isLowSurrogate c then None
  else option_map (app (percentEncodeAll (utf8 c))) (encodeURIComponent t).
Proof. reflexivity. Qed.

(** The encoded component is made of unreserved code units and percent
    signs. *)
Lemma encodeURIComponent_safe (s : jsstring) : forall e,
  codeUnits s = true -> encodeURIComponent s = Some e ->
  forallb uriSafe e = true.
Proof.
  induction s as [|c|c d t IHt IHdt] using jsstring_ind2; intros e Hs He.
  - now injection He as <-.
  - cbn [encodeURIComponent option_map] in He.
    unfold codeUnits in Hs. cbn [forallb] in Hs. bool_to_prop.
    destruct (isUnreserved c) eqn:U.
    { injection He as <-. cbn [forallb]. unfold uriSafe. now rewrite U. }
    destruct (isHighSurrogate c) eqn:Hi; [discriminate|].
    destruct (isLowSurrogate c) eqn:Lo; [discriminate|].
    injection He as <-. rewrite app_nil_r.
    apply percentEncodeAll_safe, utf8_octets. lia.
  - rewrite encodeURIComponent_cons in He.
    assert (Hc : (c <? 65536)%N = true /\ codeUnits (d :: t) = true)
      by (cbn in Hs; now apply andb_true_iff in Hs).
    destruct Hc as [Hc Hdt].
    assert (Ht : codeUnits t = true) by (cbn in Hdt; now apply andb_true_iff in Hdt).
    destruct (isUnreserved c) eqn:U.
    { destruct (encodeURIComponent (d :: t)) as [e'|] eqn:E; [|discriminate].
      injection He as <-. cbn [forallb]. unfold uriSafe at 1. rewrite U.
      now apply IHdt. }
    destruct (isHighSurrogate c) eqn:Hi.
    { destruct (isLowSurrogate d) eqn:Lo; [|discriminate].
      destruct (encodeURIComponent t) as [e'|] eqn:E; [|discriminate].
      injection He as <-. rewrite forallb_app, (IHt e') by easy.
      rewrite percentEncodeAll_safe; [reflexivity|].
      apply utf8_octets. now apply pairCodePoint_range. }
    destruct (isLowSurrogate c) eqn:Lo; [discriminate|].
    destruct (encodeURIComponent (d :: t)) as [e'|] eqn:E; [|discriminate].
    injection He as <-. rewrite forallb_app, (IHdt e') by easy.
    rewrite percentEncodeAll_safe; [reflexivity|].
    apply utf8_octets. bool_to_prop. lia.
Qed.

(** The encoding throws exactly on a surrogate without its partner. *)
Lemma encodeURIComponent_defined (s : jsstring) :
  encodeURIComponent s <> None <-> wellFormed s = true.
Proof.
  induction s as [|c|c d t IHt IHdt] using jsstring_ind2.
  - easy.
  - cbn [encodeURIComponent wellFormed].
    destruct (isUnreserved c) eqn:U.
    { destruct (unreserved_not_surrogate c U) as [-> ->]. easy. }
    destruct (isHighSurrogate c); [easy|].
    destruct (isLowSurrogate c); easy.
  - rewrite encodeURIComponent_cons. change (wellFormed (c :: d :: t)) with
      (if isHighSurrogate c then isLowSurrogate d && wellFormed t
       else negb (isLowSurrogate c) && wellFormed (d :: t)).
    destruct (isUnreserved c) eqn:U.
    { destruct (unreserved_not_surrogate c U) as [-> ->]. cbn [negb andb].
      rewrite <- IHdt. now destruct (encodeURIComponent (d :: t)). }
    destruct (isHighSurrogate c).
    { destruct (isLowSurrogate d); [|easy]. cbn [andb].
      rewrite <- IHt. now destruct (encodeURIComponent t). }
    destruct (isLowSurrogate c); [easy|]. cbn [negb andb].
    rewrite <- IHdt. now destruct (encodeURIComponent (d :: t)).
Qed.

Lemma percentDecode_unreserved (c : char) (e : jsstring) :
  isUnreserved c = true ->
  percentDecode (c :: e) = option_map (cons c) (percentDecode e).
Proof.
  intros H. apply unreserved_bounds in H as [_ H]. cbn [percentDecode].
  apply N.eqb_neq in H. now rewrite H.
Qed.

Lemma percentDecode_encoded (octets : list N) (e : jsstring) :
  Forall (fun b => (b < 256)%N) octets ->
  percentDecode (percentEncodeAll octets ++ e)
  = option_map (app octets) (percentDecode e).
Proof.
  induction 1 as [|b bs Hb _ IH].
  - cbn. now destruct (percentDecode e).
  - unfold percentEncodeAll in *. cbn [flat_map percentEncode app percentDecode].
    change (37 =? 37)%N with true. cbn iota.
    rewrite !unhex_hexDigit by lia. rewrite IH.
    replace (b / 16 * 16 + b mod 16)%N with b by lia.
    now destruct (percentDecode e).
Qed.

Lemma octetsOf_cons (c : char) (t : jsstring) :
  octetsOf (c :: t) =
  if isUnreserved c then option_map (cons c) (octetsOf t)
  else if isHighSurrogate c then
    match t with
    | d :: t' =>
        if isLowSurrogate d then
          option_map (app (utf8 (pairCodePoint c d))) (octetsOf t')
        else None
    | [] => None
    end
  else if isLowSurrogate c then None
  else option_map (app (utf8 c)) (octetsOf t).
Proof. reflexivity. Qed.

(** Undoing the escapes of an encoded component gives the octets of the
    string. *)
Lemma percentDecode_encodeURIComponent (s : jsstring) : forall e,
  codeUnits s = true -> encodeURIComponent s = Some e ->
  exists octets, octetsOf s = Some octets /\ percentDecode e = Some octets.
Proof.
  induction s as [|c|c d t IHt IHdt] using jsstring_ind2; intros e Hs He.
  - injection He as <-. now exists [].
  - rewrite encodeURIComponent_cons in He. rewrite octetsOf_cons.
    unfold codeUnits in Hs. cbn [forallb] in Hs. bool_to_prop.
    cbn [encodeURIComponent octetsOf option_map] in *.
    destruct (isUnreserved c) eqn:U.
    { injection He as <-. exists [c]. split; [easy|].
      now rewrite percentDecode_unreserved. }
    destruct (isHighSurrogate c) eqn:Hi; [discriminate|].
    destruct (isLowSurrogate c) eqn:Lo; [discriminate|].
    injection He as <-. exists (utf8 c ++ []). split; [easy|].
    rewrite percentDecode_encoded; [reflexivity|].
    apply utf8_octets. lia.
  - rewrite encodeURIComponent_cons in He. rewrite octetsOf_cons.
    assert (Hc : (c <? 65536)%N = true /\ codeUnits (d :: t) = true)
      by (cbn in Hs; now apply andb_true_iff in Hs).
    destruct Hc as [Hc Hdt].
    assert (Ht : codeUnits t = true) by (cbn in Hdt; now apply andb_true_iff in Hdt).
    destruct (isUnreserved c) eqn:U.
    { destruct (encodeURIComponent (d :: t)) as [e'|] eqn:E; [|discriminate].
      injection He as <-. destruct (IHdt e' Hdt eq_refl) as (bs & -> & Hd).
      exists (c :: bs). split; [easy|].
      now rewrite percentDecode_unreserved, Hd. }
    destruct (isHighSurrogate c) eqn:Hi.
    { destruct (isLowSurrogate d) eqn:Lo; [|discriminate].
      destruct (encodeURIComponent t) as [e'|] eqn:E; [|discriminate].
      injection He as <-. destruct (IHt e' Ht eq_refl) as (bs & -> & Hd).
      exists (utf8 (pairCodePoint c d) ++ bs). split; [easy|].
      rewrite percentDecode_encoded, Hd; [reflexivity|].
      apply utf8_octets. now apply pairCodePoint_range. }
    destruct (isLowSurrogate c) eqn:Lo; [discriminate|].
    destruct (encodeURIComponent (d :: t)) as [e'|] eqn:E; [|discriminate].
    injection He as <-. destruct (IHdt e' Hdt eq_refl) as (bs & -> & Hd).
    exists (utf8 c ++ bs). split; [easy|].
    rewrite percentDecode_encoded, Hd; [reflexivity|].
    apply utf8_octets. bool_to_prop. lia.
Qed.

(** The octets of a code unit that is not a surrogate decode to it. *)
Lemma utf8Decode_unit (c : char) (rest : list N) :
  (c < 65536)%N -> isHighSurrogate c = false -> isLowSurrogate c = false ->
  utf8Decode (utf8 c ++ rest) = option_map (cons c) (utf8Decode rest).
Proof.
  intros Hc _ _. unfold utf8.
  destruct (N.ltb_spec c 128) as [H1|H1].
  { cbn [app utf8Decode]. apply N.ltb_lt in H1. now rewrite H1. }
  destruct (N.ltb_spec c 2048) as [H2|H2].
  { cbn [app utf8Decode].
    assert ((192 + c / 64 <? 128)%N = false) as -> by (apply N.ltb_ge; lia).
    assert ((192 + c / 64 <? 224)%N = true) as -> by (apply N.ltb_lt; lia).
    replace ((192 + c / 64 - 192) * 64 + (128 + c mod 64 - 128))%N with c by lia.
    reflexivity. }
  destruct (N.ltb_spec c 65536) as [H3|H3]; [|lia].
  cbn [app utf8Decode].
  assert ((224 + c / 4096 <? 128)%N = false) as -> by (apply N.ltb_ge; lia).
  assert ((224 + c / 4096 <? 224)%N = false) as -> by (apply N.ltb_ge; lia).
  assert ((224 + c / 4096 <? 240)%N = true) as -> by (apply N.ltb_lt; lia).
  replace ((224 + c / 4096 - 224) * 4096 + (128 + (c / 64) mod 64 - 128) * 64
           + (128 + c mod 64 - 128))%N with c by lia.
  reflexivity.
Qed.

(** The octets of a surrogate pair decode to the pair. *)
Lemma utf8Decode_pair (hi lo : char) (rest : list N) :
  isHighSurrogate hi = true -> isLowSurrogate lo = true ->
  utf8Decode (utf8 (pairCodePoint hi lo) ++ rest)
  = option_map (fun r => hi :: lo :: r) (utf8Decode rest).
Proof.
  intros Hhi Hlo. assert (R := pairCodePoint_range hi lo Hhi Hlo).
  unfold isHighSurrogate, isLowSurrogate in *. bool_to_prop.
  set (cp := pairCodePoint hi lo) in *.
  assert (Hcp : cp = ((hi - 55296) * 1024 + (lo - 56320) + 65536)%N) by reflexivity.
  unfold utf8.
  assert ((cp <? 128)%N = false) as -> by (apply N.ltb_ge; lia).
  assert ((cp <? 2048)%N = false) as -> by (apply N.ltb_ge; lia).
  assert ((cp <? 65536)%N = false) as -> by (apply N.ltb_ge; lia).
  cbn [app utf8Decode].
  assert ((240 + cp / 262144 <? 128)%N = false) as -> by (apply N.ltb_ge; lia).
  assert ((240 + cp / 262144 <? 224)%N = false) as -> by (apply N.ltb_ge; lia).
  assert ((240 + cp / 262144 <? 240)%N = false) as -> by (apply N.ltb_ge; lia).
  cbn zeta.
  replace ((240 + cp / 262144 - 240) * 262144 + (128 + (cp / 4096) mod 64 - 128) * 4096
           + (128 + (cp / 64) mod 64 - 128) * 64 + (128 + cp mod 64 - 128))%N
    with cp by lia.
  replace (55296 + (cp - 65536) / 1024)%N with hi by lia.
  replace (56320 + (cp - 65536) mod 1024)%N with lo by lia.
  reflexivity.
Qed.

Lemma utf8Decode_octetsOf (s : jsstring) : forall octets,
  codeUnits s = true -> octetsOf s = Some octets -> utf8Decode octets = Some s.
Proof.
  induction s as [|c|c d t IHt IHdt] using jsstring_ind2; intros bs Hs Hb.
  - now injection Hb as <-.
  - rewrite octetsOf_cons in Hb. cbn [octetsOf option_map] in Hb.
    unfold codeUnits in Hs. cbn [forallb] in Hs. bool_to_prop.
    destruct (isUnreserved c) eqn:U.
    { injection Hb as <-. apply unreserved_bounds in U as [U _].
      cbn [utf8Decode]. assert ((c <? 128)%N = true) as -> by (apply N.ltb_lt; lia).
      reflexivity. }
    destruct (isHighSurrogate c) eqn:Hi; [discriminate|].
    destruct (isLowSurrogate c) eqn:Lo; [discriminate|].
    injection Hb as <-. rewrite utf8Decode_unit by (easy || lia). reflexivity.
  - rewrite octetsOf_cons in Hb.
    assert (Hc : (c <? 65536)%N = true /\ codeUnits (d :: t) = true)
      by (cbn in Hs; now apply andb_true_iff in Hs).
    destruct Hc as [Hc Hdt].
    assert (Ht : codeUnits t = true) by (cbn in Hdt; now apply andb_true_iff in Hdt).
    destruct (isUnreserved c) eqn:U.
    { destruct (octetsOf (d :: t)) as [bs'|] eqn:E; [|discriminate].
      injection Hb as <-. apply unreserved_bounds in U as [U _].
      cbn [utf8Decode]. assert ((c <? 128)%N = true) as -> by (apply N.ltb_lt; lia).
      now rewrite (IHdt bs'). }
    destruct (isHighSurrogate c) eqn:Hi.
    { destruct (isLowSurrogate d) eqn:Lo; [|discriminate].
      destruct (octetsOf t) as [bs'|] eqn:E; [|discriminate].
      injection Hb as <-. rewrite utf8Decode_pair by easy. now rewrite (IHt bs'). }
    destruct (isLowSurrogate c) eqn:Lo; [discriminate|].
    destruct (octetsOf (d :: t)) as [bs'|] eqn:E; [|discriminate].
    injection Hb as <-. bool_to_prop.
    rewrite utf8Decode_unit by (easy || lia). now rewrite (IHdt bs').
Qed.

(** Decoding an encoded component gives the string back. *)
Lemma decode_encodeURIComponent (s e : jsstring) :
  codeUnits s = true -> encodeURIComponent s = Some e ->
  decodeComponent e = Some s.
Proof.
  intros Hs He. unfold decodeComponent.
  destruct (percentDecode_encodeURIComponent s Hs He) as (bs & Hb & ->).
  now apply utf8Decode_octetsOf.
Qed.

(** Encoding a concatenation of two strings that encode. *)
Lemma encodeURIComponent_app (a : jsstring) : forall b ea eb,
  encodeURIComponent a = Some ea -> encodeURIComponent b = Some eb ->
  encodeURIComponent (a ++ b) = Some (ea ++ eb).
Proof.
  induction a as [|c|c d t IHt IHdt] using jsstring_ind2; intros b ea eb Ha Hb.
  - now injection Ha as <-.
  - rewrite encodeURIComponent_cons in Ha. cbn [app]. rewrite encodeURIComponent_cons.
    cbn [encodeURIComponent option_map] in Ha. rewrite Hb. cbn [option_map].
    destruct (isUnreserved c); [now injection Ha as <-|].
    destruct (isHighSurrogate c); [discriminate|].
    destruct (isLowSurrogate c); [discriminate|].
    injection Ha as <-. now rewrite app_nil_r.
  - rewrite encodeURIComponent_cons in Ha.
    change ((c :: d :: t) ++ b) with (c :: (d :: t) ++ b).
    rewrite encodeURIComponent_cons.
    destruct (isUnreserved c).
    { destruct (encodeURIComponent (d :: t)) as [e'|] eqn:E; [|discriminate].
      injection Ha as <-. now rewrite (IHdt b e' eb). }
    destruct (isHighSurrogate c).
    { cbn [app]. destruct (isLowSurrogate d); [|discriminate].
      destruct (encodeURIComponent t) as [e'|] eqn:E; [|discriminate].
      injection Ha as <-. rewrite (IHt b e' eb) by easy. cbn [option_map].
      now rewrite app_assoc. }
    destruct (isLowSurrogate c); [discriminate|].
    destruct (encodeURIComponent (d :: t)) as [e'|] eqn:E; [|discriminate].
    injection Ha as <-. rewrite (IHdt b e' eb) by easy. cbn [option_map].
    now rewrite app_assoc.
Qed.

(** A string that encodes before a text that does not start with a low
    surrogate encodes by itself. *)
Lemma encodeURIComponent_app_inv (a : jsstring) : forall b eb e,
  encodeURIComponent b = Some eb ->
  match b with d :: _ => isLowSurrogate d = false | [] => True end ->
  encodeURIComponent (a ++ b) = Some e ->
  exists ea, encodeURIComponent a = Some ea /\ e = ea ++ eb.
Proof.
  induction a as [|c|c d t IHt IHdt] using jsstring_ind2; intros b eb e Hb Hd He.
  - exists []. cbn [app] in *. split; [easy | congruence].
  - cbn [app] in He. rewrite encodeURIComponent_cons in He.
    rewrite encodeURIComponent_cons. cbn [encodeURIComponent option_map].
    rewrite Hb in He. cbn [option_map] in He.
    destruct (isUnreserved c).
    { injection He as <-. now exists [c]. }
    destruct (isHighSurrogate c).
    { destruct b as [|d b']; [discriminate|]. rewrite Hd in He. discriminate. }
    destruct (isLowSurrogate c); [discriminate|].
    injection He as <-. eexists. split; [reflexivity|]. now rewrite app_nil_r.
  - change ((c :: d :: t) ++ b) with (c :: (d :: t) ++ b) in He.
    rewrite encodeURIComponent_cons in He. rewrite encodeURIComponent_cons.
    destruct (isUnreserved c).
    { destruct (encodeURIComponent ((d :: t) ++ b)) as [e'|] eqn:E; [|discriminate].
      injection He as <-. destruct (IHdt _ _ _ Hb Hd E) as (ea & -> & ->).
      now eexists. }
    destruct (isHighSurrogate c).
    { cbn [app] in He. destruct (isLowSurrogate d); [|discriminate].
      destruct (encodeURIComponent (t ++ b)) as [e'|] eqn:E; [|discriminate].
      injection He as <-. destruct (IHt _ _ _ Hb Hd E) as (ea & -> & ->).
      eexists. split; [reflexivity|]. now rewrite app_assoc. }
    destruct (isLowSurrogate c); [discriminate|].
    destruct (encodeURIComponent ((d :: t) ++ b)) as [e'|] eqn:E; [|discriminate].
    injection He as <-. destruct (IHdt _ _ _ Hb Hd E) as (ea & -> & ->).
    eexists. split; [reflexivity|]. now rewrite app_assoc.
Qed.

Lemma encodeURIComponent_unreserved (s : jsstring) :
  forallb isUnreserved s = true -> encodeURIComponent s = Some s.
Proof.
  induction s as [|c t IH]; [reflexivity|]. cbn [forallb].
  intros H. apply andb_true_iff in H as [Hc H].
  rewrite encodeURIComponent_cons, Hc, IH by easy. reflexivity.
Qed.

Lemma uriSafe_not_reserved (c : char) :
  uriSafe c = true ->
  c <> 32%N /\ c <> 35%N /\ c <> 38%N /\ c <> 43%N /\ c <> 47%N
  /\ c <> 61%N /\ c <> 63%N.
Proof.
  unfold uriSafe. intros H. apply orb_true_iff in H as [H|H].
  - unfold isUnreserved in H.
    repeat (apply orb_true_iff in H as [H|H]); bool_to_prop; lia.
  - bool_to_prop. lia.
Qed.

Lemma googleImagesLink_query (name : jsstring) :
  googleImagesLink name
  = option_map (fun q => imagesBase ++ q ++ campusPhotosQuery)
               (encodeURIComponent name).
Proof.
  unfold googleImagesLink.
  assert (Hb : encodeURIComponent (js " campus photos") = Some campusPhotosQuery)
    by reflexivity.
  destruct (encodeURIComponent name) as [q|] eqn:E.
  - now rewrite (encodeURIComponent_app _ _ E Hb).
  - destruct (encodeURIComponent (name ++ js " campus photos")) as [e|] eqn:E2;
      [|reflexivity].
    destruct (encodeURIComponent_app_inv name _ Hb eq_refl E2) as (ea & Ha & _).
    congruence.
Qed.

(** ** The properties of the names and of the links *)

(** X1.  The names of the two downloads are the university name with
    every run of white space (spaces, tabs, line breaks and the other
    code units of [\s]) collapsed to one underscore, followed by
    [_Analysis.txt] and [_Data.json]. *)
Theorem X1_download_names_collapse_whitespace :
  forall universityName : jsstring,
    txtFileName universityName
    = collapse false universityName ++ js "_Analysis.txt"
    /\ jsonFileName universityName
       = collapse false universityName ++ js "_Data.json".
Proof.
  intros name. unfold txtFileName, jsonFileName.
  now rewrite underscored_collapse.
Qed.

(** X2.  A download name holds no white space, whatever the university
    name, and is at most 13 code units longer than the university name
    for the text and 10 for the data. *)
Theorem X2_download_names_without_whitespace :
  forall universityName : jsstring,
    noWhiteSpace (txtFileName universityName) = true
    /\ noWhiteSpace (jsonFileName universityName) = true
    /\ length (txtFileName universityName) <= length universityName + 13
    /\ length (jsonFileName universityName) <= length universityName + 10.
Proof.
  intros name. unfold txtFileName, jsonFileName.
  rewrite underscored_collapse.
  pose proof (collapse_no_whitespace name false) as H.
  pose proof (collapse_length name false) as L.
  unfold noWhiteSpace in *. rewrite !forallb_app, H, !length_app.
  repeat split; try reflexivity; cbn [length js]; cbn; lia.
Qed.

(** X3.  The replacement leaves the university name as it is exactly when
    the name holds no white space, and replacing twice is replacing
    once. *)
Theorem X3_underscored_fixpoint :
  forall universityName : jsstring,
    (underscored universityName = universityName
     <-> noWhiteSpace universityName = true)
    /\ underscored (underscored universityName) = underscored universityName.
Proof.
  intros name. rewrite !underscored_collapse.
  pose proof (collapse_no_whitespace name false) as H. split.
  - split; [intros E; now rewrite E in H | apply collapse_unchanged].
  - now apply collapse_unchanged.
Qed.

(** X4.  For a university name of UTF-16 code units, each link is its
    base followed by a query made of letters, digits, the marks
    [- _ . ! ~ * ' ( )] and percent signs only: no space, [#], [&], [+],
    [/], [=] or [?] of the name reaches the link. *)
Theorem X4_link_query_is_uri_safe :
  forall universityName link : jsstring,
    codeUnits universityName = true ->
    googleImagesLink universityName = Some link
    \/ googleMapsLink universityName = Some link ->
    exists base query,
      link = base ++ query
      /\ (base = imagesBase \/ base = mapsBase)
      /\ forallb uriSafe query = true
      /\ (forall c, In c query ->
            c <> 32%N /\ c <> 35%N /\ c <> 38%N /\ c <> 43%N /\ c <> 47%N
            /\ c <> 61%N /\ c <> 63%N).
Proof.
  intros name link Hn H.
  assert (exists base query s,
            link = base ++ query /\ (base = imagesBase \/ base = mapsBase)
            /\ codeUnits s = true /\ encodeURIComponent s = Some query)
    as (base & query & s & -> & Hb & Hs & Hq).
  { destruct H as [H|H].
    - unfold googleImagesLink in H.
      destruct (encodeURIComponent (name ++ js " campus photos")) as [q|] eqn:E;
        [|discriminate].
      injection H as <-. exists imagesBase, q, (name ++ js " campus photos").
      split; [reflexivity|]. split; [now left|]. split; [|exact E].
      unfold codeUnits in *. rewrite forallb_app. apply andb_true_iff. split; [exact Hn | reflexivity].
    - unfold googleMapsLink in H.
      destruct (encodeURIComponent name) as [q|] eqn:E; [|discriminate].
      injection H as <-. exists mapsBase, q, name.
      split; [reflexivity|]. split; [now right|]. split; [exact Hn | exact E]. }
  exists base, query. pose proof (encodeURIComponent_safe s Hs Hq) as Hsafe.
  repeat split; try easy.
  all: intros ->; rewrite forallb_forall in Hsafe; apply Hsafe in H0;
    discriminate.
Qed.

Lemma X4_link_query_is_uri_safe_witness :
  codeUnits (js "Tomsk State University & Co") = true
  /\ googleMapsLink (js "Tomsk State University & Co")
     = Some (mapsBase ++ js "Tomsk%20State%20University%20%26%20Co")
  /\ exists base query,
       mapsBase ++ js "Tomsk%20State%20University%20%26%20Co" = base ++ query
       /\ (base = imagesBase \/ base = mapsBase)
       /\ forallb uriSafe query = true
       /\ (forall c, In c query ->
             c <> 32%N /\ c <> 35%N /\ c <> 38%N /\ c <> 43%N /\ c <> 47%N
             /\ c <> 61%N /\ c <> 63%N).
Proof.
  split; [reflexivity|]. split; [reflexivity|].
  apply (@X4_link_query_is_uri_safe (js "Tomsk State University & Co")).
  - reflexivity.
  - right. reflexivity.
Defined.

(** X5.  Computing a link throws the [URIError] of [encodeURIComponent]
    exactly when the university name holds a surrogate that is not half
    of a pair; the two links are defined together. *)
Theorem X5_links_throw_on_lone_surrogate :
  forall universityName : jsstring,
    (googleMapsLink universityName = None
     <-> wellFormed universityName = false)
    /\ (googleImagesLink universityName = None
        <-> wellFormed universityName = false).
Proof.
  intros name.
  assert (H : encodeURIComponent name = None <-> wellFormed name = false).
  { pose proof (encodeURIComponent_defined name) as D.
    destruct (encodeURIComponent name), (wellFormed name); split; try easy.
    - intros _. assert (false = true) by (apply D; discriminate). discriminate.
    - intros _. exfalso. now apply (proj2 D). }
  split.
  - rewrite <- H. unfold googleMapsLink.
    now destruct (encodeURIComponent name).
  - rewrite <- H, googleImagesLink_query.
    now destruct (encodeURIComponent name).
Qed.

(** X6.  The query of a link decodes to what was encoded: undoing the
    percent escapes and reading the octets as UTF-8 gives the university
    name back from the maps link, and the name followed by
    [ campus photos] from the images link. *)
Theorem X6_link_query_round_trip :
  forall universityName query : jsstring,
    codeUnits universityName = true ->
    (googleMapsLink universityName = Some (mapsBase ++ query) ->
     decodeComponent query = Some universityName)
    /\ (googleImagesLink universityName = Some (imagesBase ++ query) ->
        decodeComponent query = Some (universityName ++ js " campus photos")).
Proof.
  intros name query Hn. split; intros H.
  - unfold googleMapsLink in H.
    destruct (encodeURIComponent name) as [q|] eqn:E; [|discriminate].
    cbn [option_map] in H.
    assert (Hq : mapsBase ++ q = mapsBase ++ query) by congruence.
    apply app_inv_head in Hq. subst q.
    now apply decode_encodeURIComponent.
  - unfold googleImagesLink in H.
    destruct (encodeURIComponent (name ++ js " campus photos")) as [q|] eqn:E;
      [|discriminate].
    cbn [option_map] in H.
    assert (Hq : imagesBase ++ q = imagesBase ++ query) by congruence.
    apply app_inv_head in Hq. subst q.
    apply decode_encodeURIComponent; [|exact E].
    unfold codeUnits in *. rewrite forallb_app. apply andb_true_iff.
    split; [exact Hn | reflexivity].
Qed.

Lemma X6_link_query_round_trip_witness :
  codeUnits (js "Tomsk State University & Co") = true
  /\ googleMapsLink (js "Tomsk State University & Co")
     = Some (mapsBase ++ js "Tomsk%20State%20University%20%26%20Co")
  /\ decodeComponent (js "Tomsk%20State%20University%20%26%20Co")
     = Some (js "Tomsk State University & Co")
  /\ googleImagesLink (js "Tomsk State University & Co")
     = Some (imagesBase
             ++ js "Tomsk%20State%20University%20%26%20Co%20campus%20photos")
  /\ decodeComponent
       (js "Tomsk%20State%20University%20%26%20Co%20campus%20photos")
     = Some (js "Tomsk State University & Co" ++ js " campus photos").
Proof.
  split; [reflexivity|]. split; [reflexivity|]. split.
  - apply (@X6_link_query_round_trip (js "Tomsk State University & Co")
             (js "Tomsk%20State%20University%20%26%20Co") eq_refl).
    reflexivity.
  - split; [reflexivity|].
    apply (@X6_link_query_round_trip (js "Tomsk State University & Co")
             (js "Tomsk%20State%20University%20%26%20Co%20campus%20photos")
             eq_refl).
    reflexivity.
Defined.

(** X7.  Two university names with the same maps link, or with the same
    images link, are the same name. *)
Theorem X7_links_determine_the_name :
  forall name1 name2 link : jsstring,
    codeUnits name1 = true -> codeUnits name2 = true ->
    (googleMapsLink name1 = Some link /\ googleMapsLink name2 = Some link)
    \/ (googleImagesLink name1 = Some link
        /\ googleImagesLink name2 = Some link) ->
    name1 = name2.
Proof.
  intros n1 n2 link H1 H2 [[L1 L2] | [L1 L2]].
  - unfold googleMapsLink in *.
    destruct (encodeURIComponent n1) as [q1|] eqn:E1; [|discriminate].
    destruct (encodeURIComponent n2) as [q2|] eqn:E2; [|discriminate].
    cbn [option_map] in L1, L2.
    assert (L : mapsBase ++ q2 = mapsBase ++ q1) by congruence.
    apply app_inv_head in L. subst q2.
    pose proof (@decode_encodeURIComponent _ _ H1 E1) as D1.
    pose proof (@decode_encodeURIComponent _ _ H2 E2) as D2. congruence.
  - rewrite googleImagesLink_query in *.
    destruct (encodeURIComponent n1) as [q1|] eqn:E1; [|discriminate].
    destruct (encodeURIComponent n2) as [q2|] eqn:E2; [|discriminate].
    cbn [option_map] in L1, L2.
    assert (L : imagesBase ++ q2 ++ campusPhotosQuery
                = imagesBase ++ q1 ++ campusPhotosQuery) by congruence.
    apply app_inv_head in L. apply app_inv_tail in L. subst q2.
    pose proof (@decode_encodeURIComponent _ _ H1 E1) as D1.
    pose proof (@decode_encodeURIComponent _ _ H2 E2) as D2. congruence.
Qed.

Lemma X7_links_determine_the_name_witness :
  codeUnits (js "A&B") = true
  /\ googleMapsLink (js "A&B") = Some (mapsBase ++ js "A%26B")
  /\ js "A&B" = js "A&B".
Proof.
  split; [reflexivity|]. split; [reflexivity|].
  apply (@X7_links_determine_the_name (js "A&B") (js "A&B")
           (mapsBase ++ js "A%26B")); [reflexivity | reflexivity |].
  left. split; reflexivity.
Defined.

(** X8.  The query of the images link is the query of the maps link
    followed by [%20campus%20photos]; when one of the links is not
    defined, neither is the other. *)
Theorem X8_images_query_extends_maps_query :
  forall universityName : jsstring,
    googleMapsLink universityName
    = option_map (app mapsBase) (encodeURIComponent universityName)
    /\ googleImagesLink universityName
       = option_map (fun query => imagesBase ++ query ++ campusPhotosQuery)
                    (encodeURIComponent universityName).
Proof.
  intros name. split; [reflexivity | apply googleImagesLink_query].
Qed.

(** ** The grounding sources *)

Lemma shown_app (a b : list (option LinkItem)) : shown (a ++ b) = shown a ++ shown b.
Proof. apply flat_map_app. Qed.

Lemma shown_In (children : list (option LinkItem)) (item : LinkItem) :
  In item (shown children) <-> In (Some item) children.
Proof.
  unfold shown. rewrite in_flat_map. split.
  - intros ([it|] & H & Hi); [|easy]. destruct Hi as [-> | []]. exact H.
  - intros H. exists (Some item). split; [exact H | now left].
Qed.

Lemma mapi_from_length (A B : Type) (f : A -> nat -> B) (l : list A) : forall i,
  length (mapi_from f i l) = length l.
Proof. induction l as [|x t IH]; intros i; cbn; [reflexivity | now rewrite IH]. Qed.

Lemma webItems_hrefs (toLowerCase : jsstring -> jsstring)
      (chunks : list GroundingChunk) : forall i,
  map li_href (shown (mapi_from (webItem toLowerCase) i chunks))
  = map c_uri (webCitations chunks).
Proof.
  induction chunks as [|c t IH]; intros i; [reflexivity|].
  cbn [mapi_from]. change (?x :: ?l) with ([x] ++ l) at 1.
  rewrite shown_app, map_app, IH. unfold webItem.
  cbn [webCitations flat_map]. fold (webCitations t).
  destruct (web c); [|reflexivity]. now rewrite map_app.
Qed.

Lemma mapItem_hrefs (chunks : list GroundingChunk) : forall i,
  map li_href (shown (mapi_from mapItem i chunks))
  = map c_uri (mapCitations chunks).
Proof.
  induction chunks as [|c t IH]; intros i; [reflexivity|].
  cbn [mapi_from]. change (?x :: ?l) with ([x] ++ l) at 1.
  rewrite shown_app, map_app, IH. unfold mapItem.
  cbn [mapCitations flat_map]. fold (mapCitations t).
  destruct (maps c); [|reflexivity]. now rewrite map_app.
Qed.

Lemma fallback_hrefs (chunks : list GroundingChunk) : forall i,
  map li_href (shown (mapi_from fallbackItem i (filter isMapLink chunks)))
  = map c_uri (filter namesMap (webCitations chunks)).
Proof.
  induction chunks as [|c t IH]; intros i; [reflexivity|].
  cbn [filter webCitations flat_map]. fold (webCitations t).
  unfold isMapLink at 1. destruct (web c) as [w|] eqn:W; [|apply IH].
  cbn [app filter]. fold (namesMap w).
  destruct (namesMap w); [|apply IH].
  cbn [mapi_from]. change (?x :: ?l) with ([x] ++ l) at 1.
  rewrite shown_app, map_app, IH. unfold fallbackItem. now rewrite W.
Qed.

(** The index of a key is written in decimal digits, and two indices are
    written alike only when they are equal. *)
Lemma string_of_uint_digits (d : Decimal.uint) :
  Forall (fun c => isDigit c = true) (js (DecimalString.NilEmpty.string_of_uint d)).
Proof. induction d; cbn; constructor; easy. Qed.

Lemma js_inj (a : string) : forall b, js a = js b -> a = b.
Proof.
  unfold js. induction a as [|x a IH]; intros [|y b] H; cbn in H; try easy.
  injection H as Hx H. f_equal; [|now apply IH].
  rewrite <- (ascii_N_embedding x), <- (ascii_N_embedding y). now f_equal.
Qed.

Lemma string_of_uint_inj (d d' : Decimal.uint) :
  DecimalString.NilEmpty.string_of_uint d = DecimalString.NilEmpty.string_of_uint d' ->
  d = d'.
Proof.
  intros H. pose proof (DecimalString.NilEmpty.usu d) as U.
  rewrite H, DecimalString.NilEmpty.usu in U. congruence.
Qed.

Lemma indexText_inj (i j : nat) : indexText i = indexText j -> i = j.
Proof.
  unfold indexText. intros H. apply js_inj, string_of_uint_inj in H.
  now apply DecimalNat.Unsigned.to_uint_inj.
Qed.

Lemma indexText_digits (i : nat) : Forall (fun c => isDigit c = true) (indexText i).
Proof. apply string_of_uint_digits. Qed.

Section Keys.

Variable f : GroundingChunk -> nat -> option LinkItem.
Variable prefix : jsstring.
Hypothesis f_key : forall chunk i item,
  f chunk i = Some item -> li_key item = prefix ++ indexText i.

Lemma keysOf_cons (chunk : GroundingChunk) (i : nat) (l : list GroundingChunk) :
  keysOf (mapi_from f i (chunk :: l))
  = match f chunk i with Some item => [li_key item] | None => [] end
    ++ keysOf (mapi_from f (S i) l).
Proof.
  unfold keysOf. cbn [mapi_from]. change (?x :: ?l) with ([x] ++ l) at 1.
  rewrite shown_app, map_app. now destruct (f chunk i).
Qed.

Lemma keysOf_index (l : list GroundingChunk) : forall i key,
  In key (keysOf (mapi_from f i l)) ->
  exists j, i <= j /\ key = prefix ++ indexText j.
Proof.
  induction l as [|c t IH]; intros i key H; [easy|].
  rewrite keysOf_cons in H. apply in_app_or in H as [H|H].
  - destruct (f c i) as [item|] eqn:E; [|easy]. destruct H as [<- | []].
    exists i. split; [lia | exact (@f_key _ _ _ E)].
  - apply IH in H as (j & Hj & ->). exists j. split; [lia | reflexivity].
Qed.

Lemma keysOf_NoDup (l : list GroundingChunk) : forall i,
  NoDup (keysOf (mapi_from f i l)).
Proof.
  induction l as [|c t IH]; intros i; [constructor|].
  rewrite keysOf_cons. destruct (f c i) as [item|] eqn:E; [|apply IH].
  cbn [app]. constructor; [|apply IH].
  intros H. apply keysOf_index in H as (j & Hj & Hk).
  rewrite (@f_key _ _ _ E) in Hk. apply app_inv_head, indexText_inj in Hk. lia.
Qed.

End Keys.

Lemma webItem_key (toLowerCase : jsstring -> jsstring) (chunk : GroundingChunk)
      (i : nat) (item : LinkItem) :
  webItem toLowerCase chunk i = Some item ->
  li_key item = js "web-" ++ indexText i.
Proof. unfold webItem. destruct (web chunk); [|easy]. now intros [= <-]. Qed.

Lemma mapItem_key (chunk : GroundingChunk) (i : nat) (item : LinkItem) :
  mapItem chunk i = Some item -> li_key item = js "map-" ++ indexText i.
Proof. unfold mapItem. destruct (maps chunk); [|easy]. now intros [= <-]. Qed.

Lemma fallbackItem_key (chunk : GroundingChunk) (i : nat) (item : LinkItem) :
  fallbackItem chunk i = Some item ->
  li_key item = js "map-fallback-" ++ indexText i.
Proof. unfold fallbackItem. destruct (web chunk); [|easy]. now intros [= <-]. Qed.

(** X9.  When the section of the sources is rendered, the list of web
    sources has one child for every chunk and links, in the order of the
    chunks, to the addresses of the web citations; the list of map
    sources links to the addresses of the map citations and then to the
    addresses of the web citations that name 2GIS or Google Maps, whether
    or not there are map citations. *)
Theorem X9_source_links :
  forall (toLowerCase : jsstring -> jsstring)
         (groundingChunks : option (list GroundingChunk))
         (webList mapList : list (option LinkItem)),
    sourcesSection toLowerCase groundingChunks = Some (webList, mapList) ->
    exists chunks,
      groundingChunks = Some chunks /\ chunks <> []
      /\ length webList = length chunks
      /\ map li_href (shown webList) = map c_uri (webCitations chunks)
      /\ map li_href (shown mapList)
         = map c_uri (mapCitations chunks)
           ++ map c_uri (filter namesMap (webCitations chunks)).
Proof.
  intros lower [[|c cs]|] webList mapList H; try discriminate.
  cbn [sourcesSection] in H. injection H as <- <-.
  exists (c :: cs). split; [reflexivity|]. split; [discriminate|].
  split; [apply mapi_from_length|]. split; [apply webItems_hrefs|].
  unfold mapItems, mapi. now rewrite shown_app, map_app, mapItem_hrefs, fallback_hrefs.
Qed.

Lemma X9_source_links_witness :
  sourcesSection (fun s => s) (Some exampleChunks)
  = Some (webItems (fun s => s) exampleChunks, mapItems exampleChunks)
  /\ exists chunks,
      Some exampleChunks = Some chunks /\ chunks <> []
      /\ length (webItems (fun s => s) exampleChunks) = length chunks
      /\ map li_href (shown (webItems (fun s => s) exampleChunks))
         = map c_uri (webCitations chunks)
      /\ map li_href (shown (mapItems exampleChunks))
         = map c_uri (mapCitations chunks)
           ++ map c_uri (filter namesMap (webCitations chunks)).
Proof.
  split; [reflexivity|].
  apply (@X9_source_links (fun s => s) (Some exampleChunks)). reflexivity.
Defined.

Lemma mapi_from_In (A B : Type) (f : A -> nat -> B) (x : A) (l : list A) :
  In x l -> forall i, exists j, In (f x j) (mapi_from f i l).
Proof.
  induction l as [|y t IH]; [easy|]. intros [-> | H] i.
  - exists i. now left.
  - destruct (IH H (S i)) as (j & Hj). exists j. now right.
Qed.

Lemma shown_Forall (f : GroundingChunk -> nat -> option LinkItem)
      (P : LinkItem -> Prop) :
  (forall chunk i item, f chunk i = Some item -> P item) ->
  forall l i, Forall P (shown (mapi_from f i l)).
Proof.
  intros Hf. induction l as [|c t IH]; intros i; [constructor|].
  cbn [mapi_from]. change (?x :: ?l) with ([x] ++ l) at 1.
  rewrite shown_app. apply Forall_app. split; [|apply IH].
  cbn. destruct (f c i) as [item|] eqn:E; repeat constructor.
  now apply Hf with c i.
Qed.

Lemma titleOr_nonempty (title : option jsstring) (fallback : jsstring) :
  fallback <> [] -> titleOr title fallback <> [].
Proof. now destruct title as [[|c t]|]. Qed.

(** X10.  A web citation whose address names 2GIS or Google Maps is
    listed twice: among the web sources, under its title or else its
    address, and among the map sources, under its title or else
    [Location Link]. *)
Theorem X10_map_link_in_both_lists :
  forall (toLowerCase : jsstring -> jsstring) (chunks : list GroundingChunk)
         (chunk : GroundingChunk) (w : Citation),
    In chunk chunks -> web chunk = Some w -> namesMap w = true ->
    (exists item, In (Some item) (webItems toLowerCase chunks)
                  /\ li_href item = c_uri w
                  /\ li_label item = titleOr (c_title w) (c_uri w))
    /\ (exists item, In (Some item) (mapItems chunks)
                     /\ li_href item = c_uri w
                     /\ li_label item = titleOr (c_title w) (js "Location Link")).
Proof.
  intros lower chunks c w Hin Hw Hn. split.
  - destruct (mapi_from_In (webItem lower) c chunks Hin 0) as (j & Hj).
    unfold webItem at 1 in Hj. rewrite Hw in Hj. eexists. split; [exact Hj|].
    now split.
  - assert (Hf : In c (filter isMapLink chunks)).
    { apply filter_In. split; [exact Hin|]. unfold isMapLink. now rewrite Hw. }
    destruct (mapi_from_In fallbackItem c _ Hf 0) as (j & Hj).
    unfold fallbackItem at 1 in Hj. rewrite Hw in Hj. eexists.
    split; [apply in_or_app; right; exact Hj|]. now split.
Qed.

Lemma X10_map_link_in_both_lists_witness :
  (In (mkChunk (Some (mkCitation (js "https://2gis.ru/tomsk") None)) None)
      exampleChunks
   /\ namesMap (mkCitation (js "https://2gis.ru/tomsk") None) = true)
  /\ (exists item, In (Some item) (webItems (fun s => s) exampleChunks)
                   /\ li_href item = js "https://2gis.ru/tomsk"
                   /\ li_label item = js "https://2gis.ru/tomsk")
  /\ (exists item, In (Some item) (mapItems exampleChunks)
                   /\ li_href item = js "https://2gis.ru/tomsk"
                   /\ li_label item = js "Location Link").
Proof.
  split; [split; [right; left; reflexivity | reflexivity]|].
  apply (@X10_map_link_in_both_lists (fun s => s) exampleChunks
           (mkChunk (Some (mkCitation (js "https://2gis.ru/tomsk") None)) None)
           (mkCitation (js "https://2gis.ru/tomsk") None)).
  - right. left. reflexivity.
  - reflexivity.
  - reflexivity.
Defined.

(** X11.  The keys of the children of a list are pairwise different, in
    the list of web sources and in the list of map sources, where the
    keys of the second run of children restart at zero under another
    prefix. *)
Theorem X11_source_keys_are_unique :
  forall (toLowerCase : jsstring -> jsstring) (chunks : list GroundingChunk),
    NoDup (keysOf (webItems toLowerCase chunks))
    /\ NoDup (keysOf (mapItems chunks)).
Proof.
  intros lower chunks. split.
  - apply keysOf_NoDup with (prefix := js "web-"). apply webItem_key.
  - unfold mapItems, mapi, keysOf. rewrite shown_app, map_app.
    apply NoDup_app.
    + apply keysOf_NoDup with (prefix := js "map-"). apply mapItem_key.
    + apply keysOf_NoDup with (prefix := js "map-fallback-"). apply fallbackItem_key.
    + intros key H1 H2.
      apply (keysOf_index mapItem (js "map-") mapItem_key) in H1 as (i & _ & ->).
      apply (keysOf_index fallbackItem (js "map-fallback-") fallbackItem_key)
        in H2 as (j & _ & H).
      change (js "map-fallback-") with (js "map-" ++ js "fallback-") in H.
      rewrite <- app_assoc in H. apply app_inv_head in H.
      pose proof (indexText_digits i) as D. rewrite H in D.
      inversion D. discriminate.
Qed.

(** X12.  No link of the list of map sources is without text and none is
    marked as a visual source; a link of the list of web sources is
    without text only when its address is empty as well. *)
Theorem X12_source_labels :
  forall (toLowerCase : jsstring -> jsstring) (chunks : list GroundingChunk),
    Forall (fun item => li_label item <> [] /\ li_visual item = false)
           (shown (mapItems chunks))
    /\ Forall (fun item => li_label item = [] -> li_href item = [])
              (shown (webItems toLowerCase chunks)).
Proof.
  intros lower chunks. split.
  - unfold mapItems, mapi. rewrite shown_app. apply Forall_app. split.
    + apply shown_Forall. intros c i item. unfold mapItem.
      destruct (maps c); [|easy]. intros [= <-]. split; [|reflexivity].
      now apply titleOr_nonempty.
    + apply shown_Forall. intros c i item. unfold fallbackItem.
      destruct (web c); [|easy]. intros [= <-]. split; [|reflexivity].
      now apply titleOr_nonempty.
  - apply shown_Forall. intros c i item. unfold webItem.
    destruct (web c) as [w|]; [|easy]. intros [= <-]. cbn.
    now destruct (c_title w) as [[|x t]|].
Qed.

(** ** What the extraction never does *)

Lemma JSON_parse_error (text : jsstring) (e : Exception) :
  JSON_parse text = inl e -> e = SyntaxError.
Proof.
  unfold JSON_parse.
  destruct (parseValue (S (2 * length text)) text) as [v rest| |];
    [destruct (skipWs rest)|..]; congruence.
Qed.

Lemma distributionOf_truthy (parsed : JSValue) :
  distributionOf parsed = JSNull \/ truthy (distributionOf parsed) = true.
Proof.
  unfold distributionOf. destruct (getProperty parsed sentimentKey) as [e|field];
    [now left|].
  destruct (truthy field) eqn:T; [now right | now left].
Qed.

(** The three outcomes of the extraction. *)
Lemma extract_cases (raw : jsstring) :
  extractSentiment raw = mkExtraction raw JSNull []
  \/ extractSentiment raw
     = mkExtraction raw JSNull
         [mkDiagnostic (js "Failed to parse hidden sentiment JSON") SyntaxError]
  \/ exists m parsed,
       String_match raw jsonRegex = Some m
       /\ extractSentiment raw
          = mkExtraction (cleanedText raw m) (distributionOf parsed) [].
Proof.
  destruct (String_match raw jsonRegex) as [m|] eqn:M;
    [|left; now apply extract_unmatched].
  destruct (@jsonRegex_match _ _ M) as (pre & post & ws1 & b1 & b2 & ws2 & H).
  cbv zeta in H. destruct H as (_ & _ & _ & Hg & _).
  destruct (JSON_parse (LBRACE :: b1 ++ quotedKey ++ b2 ++ [RBRACE]))
    as [e|parsed] eqn:P.
  - right. left. rewrite (@extract_unparsed _ _ _ _ M Hg P).
    now rewrite (@JSON_parse_error _ _ P).
  - right. right. exists m, parsed. split; [reflexivity|].
    apply (@extract_parsed _ _ _ _ M Hg P).
Qed.

Lemma replaceAllFrom_length (r : regex) (s : jsstring) : forall i skip,
  length (replaceAllFrom r [] i skip s) <= length s.
Proof.
  induction s as [|c t IH]; intros i skip; destruct skip as [|n];
    cbn [replaceAllFrom].
  - now destruct (matchAt r i []) as [[e caps]|].
  - reflexivity.
  - destruct (matchAt r i (c :: t)) as [[e caps]|]; cbn [app].
    + destruct (Nat.leb e i); cbn [length].
      * specialize (IH (S i) 0). lia.
      * specialize (IH (S i) (e - S i)). lia.
    + cbn [length]. specialize (IH (S i) 0). lia.
  - cbn [length]. specialize (IH (S i) n). lia.
Qed.

Lemma trim_length (s : jsstring) : length (trim s) <= length s.
Proof.
  destruct (trim_split s) as (a & b & H & _). rewrite H at 2.
  rewrite !length_app. lia.
Qed.

Lemma cleanedText_length (raw : jsstring) (m : MatchResult) :
  String_match raw jsonRegex = Some m ->
  length (cleanedText raw m) + 36 <= length raw.
Proof.
  intros M. destruct (@jsonRegex_match _ _ M) as (pre & post & ws1 & b1 & b2 & ws2 & H).
  cbv zeta in H. destruct H as (Hraw & Hi & Hw & _).
  unfold cleanedText, removeBlock.
  pose proof (trim_length (replaceAll separatorRegex []
    (firstn (m_index m) raw ++ skipn (m_index m + length (m_whole m)) raw))) as T.
  pose proof (replaceAllFrom_length separatorRegex
    (firstn (m_index m) raw ++ skipn (m_index m + length (m_whole m)) raw) 0 0) as R.
  fold (replaceAll separatorRegex []
    (firstn (m_index m) raw ++ skipn (m_index m + length (m_whole m)) raw)) in R.
  assert (L : length (firstn (m_index m) raw
                      ++ skipn (m_index m + length (m_whole m)) raw)
              + length (m_whole m) = length raw).
  { rewrite length_app, length_firstn, length_skipn. rewrite Hraw at 1 2 3.
    rewrite !length_app. lia. }
  assert (W : 36 <= length (m_whole m)).
  { rewrite Hw. rewrite !length_app. cbn [length]. rewrite !length_app.
    change (length (js "```json")) with 7. change (length quotedKey) with 24.
    change (length (js "```")) with 3. cbn [length]. lia. }
  lia.
Qed.

(** X13.  The distribution the extraction returns is [null] or a truthy
    value, whatever the report: the chart section is rendered exactly
    when the distribution is not [null]. *)
Theorem X13_chart_shown_iff_distribution :
  forall rawText : jsstring,
    let e := extractSentiment rawText in
    (sentimentData e = JSNull \/ truthy (sentimentData e) = true)
    /\ (chartShown e = true <-> sentimentData e <> JSNull).
Proof.
  intros raw e.
  assert (H : sentimentData e = JSNull \/ truthy (sentimentData e) = true).
  { subst e. destruct (extract_cases raw) as [-> | [-> | (m & parsed & _ & ->)]];
      [now left | now left |]. apply distributionOf_truthy. }
  split; [exact H|]. unfold chartShown. destruct H as [-> | H].
  - split; [discriminate | congruence].
  - split; [|easy]. intros _ E. rewrite E in H. discriminate.
Qed.

(** X14.  The extraction logs nothing, or it logs one [SyntaxError], and
    then it returns the raw text as it is with no distribution: no other
    exception reaches the [catch], since a text that starts with a brace
    parses to an object or not at all. *)
Theorem X14_only_syntax_errors_are_logged :
  forall rawText : jsstring,
    let e := extractSentiment rawText in
    consoleErrors e = []
    \/ (consoleErrors e
        = [mkDiagnostic (js "Failed to parse hidden sentiment JSON") SyntaxError]
        /\ cleanText e = rawText /\ sentimentData e = JSNull).
Proof.
  intros raw e. subst e.
  destruct (extract_cases raw) as [-> | [-> | (m & parsed & _ & ->)]];
    [now left | right | now left].
  now repeat split.
Qed.

(** X15.  The cleaned text is never longer than the raw text, and it is
    at least 36 code units shorter (the fence, the braces and the quoted
    key) whenever a distribution is returned. *)
Theorem X15_clean_text_is_not_longer :
  forall rawText : jsstring,
    let e := extractSentiment rawText in
    length (cleanText e) <= length rawText
    /\ (sentimentData e <> JSNull -> length (cleanText e) + 36 <= length rawText).
Proof.
  intros raw e. subst e.
  destruct (extract_cases raw) as [-> | [-> | (m & parsed & M & ->)]];
    cbn [cleanText sentimentData].
  - split; [lia | congruence].
  - split; [lia | congruence].
  - pose proof (@cleanedText_length _ _ M). split; [lia | intros _; lia].
Qed.

(** ** More on the lines *)

Lemma splitOn_length (sep : char) (s : jsstring) :
  length (splitOn sep s) = S (length (filter (fun c => char_eqb c sep) s)).
Proof.
  induction s as [|c t IH]; [reflexivity|]. cbn [splitOn filter].
  destruct (char_eqb c sep); [cbn [length]; now rewrite IH|].
  destruct (splitOn sep t) as [|p ps] eqn:E; [now apply splitOn_nonempty in E|].
  exact IH.
Qed.

Lemma trim_nil_iff (s : jsstring) :
  trim s = [] <-> forallb isWhiteSpace s = true.
Proof.
  split.
  - intros H. destruct (trim_split s) as (a & b & Hs & Ha & Hb).
    rewrite H in Hs. rewrite Hs, !forallb_app, Ha, Hb. reflexivity.
  - intros H. pose proof (@trim_ws_around s [] [] H eq_refl) as T.
    cbn [app] in T. now rewrite app_nil_r in T.
Qed.

Lemma renderLine_prefix (p : jsstring) (line : jsstring) :
  startsWith p (trim line) = true ->
  trim line = p ++ replaceString p [] (trim line).
Proof.
  intros H. rewrite (@replaceString_prefix _ _ H). now apply startsWith_skipn.
Qed.

(** X16.  The report is rendered to one block for every line: as many
    blocks as the text has line feeds, and one more; no line is dropped
    and none is merged with another, an empty text giving one spacer. *)
Theorem X16_one_block_per_line :
  forall text : jsstring,
    length (renderFormattedText text) = S (lineFeeds text)
    /\ renderFormattedText [] = [Spacer].
Proof.
  intros text. split; [|reflexivity].
  unfold renderFormattedText, lineFeeds. rewrite length_map. apply splitOn_length.
Qed.

Lemma renderLine_Spacer (line : jsstring) :
  renderLine line = Spacer <-> trim line = [].
Proof.
  unfold renderLine. split.
  - destruct (startsWith (js "# ") (trim line)); [discriminate|].
    destruct (startsWith (js "## ") (trim line)); [discriminate|].
    destruct (startsWith (js "### ") (trim line)); [discriminate|].
    destruct (startsWith (js "- ") (trim line) || startsWith (js "* ") (trim line)
              || startsWith [EM_DASH; SPACE] (trim line)); [discriminate|].
    destruct (jsstring_eqb (trim line) []) eqn:E; [|discriminate].
    intros _. now apply jsstring_eqb_eq.
  - intros ->. reflexivity.
Qed.

(** X17.  A line is rendered to a spacer exactly when it holds white
    space only, that is, when nothing is left of it once trimmed. *)
Theorem X17_spacer_iff_blank_line :
  forall line : jsstring,
    (renderLine line = Spacer <-> forallb isWhiteSpace line = true)
    /\ (renderLine line = Spacer <-> trim line = []).
Proof.
  intros line. split; [|apply renderLine_Spacer].
  rewrite <- trim_nil_iff. apply renderLine_Spacer.
Qed.

(** X18.  A heading has level 1, 2 or 3 and a text that is not empty and
    does not end with white space: the trimmed line is as many hashes as
    the level, a space and the text. *)
Theorem X18_heading_inversion :
  forall (line : jsstring) (level : nat) (text : jsstring),
    renderLine line = Heading level text ->
    (level = 1 \/ level = 2 \/ level = 3)
    /\ trim line = repeat HASH level ++ SPACE :: text
    /\ exists t c, text = t ++ [c] /\ isWhiteSpace c = false.
Proof.
  intros line level text H.
  assert (Hl : (level = 1 \/ level = 2 \/ level = 3)
               /\ trim line = repeat HASH level ++ SPACE :: text).
  { unfold renderLine in H.
    destruct (startsWith (js "# ") (trim line)) eqn:E1.
    { injection H as <- <-. split; [now left|]. exact (renderLine_prefix _ _ E1). }
    destruct (startsWith (js "## ") (trim line)) eqn:E2.
    { injection H as <- <-. split; [now right; left|].
      exact (renderLine_prefix _ _ E2). }
    destruct (startsWith (js "### ") (trim line)) eqn:E3.
    { injection H as <- <-. split; [now right; right|].
      exact (renderLine_prefix _ _ E3). }
    destruct (startsWith (js "- ") (trim line) || startsWith (js "* ") (trim line)
              || startsWith [EM_DASH; SPACE] (trim line)); [discriminate|].
    destruct (jsstring_eqb (trim line) []); discriminate. }
  destruct Hl as [Hl Ht]. split; [exact Hl|]. split; [exact Ht|].
  destruct (rev text) as [|c r] eqn:R.
  - apply (f_equal (@rev char)) in R. rewrite rev_involutive in R. cbn in R.
    subst text. now apply trim_last in Ht.
  - apply (f_equal (@rev char)) in R. rewrite rev_involutive in R. cbn [rev] in R.
    exists (rev r), c. split; [exact R|]. subst text.
    change (SPACE :: rev r ++ [c]) with ((SPACE :: rev r) ++ [c]) in Ht.
    rewrite app_assoc in Ht. now apply trim_last in Ht.
Qed.

Lemma X18_heading_inversion_witness :
  renderLine (js "  ## Part one ") = Heading 2 (js "Part one")
  /\ (2 = 1 \/ 2 = 2 \/ 2 = 3)
  /\ trim (js "  ## Part one ") = repeat HASH 2 ++ SPACE :: js "Part one"
  /\ exists t c, js "Part one" = t ++ [c] /\ isWhiteSpace c = false.
Proof.
  split; [reflexivity|].
  apply (@X18_heading_inversion (js "  ## Part one ") 2 (js "Part one")).
  reflexivity.
Defined.

(** ** More on the spans *)

Lemma slice_length (s : jsstring) (start stop : Z) :
  length (slice s start stop) <= length s.
Proof.
  unfold slice. cbv zeta. rewrite length_firstn, length_skipn. lia.
Qed.

Lemma renderPart_length (part : jsstring) :
  length (spanText (renderPart part)) <= length part.
Proof.
  unfold renderPart.
  destruct (startsWith boldMark part && endsWith boldMark part); cbn [spanText];
    [apply slice_length | lia].
Qed.

Lemma textContent_length (parts : list jsstring) :
  length (textContent (map renderPart parts)) <= length (concat parts).
Proof.
  unfold textContent. induction parts as [|p ps IH]; [reflexivity|].
  cbn [map concat]. rewrite !length_app.
  pose proof (renderPart_length p). lia.
Qed.

(** X19.  A content without two asterisks in a row is rendered to one
    plain span that holds it whole. *)
Theorem X19_content_without_bold_mark :
  forall content : jsstring,
    indexOf boldMark content = None ->
    renderSpans content = [PlainText content].
Proof.
  intros content H. unfold renderSpans.
  pose proof (splitRegex_boldSplit content) as B.
  inversion B as [s Hs E1 E2 | piece x rest parts Hp Hx Hi Hr E1 E2].
  - cbn [map]. unfold renderPart.
    pose proof (proj1 (indexOf_None boldMark content) H 0 (Nat.le_0_l _)) as S0.
    cbn [skipn] in S0. now rewrite S0.
  - exfalso. rewrite <- E1 in H. revert H. apply indexOf_occurrence.
Qed.

Lemma X19_content_without_bold_mark_witness :
  indexOf boldMark (js "2 * 3 = 6") = None
  /\ renderSpans (js "2 * 3 = 6") = [PlainText (js "2 * 3 = 6")].
Proof.
  split; [reflexivity|].
  apply (@X19_content_without_bold_mark (js "2 * 3 = 6")). reflexivity.
Defined.

(** X20.  The spans of a content show no more text than the content
    holds: a span is a fragment of the content or a fragment without its
    two delimiters. *)
Theorem X20_spans_show_no_more_than_content :
  forall content : jsstring,
    length (textContent (renderSpans content)) <= length content.
Proof.
  intros content. unfold renderSpans.
  pose proof (textContent_length (splitRegex boldRegex content)) as H.
  now rewrite (boldSplit_concat (splitRegex_boldSplit content)) in H.
Qed.

(** ** The blocks of a cleaned report *)

Lemma splitOn_head (sep c : char) (t : jsstring) :
  char_eqb c sep = false ->
  exists p ps, splitOn sep (c :: t) = (c :: p) :: ps.
Proof.
  intros H. cbn [splitOn]. rewrite H.
  destruct (splitOn sep t) as [|p ps]; [now exists [], [] | now exists p, ps].
Qed.

Lemma splitOn_last (sep c : char) (x : jsstring) :
  char_eqb c sep = false ->
  exists ps p, splitOn sep (x ++ [c]) = ps ++ [p ++ [c]].
Proof.
  intros H. induction x as [|y x (ps & p & IH)].
  - exists [], []. cbn. now rewrite H.
  - cbn [app splitOn]. rewrite IH. destruct (char_eqb y sep).
    + now exists ([] :: ps), p.
    + destruct ps as [|q qs]; cbn [app].
      * now exists [], (y :: p).
      * now exists ((y :: q) :: qs), p.
Qed.

Lemma not_blank (line : jsstring) (c : char) :
  In c line -> isWhiteSpace c = false -> renderLine line <> Spacer.
Proof.
  intros Hin Hc H. apply renderLine_Spacer, trim_nil_iff in H.
  rewrite forallb_forall in H. apply H in Hin. congruence.
Qed.

Lemma whiteSpace_LF (c : char) : isWhiteSpace c = false -> char_eqb c LF = false.
Proof.
  intros H. unfold char_eqb. destruct (N.eqb_spec c LF) as [->|]; [|reflexivity].
  discriminate.
Qed.

Lemma trimmed_blocks (s : jsstring) :
  trim s <> [] ->
  hd Spacer (renderFormattedText (trim s)) <> Spacer
  /\ last (renderFormattedText (trim s)) Spacer <> Spacer.
Proof.
  intros Hne. unfold renderFormattedText. split.
  - destruct (trim s) as [|c t] eqn:E; [easy|].
    pose proof (@trim_first _ _ _ E) as Hc.
    destruct (@splitOn_head LF c t (whiteSpace_LF c Hc)) as (p & ps & ->).
    cbn [map hd]. apply not_blank with c; [now left | exact Hc].
  - destruct (rev (trim s)) as [|c r] eqn:R.
    { apply (f_equal (@rev char)) in R. now rewrite rev_involutive in R. }
    apply (f_equal (@rev char)) in R. rewrite rev_involutive in R. cbn [rev] in R.
    pose proof (@trim_last _ _ _ R) as Hc. rewrite R.
    destruct (@splitOn_last LF c (rev r) (whiteSpace_LF c Hc)) as (ps & p & ->).
    rewrite map_app. cbn [map]. rewrite last_last.
    apply not_blank with c; [|exact Hc]. apply in_or_app. right. now left.
Qed.

(** X21.  When a distribution is returned and the cleaned text is not
    empty, the blocks of the report neither start nor end with a spacer:
    the white space that the removed block and the separator lines leave
    at both ends of the text is trimmed before the text is rendered. *)
Theorem X21_cleaned_report_has_no_outer_spacer :
  forall rawText : jsstring,
    sentimentData (extractSentiment rawText) <> JSNull ->
    cleanText (extractSentiment rawText) <> [] ->
    hd Spacer (reportBlocks rawText) <> Spacer
    /\ last (reportBlocks rawText) Spacer <> Spacer.
Proof.
  intros raw Hd Hc. unfold reportBlocks.
  destruct (extract_cases raw) as [E | [E | (m & parsed & _ & E)]];
    rewrite E in *; cbn [sentimentData cleanText] in *; try easy.
  apply trimmed_blocks. exact Hc.
Qed.

Lemma X21_cleaned_report_has_no_outer_spacer_witness :
  (sentimentData (extractSentiment exampleReport) <> JSNull
   /\ cleanText (extractSentiment exampleReport) <> [])
  /\ hd Spacer (reportBlocks exampleReport) <> Spacer
  /\ last (reportBlocks exampleReport) Spacer <> Spacer.
Proof.
  assert (H : sentimentData (extractSentiment exampleReport) <> JSNull
              /\ cleanText (extractSentiment exampleReport) <> []).
  { split.
    - replace (sentimentData (extractSentiment exampleReport))
        with exampleDistribution by by_computation. discriminate.
    - replace (cleanText (extractSentiment exampleReport))
        with (js "# Report" ++ [LF] ++ js "Fine.") by by_computation.
      discriminate. }
  split; [exact H|].
  apply (@X21_cleaned_report_has_no_outer_spacer exampleReport); apply H.
Defined.

(** ** The pie chart and the keys of the record *)

(** X22.  The style of the chart depends on the entries of the five
    stars only: two records that agree on the keys 5, 4, 3, 2 and 1 give
    the same segments and the same gradient, whatever other keys they
    hold. *)
Theorem X22_pie_reads_five_keys :
  forall (Number_toString : float -> jsstring) (data data' : NumberRecord),
    (forall star, In star stars -> recordGet data star = recordGet data' star) ->
    pieSegments data = pieSegments data'
    /\ getPieStyle Number_toString data = getPieStyle Number_toString data'.
Proof.
  intros toString d d' H.
  assert (V : forall star, In star stars ->
                           valueOrZero d star = valueOrZero d' star).
  { intros star Hs. unfold valueOrZero. now rewrite (H star Hs). }
  assert (E : pieSegments d = pieSegments d').
  { unfold pieSegments. rewrite !pieLoop_unrolled. cbv zeta. cbn [snd].
    rewrite !(V (js "5")), !(V (js "4")), !(V (js "3")), !(V (js "2")),
      !(V (js "1")); [reflexivity|..]; unfold stars; cbn [In]; tauto. }
  split; [exact E|]. unfold getPieStyle. now rewrite E.
Qed.

Lemma X22_pie_reads_five_keys_witness :
  (forall star, In star stars ->
     recordGet [(js "5", 100%float)] star
     = recordGet [(js "total", 7%float); (js "5", 100%float); (js "6", 1%float)]
                 star)
  /\ pieSegments [(js "5", 100%float)]
     = pieSegments [(js "total", 7%float); (js "5", 100%float); (js "6", 1%float)]
  /\ getPieStyle (fun _ => []) [(js "5", 100%float)]
     = getPieStyle (fun _ => [])
         [(js "total", 7%float); (js "5", 100%float); (js "6", 1%float)].
Proof.
  assert (H : forall star, In star stars ->
     recordGet [(js "5", 100%float)] star
     = recordGet [(js "total", 7%float); (js "5", 100%float); (js "6", 1%float)]
                 star).
  { intros star Hs. unfold stars in Hs. cbn [In] in Hs.
    destruct Hs as [<- | [<- | [<- | [<- | [<- | []]]]]]; reflexivity. }
  split; [exact H|].
  apply (@X22_pie_reads_five_keys (fun _ => []) [(js "5", 100%float)]
           [(js "total", 7%float); (js "5", 100%float); (js "6", 1%float)]).
  exact H.
Defined.
